(** * kombine: clustered kernel density estimation

    A shallow embedding of [kombine/clustered_kde.py] (classes [OptimizedKDE],
    [ClusteredKDE], [KDE] and the module function [_evaluate_point_logpdf])
    over the real numbers, and the properties of that code.

    Conventions of the embedding.
    - A numpy float is a real number ([R]); rounding, overflow and the
      non-finite values [nan] and [inf] are outside the embedding.
    - A 2-D [ndarray] is a [matrix]: its column count and the list of its
      rows.  A 1-D [ndarray] is a [vec].
    - A Python exception is a [failure]; code that can raise returns a
      [result].
    - [numpy.random] is a state of type [rng], passed explicitly.
    - The collaborators the module imports but does not define (the
      k-means routines of [scipy.cluster.vq], the worker pool, the random
      generator) are operations of the classes [ClusterOps], [PoolOps] and
      [RandomOps]. *)

From Stdlib Require Import Reals List Lia Lra ZArith Bool Arith.
Import ListNotations.
Open Scope R_scope.

(** ** Exceptions *)

Inductive failure : Type :=
| AssertionError
| ValueError
| LinAlgError
| ZeroDivisionError
| IndexError
| TypeError.

Inductive result (A : Type) : Type :=
| Ok (a : A)
| Raise (e : failure).

Arguments Ok {A} a.
Arguments Raise {A} e.

Definition bind {A B : Type} (c : result A) (k : A -> result B) : result B :=
  match c with
  | Ok a => k a
  | Raise e => Raise e
  end.

Notation "x <- c ;; k" := (bind c (fun x => k))
  (at level 61, c at next level, right associativity).

Fixpoint mapM {A B : Type} (f : A -> result B) (l : list A) : result (list B) :=
  match l with
  | [] => Ok []
  | a :: l' => b <- f a ;; bs <- mapM f l' ;; Ok (b :: bs)
  end.

(** ** Arrays *)

Definition vec := list R.

Record matrix : Type := mkMatrix { ncols : nat; rows : list vec }.

Definition nrows (A : matrix) : nat := length (rows A).

Definition wf_matrix (A : matrix) : Prop :=
  Forall (fun r => length r = ncols A) (rows A).

Definition rsum (v : vec) : R := fold_right Rplus 0 v.

Fixpoint dot (u v : vec) : R :=
  match u, v with
  | x :: u', y :: v' => x * y + dot u' v'
  | _, _ => 0
  end.

Fixpoint map2 (f : R -> R -> R) (u v : vec) : vec :=
  match u, v with
  | x :: u', y :: v' => f x y :: map2 f u' v'
  | _, _ => []
  end.

Definition entry (A : matrix) (i j : nat) : R := nth j (nth i (rows A) []) 0.

Definition column (j : nat) (rs : list vec) : vec := map (fun r => nth j r 0) rs.

Definition transpose (A : matrix) : matrix :=
  mkMatrix (nrows A) (map (fun j => column j (rows A)) (seq 0 (ncols A))).

(** [numpy.dot(A, x)] for a 2-D [A] and a 1-D [x]. *)
Definition mat_vec (A : matrix) (x : vec) : vec := map (fun r => dot r x) (rows A).

(** [numpy.dot(A, B)] for 2-D arguments of matching inner dimension. *)
Definition mat_mul (A B : matrix) : matrix :=
  mkMatrix (ncols B)
    (map (fun r => map (fun j => dot r (column j (rows B))) (seq 0 (ncols B))) (rows A)).

(** *** numpy *)

(** [numpy.mean(a, axis=0)]. *)
Definition np_mean (A : matrix) : vec :=
  map (fun j => rsum (column j (rows A)) / INR (nrows A)) (seq 0 (ncols A)).

(** [numpy.std(a, axis=0)]: the population standard deviation (ddof = 0). *)
Definition np_std (A : matrix) : vec :=
  map (fun j =>
         let c := column j (rows A) in
         let mu := rsum c / INR (nrows A) in
         sqrt (rsum (map (fun x => (x - mu) * (x - mu)) c) / INR (nrows A)))
      (seq 0 (ncols A)).

(** The result of a numpy call that is a number when squeezed: a 0-d
    array, or else a 2-D one. *)
Inductive ndarray : Type :=
| Scalar (x : R)
| Array2 (A : matrix).

(** The sample covariance of the columns of [A]: rows are observations,
    the normalisation is by [N - 1], which numpy replaces by [0] when it is
    not positive. *)
Definition cov_matrix (A : matrix) : matrix :=
  let mu := np_mean A in
  let centred := map (fun r => map2 Rminus r mu) (rows A) in
  let fact := INR (nrows A - 1) in
  mkMatrix (ncols A)
    (map (fun i =>
            map (fun j => dot (column i centred) (column j centred) / fact)
                (seq 0 (ncols A)))
         (seq 0 (ncols A))).

(** The sample variance of one variable, with the same normalisation. *)
Definition variance (v : vec) : R :=
  let mu := rsum v / INR (length v) in
  rsum (map (fun x => (x - mu) * (x - mu)) v) / INR (length v - 1).

(** [numpy.cov(a, rowvar=0)].  numpy takes an array of one row for one
    variable whatever [rowvar] says, and it squeezes its result: with one
    variable (one row, or one column) the result is a 0-d array, not a
    1 x 1 matrix. *)
Definition np_cov (A : matrix) : ndarray :=
  if (nrows A =? 1)%nat then Scalar (variance (hd [] (rows A)))
  else if (ncols A =? 1)%nat then Scalar (variance (column 0 (rows A)))
  else Array2 (cov_matrix A).

(** [a * s] for a scalar [s]: on a 2-D array, and on one that may be 0-d. *)
Definition scale (A : matrix) (s : R) : matrix :=
  mkMatrix (ncols A) (map (map (fun x => x * s)) (rows A)).

Definition nd_scale (a : ndarray) (s : R) : ndarray :=
  match a with
  | Scalar x => Scalar (x * s)
  | Array2 A => Array2 (scale A s)
  end.

(** The shape of [a op v] for a 2-D [a] with [c] columns and a 1-D [v] of
    length [n], by numpy's broadcasting rule. *)
Definition broadcast_shape (c n : nat) : result nat :=
  if (c =? n)%nat then Ok c
  else if (c =? 1)%nat then Ok n
  else if (n =? 1)%nat then Ok c
  else Raise ValueError.

(** One row of [a op v] under that rule. *)
Definition broadcast_row (f : R -> R -> R) (r v : vec) : vec :=
  if (length r =? length v)%nat then map2 f r v
  else if (length r =? 1)%nat then map (f (hd 0 r)) v
  else map (fun x => f x (hd 0 v)) r.

Definition broadcast (f : R -> R -> R) (A : matrix) (v : vec) : result matrix :=
  c <- broadcast_shape (ncols A) (length v) ;;
  Ok (mkMatrix c (map (fun r => broadcast_row f r v) (rows A))).

(** [a[mask]] for a boolean mask over the rows. *)
Fixpoint select (rs : list vec) (mask : list bool) : list vec :=
  match rs, mask with
  | r :: rs', b :: mask' => if b then r :: select rs' mask' else select rs' mask'
  | _, _ => []
  end.

Definition np_mask_rows (A : matrix) (mask : list bool) : result matrix :=
  if (nrows A =? length mask)%nat
  then Ok (mkMatrix (ncols A) (select (rows A) mask))
  else Raise IndexError.

(** [numpy.sum(mask)]. *)
Definition count_true (mask : list bool) : nat := length (filter (fun b => b) mask).

(** [numpy.cumsum]. *)
Fixpoint cumsum_from (acc : R) (v : vec) : vec :=
  match v with
  | [] => []
  | x :: v' => (acc + x) :: cumsum_from (acc + x) v'
  end.

Definition np_cumsum (v : vec) : vec := cumsum_from 0 v.

(** [numpy.searchsorted(a, u)] (side = left) on a sorted [a]: the first
    index [i] with [u <= a[i]], or [len(a)] when there is none. *)
Fixpoint searchsorted1 (a : vec) (u : R) : nat :=
  match a with
  | [] => 0%nat
  | x :: a' => if Rle_dec u x then 0%nat else S (searchsorted1 a' u)
  end.

Definition np_searchsorted (a : vec) (us : vec) : list nat := map (searchsorted1 a) us.

(** *** scipy *)

(** [scipy.misc.logsumexp] of a 1-D array: the maximum is taken out before
    exponentiating; an empty array has no maximum. *)
Definition logsumexp (a : vec) : result R :=
  match a with
  | [] => Raise ValueError
  | x :: a' =>
      let a_max := fold_left Rmax a' x in
      Ok (ln (rsum (map (fun y => exp (y - a_max)) a)) + a_max)
  end.

(** [logsumexp(a, axis=0)] of the 2-D array whose rows are [a]. *)
Definition logsumexp_axis0 (a : list vec) : result vec :=
  match a with
  | [] => Raise ValueError
  | v :: _ => mapM (fun i => logsumexp (column i a)) (seq 0 (length v))
  end.

(** [scipy.linalg.cholesky(a, lower)]: LAPACK's [potrf].  With
    [lower = False], scipy's default, the result is the upper-triangular [U]
    with [a = U^T U]; row [i] of [U] is computed from the rows above it, and
    the factorisation fails at a pivot that is not positive. *)
Definition chol_row (A : matrix) (prev : list vec) : result vec :=
  let i := length prev in
  let piv := entry A i i - dot (column i prev) (column i prev) in
  if Rlt_dec 0 piv then
    Ok (map (fun j =>
               if (j <? i)%nat then 0
               else if (j =? i)%nat then sqrt piv
               else (entry A i j - dot (column i prev) (column j prev)) / sqrt piv)
            (seq 0 (ncols A)))
  else Raise LinAlgError.

Fixpoint chol_rows (A : matrix) (todo : nat) (prev : list vec) : result (list vec) :=
  match todo with
  | O => Ok prev
  | S t => r <- chol_row A prev ;; chol_rows A t (prev ++ [r])
  end.

Definition cholesky_2d (A : matrix) (lower : bool) : result matrix :=
  if (nrows A =? ncols A)%nat then
    U <- chol_rows A (ncols A) [] ;;
    Ok (if lower then transpose (mkMatrix (ncols A) U) else mkMatrix (ncols A) U)
  else Raise ValueError.

(** The argument check of the [scipy.linalg] routines used here: an
    array that is not 2-D is refused ("expected square matrix"). *)
Definition as_2d (a : ndarray) : result matrix :=
  match a with
  | Scalar _ => Raise ValueError
  | Array2 A => Ok A
  end.

Definition la_cholesky (a : ndarray) (lower : bool) : result matrix :=
  A <- as_2d a ;; cholesky_2d A lower.

(** [scipy.linalg.cho_factor(a)]: the factor together with the flag that
    says which triangle holds it ([lower = False] by default). *)
Definition la_cho_factor (a : ndarray) : result (matrix * bool) :=
  U <- la_cholesky a false ;; Ok (U, false).

(** Forward substitution: solves [U^T y = b] for upper-triangular [U]. *)
Fixpoint forward_subst (U : matrix) (b : vec) (todo : nat) (ys : vec) : vec :=
  match todo with
  | O => ys
  | S t =>
      let i := length ys in
      let y := (nth i b 0 - dot (firstn i (column i (rows U))) ys) / entry U i i in
      forward_subst U b t (ys ++ [y])
  end.

(** Back substitution: solves [U x = y] for upper-triangular [U]; [i] runs
    from the last row up. *)
Fixpoint back_subst (U : matrix) (y : vec) (i : nat) (xs : vec) : vec :=
  match i with
  | O => xs
  | S i' =>
      let x := (nth i' y 0 - dot (skipn i (nth i' (rows U) [])) xs) / entry U i' i' in
      back_subst U y i' (x :: xs)
  end.

(** [scipy.linalg.cho_solve((c, lower), b, check_finite=False)] for one
    right-hand side [b]: solves [a x = b] from the factor of [a]. *)
Definition la_cho_solve (cf : matrix * bool) (b : vec) : vec :=
  let U := if snd cf then transpose (fst cf) else fst cf in
  let n := ncols U in
  back_subst U (forward_subst U b n []) n [].

(** [scipy.linalg.det]: expansion along the first row. *)
Fixpoint remove_nth (j : nat) (v : vec) : vec :=
  match j, v with
  | _, [] => []
  | O, _ :: v' => v'
  | S j', x :: v' => x :: remove_nth j' v'
  end.

Fixpoint det_rows (n : nat) (rs : list vec) : R :=
  match n, rs with
  | O, _ => 1
  | S n', r0 :: rest =>
      rsum (map (fun j =>
                   (if Nat.even j then 1 else -1) * nth j r0 0
                   * det_rows n' (map (remove_nth j) rest))
                (seq 0 n))
  | S _, [] => 0
  end.

Definition la_det (a : ndarray) : result R :=
  A <- as_2d a ;;
  if (nrows A =? ncols A)%nat then Ok (det_rows (ncols A) (rows A))
  else Raise ValueError.

(** ** Collaborators *)

(** The worker pool handed to the estimators: its [map] method. *)
Class PoolOps (pool : Type) : Type :=
  { pool_map : pool -> forall A B : Type, (A -> B) -> list A -> list B }.

(** [scipy.cluster.vq]: [kmeans(obs, k)] gives the code book (the
    centroids), [vq(obs, code_book)] the code of every observation.  The
    value at given arguments stands for the outcome of the one call the
    module makes with them. *)
Class ClusterOps : Type :=
  { kmeans : matrix -> nat -> result (list vec);
    vq : matrix -> list vec -> result (list nat) }.

(** [numpy.random]: one standard-normal value, one integer of
    [randint(low, high)], one value of [rand()]. *)
Class RandomOps (rng : Type) : Type :=
  { normal1 : rng -> R * rng;
    randint1 : nat -> nat -> rng -> nat * rng;
    rand1 : rng -> R * rng }.

Section Random.
Context {rng : Type} {RO : RandomOps rng}.

Fixpoint draw_list {A : Type} (g : rng -> A * rng) (n : nat) (s : rng) : list A * rng :=
  match n with
  | O => ([], s)
  | S n' =>
      let (x, s1) := g s in
      let (xs, s2) := draw_list g n' s1 in
      (x :: xs, s2)
  end.

(** [numpy.random.normal(size=(n, d))]. *)
Definition random_normal (n d : nat) (s : rng) : matrix * rng :=
  let (rs, s') := draw_list (draw_list normal1 d) n s in (mkMatrix d rs, s').

(** [numpy.random.randint(low, high, n)]. *)
Definition random_randint (low high n : nat) (s : rng) : result (list nat * rng) :=
  if (low <? high)%nat then Ok (draw_list (randint1 low high) n s)
  else Raise ValueError.

(** [numpy.random.rand(n)]. *)
Definition random_rand (n : nat) (s : rng) : vec * rng := draw_list rand1 n s.
End Random.

(** ** [_evaluate_point_logpdf] *)

Definition _evaluate_point_logpdf (args : vec * matrix * (matrix * bool)) : result R :=
  let '(x, data, cho_factor) := args in
  diff <- broadcast Rminus data x ;;
  if (ncols (fst cho_factor) =? ncols diff)%nat then
    let tdiff := map (la_cho_solve cho_factor) (rows diff) in
    let diff' := map (fun rt => map2 Rmult (fst rt) (snd rt)) (combine (rows diff) tdiff) in
    logsumexp (map (fun r => - rsum r / 2) diff')
  else Raise ValueError.

(** ** class [KDE] *)

Module KDE.

Record t (pool : Type) : Type := mk
  { _N : nat;
    _dim : nat;
    _data : matrix;
    _pool : option pool;
    _mean : vec;
    _cov : ndarray;
    _cho_factor : matrix * bool;
    _decomposed_kernel_cov : matrix;
    _lognorm : R }.

Arguments mk {pool}.
Arguments _N {pool}.
Arguments _dim {pool}.
Arguments _data {pool}.
Arguments _pool {pool}.
Arguments _mean {pool}.
Arguments _cov {pool}.
Arguments _cho_factor {pool}.
Arguments _decomposed_kernel_cov {pool}.
Arguments _lognorm {pool}.

(** [self._N ** (-2./(self._dim + 4))]: an integer base and a float
    exponent; Python refuses a zero base with a negative exponent. *)
Definition scott_factor (N dim : nat) : result R :=
  if (N =? 0)%nat then Raise ZeroDivisionError
  else Ok (Rpower (INR N) (-2 / (INR dim + 4))).

(** [_set_bandwidth]: from [_N], [_dim] and [_cov] to the three attributes
    it sets, [_cho_factor], [_decomposed_kernel_cov] and [_lognorm]. *)
Definition _set_bandwidth (N dim : nat) (cov : ndarray)
  : result ((matrix * bool) * matrix * R) :=
  s <- scott_factor N dim ;;
  let kernel_cov := nd_scale cov s in
  cho_factor <- la_cho_factor kernel_cov ;;
  decomposed_kernel_cov <- la_cholesky kernel_cov false ;;
  d <- la_det kernel_cov ;;
  let lognorm := ln (INR N * sqrt ((2 * PI ^ dim) * d)) in
  Ok (cho_factor, decomposed_kernel_cov, lognorm).

(** The local [kernel_cov] of [_set_bandwidth] when [_cov] is 2-D: the
    sample covariance of the centres times Scott's factor (the lemma
    [KDE_kernel_cov_stored] ties it to [_cov]). *)
Definition kernel_cov {pool : Type} (self : t pool) : matrix :=
  scale (cov_matrix (_data self))
        (Rpower (INR (_N self)) (-2 / (INR (_dim self) + 4))).

Definition __init__ {pool : Type} (data : matrix) (p : option pool) : result (t pool) :=
  let N := nrows data in
  let dim := ncols data in
  let mean := np_mean data in
  let cov := np_cov data in
  bw <- _set_bandwidth N dim cov ;;
  let '(cho_factor, decomposed_kernel_cov, lognorm) := bw in
  Ok (mk N dim data p mean cov cho_factor decomposed_kernel_cov lognorm).

Section Methods.
Context {pool : Type} {PO : PoolOps pool}.
Context {rng : Type} {RO : RandomOps rng}.

(** [self._data[kernels]]. *)
Definition take_rows (data : matrix) (kernels : list nat) : result (list vec) :=
  mapM (fun i => match nth_error (rows data) i with
                 | Some r => Ok r
                 | None => Raise IndexError
                 end) kernels.

Definition draw (self : t pool) (N : nat) (s : rng) : result (matrix * rng) :=
  let (X, s1) := random_normal N (_dim self) s in
  ks <- random_randint 0 (_N self) N s1 ;;
  let (kernels, s2) := (ks : list nat * rng) in
  centres <- take_rows (_data self) kernels ;;
  let noise := map (mat_vec (_decomposed_kernel_cov self)) (rows X) in
  let draws := map (fun nc => map2 Rplus (fst nc) (snd nc)) (combine noise centres) in
  Ok (mkMatrix (_dim self) draws, s2).

Definition logpdf (self : t pool) (X : matrix) : result vec :=
  let dim := ncols X in
  if (dim =? _dim self)%nat then
    let M := match _pool self with
             | Some p => pool_map p (vec * matrix * (matrix * bool))%type (result R)
             | None => @map (vec * matrix * (matrix * bool))%type (result R)
             end in
    let args := map (fun x => (x, _data self, _cho_factor self)) (rows X) in
    results <- mapM (fun r => r) (M _evaluate_point_logpdf args) ;;
    Ok (map (fun r => r - _lognorm self) results)
  else Raise AssertionError.
End Methods.

End KDE.

(** ** class [ClusteredKDE] *)

(** An array made by [numpy.empty]: a row is [None] until it is written. *)
Record pmatrix : Type := mkPmatrix { pcols : nat; prows : list (option vec) }.

Definition np_empty (n d : nat) : pmatrix := mkPmatrix d (repeat None n).


(** [a[sel] = vals] for a boolean mask [sel] over the rows of [a]. *)
Fixpoint assign_rows (a : list (option vec)) (sel : list bool) (vals : list vec)
  : list (option vec) :=
  match a, sel with
  | r :: a', true :: sel' =>
      match vals with
      | v :: vals' => Some v :: assign_rows a' sel' vals'
      | [] => r :: assign_rows a' sel' []
      end
  | r :: a', false :: sel' => r :: assign_rows a' sel' vals
  | _, _ => a
  end.

Definition np_mask_assign (a : pmatrix) (sel : list bool) (vals : matrix) : result pmatrix :=
  if ((length (prows a) =? length sel) && (count_true sel =? nrows vals)
      && (ncols vals =? pcols a))%nat%bool
  then Ok (mkPmatrix (pcols a) (assign_rows (prows a) sel (rows vals)))
  else Raise ValueError.

Module ClusteredKDE.

Record t (pool : Type) : Type := mk
  { _N : nat;
    _dim : nat;
    _k : nat;
    _mean : vec;
    _std : vec;
    _data : matrix;
    _centroids : list vec;
    _assignments : list nat;
    _kdes : list (KDE.t pool);
    _logweights : vec }.

Arguments mk {pool}.
Arguments _N {pool}.
Arguments _dim {pool}.
Arguments _k {pool}.
Arguments _mean {pool}.
Arguments _std {pool}.
Arguments _data {pool}.
Arguments _centroids {pool}.
Arguments _assignments {pool}.
Arguments _kdes {pool}.
Arguments _logweights {pool}.

(** [(data - mean)/std], as [_whiten] computes it from the two attributes. *)
Definition whiten_with (mean std : vec) (data : matrix) : result matrix :=
  centred <- broadcast Rminus data mean ;;
  broadcast Rdiv centred std.

(** [assignments == c]. *)
Definition eq_mask (assignments : list nat) (c : nat) : list bool :=
  map (fun a => (a =? c)%nat) assignments.

(** [KDE(self._data[self._assignments == c], pool=pool)]. *)
Definition cluster_kde {pool : Type} (wdata : matrix) (assignments : list nat)
           (p : option pool) (c : nat) : result (KDE.t pool) :=
  sub <- np_mask_rows wdata (eq_mask assignments c) ;;
  KDE.__init__ sub p.

Section Methods.
Context {pool : Type} {PO : PoolOps pool}.
Context {CO : ClusterOps}.
Context {rng : Type} {RO : RandomOps rng}.

Definition _whiten (self : t pool) (data : matrix) : result matrix :=
  whiten_with (_mean self) (_std self) data.

(** [data * self._std + self._mean] on one row. *)
Definition color_row (self : t pool) (r : vec) : vec :=
  broadcast_row Rplus (broadcast_row Rmult r (_std self)) (_mean self).

Definition _color (self : t pool) (data : pmatrix) : result pmatrix :=
  c1 <- broadcast_shape (pcols data) (length (_std self)) ;;
  c2 <- broadcast_shape c1 (length (_mean self)) ;;
  Ok (mkPmatrix c2 (map (option_map (color_row self)) (prows data))).

Definition __init__ (data : matrix) (k : nat) (p : option pool) : result (t pool) :=
  let N := nrows data in
  let dim := ncols data in
  let mean := np_mean data in
  let std := np_std data in
  wdata <- whiten_with mean std data ;;
  centroids <- kmeans wdata k ;;
  assignments <- vq wdata centroids ;;
  kdes <- mapM (cluster_kde wdata assignments p) (seq 0 k) ;;
  let logweights :=
    map (fun c => ln (INR (count_true (eq_mask assignments c)) / INR N)) (seq 0 k) in
  Ok (mk N dim k mean std wdata centroids assignments kdes logweights).

(** The body of the loop [for c in xrange(self._k)] of [draw], over the
    cluster ids still to visit. *)
Fixpoint draw_loop (self : t pool) (clusters : list nat) (cs : list nat)
         (draws : pmatrix) (s : rng) : result (pmatrix * rng) :=
  match cs with
  | [] => Ok (draws, s)
  | c :: cs' =>
      let sel := eq_mask clusters c in
      match nth_error (_kdes self) c with
      | None => Raise IndexError
      | Some kde =>
          ds <- KDE.draw kde (count_true sel) s ;;
          draws' <- np_mask_assign draws sel (fst ds) ;;
          draw_loop self clusters cs' draws' (snd ds)
      end
  end.

Definition draw (self : t pool) (N : nat) (s : rng) : result (pmatrix * rng) :=
  let cumulative_weights := np_cumsum (map exp (_logweights self)) in
  let (us, s1) := random_rand N s in
  let clusters := np_searchsorted cumulative_weights us in
  let draws := np_empty N (_dim self) in
  ds <- draw_loop self clusters (seq 0 (_k self)) draws s1 ;;
  out <- _color self (fst ds) ;;
  Ok (out, snd ds).

Definition _whitened_logpdf (self : t pool) (X : matrix) : result vec :=
  logpdfs <- mapM (fun wk => l <- KDE.logpdf (snd wk) X ;;
                             Ok (map (fun v => fst wk + v) l))
                  (combine (_logweights self) (_kdes self)) ;;
  logsumexp_axis0 logpdfs.

Definition logpdf (self : t pool) (X : matrix) : result vec :=
  W <- _whiten self X ;; _whitened_logpdf self W.

Definition bic (self : t pool) : result R :=
  l <- _whitened_logpdf self (_data self) ;;
  let log_l := rsum l in
  let nparams := (Z.of_nat (_k self) * Z.of_nat (_dim self))%Z in
  let nparams := (nparams + (Z.of_nat (_k self) - 1))%Z in
  let nparams :=
    IZR nparams
    + IZR (Z.of_nat (_k self) * (Z.of_nat (_dim self) + 1) * Z.of_nat (_dim self)) / 2 in
  Ok (log_l - nparams / 2 * ln (INR (_N self))).

End Methods.

End ClusteredKDE.

(** ** class [OptimizedKDE] *)

Module OptimizedKDE.

Record t (pool : Type) : Type := mk { kde : option (ClusteredKDE.t pool) }.

Arguments mk {pool}.
Arguments kde {pool}.

Section Methods.
Context {pool : Type} {PO : PoolOps pool}.
Context {CO : ClusterOps}.

(** [bic > best_bic], where [best_bic] is a float or [None] for [-inf]. *)
Definition improves (bic : R) (best_bic : option R) : bool :=
  match best_bic with
  | None => true
  | Some b => if Rlt_dec b bic then true else false
  end.

(** The loop [while True] of [__init__]; [fuel] bounds the number of
    iterations, and [None] is the answer of a run that needs more. *)
Fixpoint search (fuel : nat) (data : matrix) (p : option pool) (k : nat)
         (best_kde : option (ClusteredKDE.t pool)) (best_bic : option R)
  : option (result (option (ClusteredKDE.t pool))) :=
  match fuel with
  | O => None
  | S fuel' =>
      match ClusteredKDE.__init__ data k p with
      | Raise e => Some (Raise e)
      | Ok kde =>
          match ClusteredKDE.bic kde with
          | Raise e => Some (Raise e)
          | Ok bic =>
              if improves bic best_bic
              then search fuel' data p (S k) (Some kde) (Some bic)
              else Some (Ok best_kde)
          end
      end
  end.

Definition __init__ (fuel : nat) (data : matrix) (p : option pool)
  : option (result (t pool)) :=
  match search fuel data p 1 None None with
  | None => None
  | Some (Raise e) => Some (Raise e)
  | Some (Ok best_kde) => Some (Ok (mk best_kde))
  end.

(** [self.kde(X)]; calling [None] is a [TypeError]. *)
Definition logpdf (self : t pool) (X : matrix) : result vec :=
  match kde self with
  | Some m => ClusteredKDE.logpdf m X
  | None => Raise TypeError
  end.
End Methods.

End OptimizedKDE.

(** ** Contracts of the collaborators *)

(** The pool's [map] answers as the built-in [map] does: the results of the
    calls, in the order of the arguments. *)
Class PoolLaws (pool : Type) {PO : PoolOps pool} : Prop :=
  { pool_map_spec :
      forall (p : pool) (A B : Type) (f : A -> B) (l : list A),
        pool_map p A B f l = map f l }.

(** [rand()] lies in [[0, 1)], [randint(low, high)] in [[low, high)]. *)
Class RandomLaws (rng : Type) {RO : RandomOps rng} : Prop :=
  { rand1_range : forall s, 0 <= fst (rand1 s) < 1;
    randint1_range :
      forall low high s, (low < high)%nat ->
                         (low <= fst (randint1 low high s) < high)%nat }.

(** [kmeans(obs, k)] gives at most [k] centroids, and every code [vq] gives
    is the index of a centroid of its code book. *)
Class ClusterLaws {CO : ClusterOps} : Prop :=
  { kmeans_size :
      forall obs k book, kmeans obs k = Ok book -> (length book <= k)%nat;
    vq_codes :
      forall obs book codes, vq obs book = Ok codes ->
                             Forall (fun c => (c < length book)%nat) codes }.

(** ** Pointwise readings of the array code *)

(** The value [KDE.logpdf] has for a point [x]. *)
Definition point_logpdf {pool : Type} (self : KDE.t pool) (x : vec) : result R :=
  v <- _evaluate_point_logpdf (x, KDE._data self, KDE._cho_factor self) ;;
  Ok (v - KDE._lognorm self).

(** The value [ClusteredKDE._whitened_logpdf] has for a whitened point [x]:
    the log-sum-exp, over the clusters, of log-weight plus the cluster's
    log-density at [x]. *)
Definition mixture_point_logpdf {pool : Type} (self : ClusteredKDE.t pool) (x : vec)
  : result R :=
  ls <- mapM (fun wk => v <- point_logpdf (snd wk) x ;; Ok (fst wk + v))
             (combine (ClusteredKDE._logweights self) (ClusteredKDE._kdes self)) ;;
  logsumexp ls.

(** The value of a computation that does not raise. *)
Definition value_of (r : result R) : R :=
  match r with
  | Ok v => v
  | Raise _ => 0
  end.

(** ** The candidates of the search *)

(** The score of the candidate with [k] clusters:
    [ClusteredKDE(data, k, pool).bic()]. *)
Definition bic_at {pool : Type} {PO : PoolOps pool} {CO : ClusterOps}
           (data : matrix) (p : option pool) (k : nat) : result R :=
  kde <- ClusteredKDE.__init__ data k p ;; ClusteredKDE.bic kde.

(** The scores rise strictly from candidate [k] to candidate [n]. *)
Definition rising {pool : Type} {PO : PoolOps pool} {CO : ClusterOps}
           (data : matrix) (p : option pool) (k n : nat) : Prop :=
  forall j, (k <= j < n)%nat ->
            exists bj bj', bic_at data p j = Ok bj
                           /\ bic_at data p (S j) = Ok bj'
                           /\ bj < bj'.

(** ** The Gaussian kernel, as the estimator is meant to use it *)

(** The normalisation of a sum of [Nc] Gaussian kernels of covariance [H]
    in [D] dimensions: [log(Nc * sqrt((2 pi)^D * det H))]. *)
Definition gaussian_lognorm (Nc D : nat) (H : matrix) : R :=
  ln (INR Nc * sqrt ((2 * PI) ^ D * det_rows D (rows H))).

Definition lower_triangular (A : matrix) : Prop :=
  forall i j, (i < j)%nat -> entry A i j = 0.

Definition upper_triangular (A : matrix) : Prop :=
  forall i j, (j < i)%nat -> entry A i j = 0.

(** ** Sample collaborators *)

(** The estimators of a process that was given no pool. *)
#[local] Instance no_pool : PoolOps unit :=
  { pool_map := fun _ A B f l => map f l }.

(** A pool of [n] workers that maps the first [n] arguments and the rest
    separately and joins the answers. *)
#[local] Instance split_pool : PoolOps nat :=
  { pool_map := fun n A B f l => map f (firstn n l) ++ map f (skipn n l) }.

(** A clustering that answers with [k] centroids at the origin and deals
    the observations to them in turn. *)
#[local] Instance round_robin : ClusterOps :=
  { kmeans := fun obs k => Ok (repeat (repeat 0 (ncols obs)) k);
    vq := fun obs book =>
            match book with
            | [] => Raise ValueError
            | _ => Ok (map (fun i => i mod length book)%nat (seq 0 (nrows obs)))
            end }.

(** A generator whose state counts the values drawn; every normal value
    is [0], every [rand()] is [1/2], every [randint(low, high)] is [low]. *)
#[local] Instance counting_rng : RandomOps nat :=
  { normal1 := fun s => (0, S s);
    randint1 := fun low high s => (low, S s);
    rand1 := fun s => (1 / 2, S s) }.

(** ** Sample inputs *)

(** Eight points in the plane whose two coordinates are correlated. *)
Definition skewed : matrix :=
  mkMatrix 2 [[3; 3]; [-2; -2]; [-1; -1]; [0; 3]; [0; -2]; [0; -1]; [0; 0]; [0; 0]].

(** What [KDE(skewed)] is: the kernel covariance is [[1, 1], [1, 2]]. *)
Definition skewed_kde : KDE.t unit :=
  KDE.mk 8 2 skewed None (np_mean skewed)
         (Array2 (mkMatrix 2 [[2; 2]; [2; 4]]))
         (mkMatrix 2 [[1; 1]; [0; 1]], false)
         (mkMatrix 2 [[1; 1]; [0; 1]])
         (ln (8 * sqrt (2 * PI ^ 2))).

(** Four points at the corners of a square; already whitened (mean 0 and
    standard deviation 1 in both columns). *)
Definition square : matrix :=
  mkMatrix 2 [[1; 1]; [1; -1]; [-1; 1]; [-1; -1]].

(** What [KDE(square)] is: the kernel covariance is [square_h] times the
    identity. *)
Definition square_h : R := 4 / 3 * Rpower 4 (- 2 / (2 + 4)).

Definition square_kde : KDE.t unit :=
  KDE.mk 4 2 square None [0; 0]
         (Array2 (mkMatrix 2 [[4 / 3; 0]; [0; 4 / 3]]))
         (mkMatrix 2 [[sqrt square_h; 0]; [0; sqrt square_h]], false)
         (mkMatrix 2 [[sqrt square_h; 0]; [0; sqrt square_h]])
         (ln (4 * sqrt (2 * PI ^ 2 * (square_h * square_h)))).

(** What [ClusteredKDE(square, 1)] is under the clustering [round_robin]. *)
Definition square_model : ClusteredKDE.t unit :=
  ClusteredKDE.mk 4 2 1 [0; 0] [1; 1] square [[0; 0]] [0; 0; 0; 0]%nat
                  [square_kde] [0].

(** The corners of the square, each twice; already whitened. *)
Definition corners : matrix :=
  mkMatrix 2 [[1; 1]; [1; 1]; [1; -1]; [1; -1]; [-1; 1]; [-1; 1]; [-1; -1]; [-1; -1]].

(** What [KDE(corners)] is: the kernel covariance is [4/7] times the
    identity. *)
Definition corners_kde : KDE.t unit :=
  KDE.mk 8 2 corners None [0; 0]
         (Array2 (mkMatrix 2 [[8 / 7; 0]; [0; 8 / 7]]))
         (mkMatrix 2 [[sqrt (4 / 7); 0]; [0; sqrt (4 / 7)]], false)
         (mkMatrix 2 [[sqrt (4 / 7); 0]; [0; sqrt (4 / 7)]])
         (ln (8 * sqrt (2 * PI ^ 2 * (4 / 7 * (4 / 7))))).

(** What [ClusteredKDE(corners, 1)] and [ClusteredKDE(corners, 2)] are
    under the clustering [round_robin]: with two clusters, each of them
    holds the four points of [square]. *)
Definition corners_model1 : ClusteredKDE.t unit :=
  ClusteredKDE.mk 8 2 1 [0; 0] [1; 1] corners [[0; 0]]
                  [0; 0; 0; 0; 0; 0; 0; 0]%nat [corners_kde] [0].

Definition corners_model2 : ClusteredKDE.t unit :=
  ClusteredKDE.mk 8 2 2 [0; 0] [1; 1] corners [[0; 0]; [0; 0]]
                  [0; 1; 0; 1; 0; 1; 0; 1]%nat [square_kde; square_kde]
                  [ln (4 / 8); ln (4 / 8)].

(** The log-density at [(x, y)] of [N] Gaussian kernels of covariance [h]
    times the identity, centred at [cs], under the constant the
    constructor stores in two dimensions. *)
Definition iso_value (cs : list (R * R)) (N : nat) (h x y : R) : R :=
  ln (rsum (map (fun c => exp (- (((fst c - x) * (fst c - x)
                                   + (snd c - y) * (snd c - y)) / h) / 2)) cs))
  - ln (INR N * sqrt (2 * PI ^ 2 * (h * h))).

Definition square_points : list (R * R) := [(1, 1); (1, -1); (-1, 1); (-1, -1)].

Definition corners_points : list (R * R) :=
  [(1, 1); (1, 1); (1, -1); (1, -1); (-1, 1); (-1, 1); (-1, -1); (-1, -1)].

(** * Properties *)

(** ** The error monad *)

Lemma bind_Ok {A B : Type} (c : result A) (k : A -> result B) (b : B) :
  bind c k = Ok b -> exists a, c = Ok a /\ k a = Ok b.
Proof.
  destruct c as [a|e]; simpl; intros H.
  - exists a. split; [reflexivity | exact H].
  - discriminate H.
Qed.

Ltac inv_bind H :=
  let a := fresh "a" in
  let Ha := fresh "Ha" in
  apply bind_Ok in H; destruct H as [a [Ha H]].

Lemma mapM_length {A B : Type} (f : A -> result B) (l : list A) (bs : list B) :
  mapM f l = Ok bs -> length bs = length l.
Proof.
  revert bs. induction l as [|a l IH]; simpl; intros bs H.
  - injection H as <-. reflexivity.
  - inv_bind H. inv_bind H. injection H as <-. simpl. f_equal. now apply IH.
Qed.

Lemma mapM_nth_error {A B : Type} (f : A -> result B) (l : list A) (bs : list B) :
  mapM f l = Ok bs ->
  forall i a, nth_error l i = Some a ->
              exists b, f a = Ok b /\ nth_error bs i = Some b.
Proof.
  revert bs. induction l as [|a0 l IH]; simpl; intros bs H i a Hi.
  - destruct i; discriminate Hi.
  - inv_bind H. inv_bind H. injection H as <-.
    destruct i as [|i]; simpl in *.
    + injection Hi as <-. eauto.
    + eapply IH; eauto.
Qed.

Lemma mapM_nth_error_inv {A B : Type} (f : A -> result B) (l : list A) (bs : list B) :
  mapM f l = Ok bs ->
  forall i b, nth_error bs i = Some b ->
              exists a, nth_error l i = Some a /\ f a = Ok b.
Proof.
  revert bs. induction l as [|a0 l IH]; simpl; intros bs H i b Hi.
  - injection H as <-. destruct i; discriminate Hi.
  - inv_bind H. inv_bind H. injection H as <-.
    destruct i as [|i]; simpl in *.
    + injection Hi as <-. eauto.
    + eapply IH; eauto.
Qed.

Lemma mapM_total {A B : Type} (f : A -> result B) (g : A -> B) (l : list A) :
  (forall a, In a l -> f a = Ok (g a)) -> mapM f l = Ok (map g l).
Proof.
  induction l as [|a l IH]; simpl; intros H.
  - reflexivity.
  - rewrite (H a (or_introl eq_refl)). simpl.
    rewrite IH by (intros; apply H; now right). reflexivity.
Qed.

Lemma mapM_id_map {A B : Type} (f : A -> result B) (l : list A) :
  mapM (fun r => r) (map f l) = mapM f l.
Proof.
  induction l as [|a l IH]; simpl; [reflexivity|].
  now rewrite IH.
Qed.

Lemma mapM_ext {A B : Type} (f g : A -> result B) (l : list A) :
  (forall a, In a l -> f a = g a) -> mapM f l = mapM g l.
Proof.
  induction l as [|a l IH]; simpl; intros H; [reflexivity|].
  rewrite (H a (or_introl eq_refl)).
  rewrite IH by (intros; apply H; now right). reflexivity.
Qed.

(** ** [KDE.logpdf]: the pool and the built-in [map] *)


Lemma mapM_map {A B C : Type} (g : A -> B) (f : B -> result C) (l : list A) :
  mapM f (map g l) = mapM (fun a => f (g a)) l.
Proof.
  induction l as [|a l IH]; simpl; [reflexivity|].
  now rewrite IH.
Qed.

Lemma mapM_bind_map {A B C : Type} (f : A -> result B) (g : B -> C) (l : list A) :
  (bs <- mapM f l ;; Ok (map g bs)) = mapM (fun a => b <- f a ;; Ok (g b)) l.
Proof.
  induction l as [|a l IH]; simpl; [reflexivity|].
  destruct (f a) as [b|e]; simpl; [|reflexivity].
  rewrite <- IH. destruct (mapM f l); reflexivity.
Qed.

Section PoolRefinement.
Context {pool : Type} {PO : PoolOps pool}.

(** Without a pool, [logpdf] checks the shape and then maps
    [point_logpdf] over the rows of the query. *)
Lemma KDE_logpdf_sequential (self : KDE.t pool) (X : matrix) :
  KDE._pool self = None ->
  KDE.logpdf self X =
  if (ncols X =? KDE._dim self)%nat then mapM (point_logpdf self) (rows X)
  else Raise AssertionError.
Proof.
  intros Hp. unfold KDE.logpdf. rewrite Hp.
  destruct (ncols X =? KDE._dim self)%nat; [|reflexivity].
  rewrite mapM_id_map, mapM_map, mapM_bind_map. reflexivity.
Qed.

Context {PL : PoolLaws pool}.

(** With a lawful pool it does the same. *)
Lemma KDE_logpdf_any_pool (self : KDE.t pool) (X : matrix) :
  KDE.logpdf self X =
  if (ncols X =? KDE._dim self)%nat then mapM (point_logpdf self) (rows X)
  else Raise AssertionError.
Proof.
  unfold KDE.logpdf.
  destruct (ncols X =? KDE._dim self)%nat; [|reflexivity].
  destruct (KDE._pool self) as [p|].
  - rewrite pool_map_spec, mapM_id_map, mapM_map, mapM_bind_map. reflexivity.
  - rewrite mapM_id_map, mapM_map, mapM_bind_map. reflexivity.
Qed.

End PoolRefinement.


(** ** Broadcasting *)

Lemma map2_length (f : R -> R -> R) (u v : vec) :
  length (map2 f u v) = Nat.min (length u) (length v).
Proof.
  revert v. induction u as [|x u IH]; intros [|y v]; simpl; auto.
Qed.

Lemma broadcast_shape_same (n : nat) : broadcast_shape n n = Ok n.
Proof. unfold broadcast_shape. now rewrite Nat.eqb_refl. Qed.

Lemma broadcast_row_same (f : R -> R -> R) (r v : vec) :
  length r = length v -> broadcast_row f r v = map2 f r v.
Proof.
  intros H. unfold broadcast_row. rewrite H, Nat.eqb_refl. reflexivity.
Qed.

Lemma broadcast_same (f : R -> R -> R) (A : matrix) (v : vec) :
  wf_matrix A -> ncols A = length v ->
  broadcast f A v = Ok (mkMatrix (ncols A) (map (fun r => map2 f r v) (rows A))).
Proof.
  intros Hwf Hn. unfold broadcast. rewrite <- Hn, broadcast_shape_same. simpl.
  f_equal. f_equal. apply map_ext_in. intros r Hr.
  apply broadcast_row_same.
  unfold wf_matrix in Hwf. rewrite Forall_forall in Hwf.
  rewrite (Hwf r Hr). exact Hn.
Qed.

Lemma wf_map_rows (g : vec -> vec) (A : matrix) :
  wf_matrix A ->
  (forall r, length r = ncols A -> length (g r) = ncols A) ->
  wf_matrix (mkMatrix (ncols A) (map g (rows A))).
Proof.
  unfold wf_matrix. simpl. intros Hwf Hg.
  rewrite Forall_forall in *. intros r' Hr'.
  apply in_map_iff in Hr'. destruct Hr' as [r [<- Hr]].
  apply Hg, Hwf, Hr.
Qed.

(** ** Whitening and coloring *)



Section Whitening.
Context {pool : Type} {PO : PoolOps pool}.
Context {rng : Type} {RO : RandomOps rng}.

Lemma whiten_with_same (mean std : vec) (X : matrix) :
  length std = length mean -> wf_matrix X -> ncols X = length mean ->
  ClusteredKDE.whiten_with mean std X =
  Ok (mkMatrix (ncols X)
        (map (fun r => map2 Rdiv (map2 Rminus r mean) std) (rows X))).
Proof.
  intros Hs Hwf Hn. unfold ClusteredKDE.whiten_with.
  rewrite broadcast_same by assumption. simpl.
  rewrite broadcast_same.
  - simpl. rewrite map_map. reflexivity.
  - apply (wf_map_rows (fun r => map2 Rminus r mean) X Hwf).
    intros r Hr. rewrite map2_length, Hr, Hn. apply Nat.min_id.
  - simpl. congruence.
Qed.



End Whitening.

(** ** What a successful construction establishes *)

Lemma cholesky_2d_shape (A U : matrix) (lower : bool) :
  cholesky_2d A lower = Ok U -> ncols U = ncols A /\ nrows A = ncols A.
Proof.
  unfold cholesky_2d. destruct (nrows A =? ncols A)%nat eqn:E; [|discriminate].
  intros H. inv_bind H. injection H as <-.
  apply Nat.eqb_eq in E. split; [|exact E].
  destruct lower; simpl; [|reflexivity].
  unfold nrows. simpl.
  clear -Ha. revert Ha.
  assert (G : forall n prev, chol_rows A n prev = Ok a ->
                             length a = (n + length prev)%nat).
  { induction n as [|n IH]; simpl; intros prev H.
    - injection H as <-. reflexivity.
    - inv_bind H. rewrite (IH _ H), length_app. simpl. lia. }
  intros H. rewrite (G _ _ H). simpl. lia.
Qed.

Lemma select_length (rs : list vec) (mask : list bool) :
  length rs = length mask -> length (select rs mask) = count_true mask.
Proof.
  revert mask. induction rs as [|r rs IH]; intros [|b mask] H; simpl in *;
    try discriminate; try reflexivity.
  injection H as H. unfold count_true in *. destruct b; simpl; rewrite IH; auto.
Qed.


Section KDEInit.
Context {pool : Type}.

(** What [_set_bandwidth] needs and sets: a 2-D covariance that
    [cholesky] factors. *)
Lemma set_bandwidth_inv (N dim : nat) (cov : ndarray)
      (bw : (matrix * bool) * matrix * R) :
  KDE._set_bandwidth N dim cov = Ok bw ->
  (0 < N)%nat
  /\ exists C L,
       let K := scale C (Rpower (INR N) (-2 / (INR dim + 4))) in
       cov = Array2 C
       /\ cholesky_2d K false = Ok L
       /\ bw = ((L, false), L,
                ln (INR N * sqrt ((2 * PI ^ dim) * det_rows (ncols C) (rows K)))).
Proof.
  unfold KDE._set_bandwidth, KDE.scott_factor. intros H.
  destruct (N =? 0)%nat eqn:EN; [discriminate H|].
  apply Nat.eqb_neq in EN. cbn [bind] in H.
  split; [lia|].
  destruct cov as [x|C]; [discriminate H|].
  exists C. cbn [nd_scale] in H.
  unfold la_cho_factor, la_cholesky, la_det in H. cbn [as_2d bind] in H.
  destruct (cholesky_2d _ false) as [L|e] eqn:EL; [|discriminate H].
  cbn [bind] in H.
  destruct (nrows _ =? ncols _)%nat; [|discriminate H].
  cbn [bind] in H. injection H as <-.
  exists L. repeat split.
Qed.

(** The constructor needs at least two points and a number of columns
    other than one: [numpy.cov] gives a 2-D array for nothing else. *)
Lemma np_cov_2d (data : matrix) (C : matrix) :
  np_cov data = Array2 C ->
  C = cov_matrix data /\ nrows data <> 1%nat /\ ncols data <> 1%nat.
Proof.
  unfold np_cov.
  destruct (nrows data =? 1)%nat eqn:E1; [discriminate|].
  destruct (ncols data =? 1)%nat eqn:E2; [discriminate|].
  intros H. injection H as <-.
  apply Nat.eqb_neq in E1. apply Nat.eqb_neq in E2. auto.
Qed.

(** The attributes of a [KDE] that [__init__] returned. *)
Lemma KDE_init_inv (data : matrix) (p : option pool) (self : KDE.t pool) :
  KDE.__init__ data p = Ok self ->
  KDE._N self = nrows data
  /\ KDE._dim self = ncols data
  /\ KDE._data self = data
  /\ KDE._pool self = p
  /\ KDE._cov self = Array2 (cov_matrix data)
  /\ (0 < nrows data)%nat
  /\ cholesky_2d (KDE.kernel_cov self) false = Ok (KDE._decomposed_kernel_cov self)
  /\ KDE._cho_factor self = (KDE._decomposed_kernel_cov self, false)
  /\ KDE._lognorm self =
     ln (INR (nrows data)
         * sqrt ((2 * PI ^ ncols data)
                 * det_rows (ncols data) (rows (KDE.kernel_cov self)))).
Proof.
  unfold KDE.__init__. intros H. inv_bind H.
  apply set_bandwidth_inv in Ha. destruct Ha as (Hpos & C & L & HC & HL & ->).
  injection H as <-. cbv zeta in HL.
  destruct (np_cov_2d _ _ HC) as (-> & _ & _).
  unfold KDE.kernel_cov. cbn [KDE._N KDE._dim KDE._data KDE._pool KDE._cov
    KDE._cho_factor KDE._decomposed_kernel_cov KDE._lognorm].
  repeat split; try assumption.
Qed.

(** [kernel_cov] is the array [_set_bandwidth] computed from [_cov]. *)
Lemma KDE_kernel_cov_stored (data : matrix) (p : option pool) (self : KDE.t pool) :
  KDE.__init__ data p = Ok self ->
  nd_scale (KDE._cov self)
           (Rpower (INR (KDE._N self)) (-2 / (INR (KDE._dim self) + 4)))
  = Array2 (KDE.kernel_cov self).
Proof.
  intros H. destruct (KDE_init_inv _ _ _ H) as (_ & _ & Hdata & _ & Hcov & _).
  rewrite Hcov. unfold KDE.kernel_cov. rewrite Hdata. reflexivity.
Qed.

Lemma KDE_init_dims (data : matrix) (p : option pool) (self : KDE.t pool) :
  KDE.__init__ data p = Ok self ->
  (2 <= nrows data)%nat /\ ncols data <> 1%nat.
Proof.
  unfold KDE.__init__. intros H. inv_bind H.
  apply set_bandwidth_inv in Ha. destruct Ha as (Hpos & C & L & HC & _).
  apply np_cov_2d in HC. destruct HC as (_ & H1 & H2). split; [lia|exact H2].
Qed.

Lemma KDE_init_shape (data : matrix) (p : option pool) (self : KDE.t pool) :
  KDE.__init__ data p = Ok self ->
  ncols (fst (KDE._cho_factor self)) = ncols data
  /\ ncols (KDE._decomposed_kernel_cov self) = ncols data.
Proof.
  intros H. destruct (KDE_init_inv _ _ _ H)
    as (HN & Hd & Hdata & Hp & Hcov & Hpos & Hchol & Hcf & Hln).
  apply cholesky_2d_shape in Hchol. destruct Hchol as [Hc _].
  rewrite Hcf. simpl. unfold KDE.kernel_cov in Hc. simpl in Hc.
  rewrite Hdata in Hc. auto.
Qed.
End KDEInit.

Lemma np_mean_length (A : matrix) : length (np_mean A) = ncols A.
Proof. unfold np_mean. now rewrite length_map, length_seq. Qed.

Lemma np_std_length (A : matrix) : length (np_std A) = ncols A.
Proof. unfold np_std. now rewrite length_map, length_seq. Qed.

Lemma whiten_with_shape (mean std : vec) (A W : matrix) :
  length mean = ncols A -> length std = ncols A ->
  ClusteredKDE.whiten_with mean std A = Ok W ->
  ncols W = ncols A /\ nrows W = nrows A.
Proof.
  intros Hm Hs H. unfold ClusteredKDE.whiten_with, broadcast in H.
  rewrite Hm, broadcast_shape_same in H. simpl in H.
  rewrite Hs, broadcast_shape_same in H. simpl in H.
  injection H as <-. unfold nrows. simpl. now rewrite !length_map.
Qed.

Lemma whiten_with_wf (mean std : vec) (A W : matrix) :
  length mean = ncols A -> length std = ncols A -> wf_matrix A ->
  ClusteredKDE.whiten_with mean std A = Ok W -> wf_matrix W.
Proof.
  intros Hm Hs Hwf H.
  rewrite whiten_with_same in H by congruence.
  injection H as <-.
  apply (wf_map_rows _ A Hwf). intros r Hr.
  rewrite !map2_length, Hr, Hm, Hs. now rewrite !Nat.min_id.
Qed.

Section ClusteredInit.
Context {pool : Type} {CO : ClusterOps}.

(** The attributes of a [ClusteredKDE] that [__init__] returned. *)
Lemma ClusteredKDE_init_inv (data : matrix) (k : nat) (p : option pool)
      (m : ClusteredKDE.t pool) :
  ClusteredKDE.__init__ data k p = Ok m ->
  ClusteredKDE._N m = nrows data
  /\ ClusteredKDE._dim m = ncols data
  /\ ClusteredKDE._k m = k
  /\ ClusteredKDE._mean m = np_mean data
  /\ ClusteredKDE._std m = np_std data
  /\ ClusteredKDE.whiten_with (np_mean data) (np_std data) data
     = Ok (ClusteredKDE._data m)
  /\ mapM (ClusteredKDE.cluster_kde (ClusteredKDE._data m) (ClusteredKDE._assignments m) p)
          (seq 0 k) = Ok (ClusteredKDE._kdes m)
  /\ ClusteredKDE._logweights m =
     map (fun c => ln (INR (count_true
                              (ClusteredKDE.eq_mask (ClusteredKDE._assignments m) c))
                       / INR (nrows data)))
         (seq 0 k)
  /\ exists book, kmeans (ClusteredKDE._data m) k = Ok book
                  /\ vq (ClusteredKDE._data m) book = Ok (ClusteredKDE._assignments m).
Proof.
  unfold ClusteredKDE.__init__. intros H.
  inv_bind H. inv_bind H. inv_bind H. inv_bind H. injection H as <-. simpl.
  repeat split; try reflexivity; try assumption.
  exists a0. split; assumption.
Qed.

Lemma ClusteredKDE_init_shape (data : matrix) (k : nat) (p : option pool)
      (m : ClusteredKDE.t pool) :
  ClusteredKDE.__init__ data k p = Ok m ->
  ncols (ClusteredKDE._data m) = ncols data
  /\ nrows (ClusteredKDE._data m) = nrows data
  /\ length (ClusteredKDE._kdes m) = k
  /\ length (ClusteredKDE._logweights m) = k
  /\ (wf_matrix data -> wf_matrix (ClusteredKDE._data m)).
Proof.
  intros H. destruct (ClusteredKDE_init_inv _ _ _ _ H)
    as (HN & Hd & Hk & Hmean & Hstd & Hw & Hkdes & Hlw & _).
  destruct (whiten_with_shape _ _ _ _ (np_mean_length data) (np_std_length data) Hw)
    as [Hc Hr].
  repeat split; try assumption.
  - rewrite (mapM_length _ _ _ Hkdes). apply length_seq.
  - rewrite Hlw, length_map. apply length_seq.
  - intros Hwf.
    exact (whiten_with_wf _ _ _ _ (np_mean_length data) (np_std_length data) Hwf Hw).
Qed.

(** The estimator of cluster [c]: built from the rows assigned to [c], of
    which there is at least one. *)
Lemma ClusteredKDE_init_cluster (data : matrix) (k : nat) (p : option pool)
      (m : ClusteredKDE.t pool) (c : nat) (kde : KDE.t pool) :
  ClusteredKDE.__init__ data k p = Ok m ->
  nth_error (ClusteredKDE._kdes m) c = Some kde ->
  let mask := ClusteredKDE.eq_mask (ClusteredKDE._assignments m) c in
  (c < k)%nat
  /\ length (ClusteredKDE._assignments m) = nrows data
  /\ KDE.__init__ (mkMatrix (ncols data) (select (rows (ClusteredKDE._data m)) mask)) p
     = Ok kde
  /\ KDE._N kde = count_true mask
  /\ KDE._dim kde = ncols data
  /\ (0 < count_true mask)%nat.
Proof.
  intros H Hc mask.
  destruct (ClusteredKDE_init_inv _ _ _ _ H)
    as (HN & Hd & Hk & Hmean & Hstd & Hw & Hkdes & Hlw & _).
  destruct (ClusteredKDE_init_shape _ _ _ _ H) as (Hcols & Hrows & Hlen & _).
  destruct (mapM_nth_error_inv _ _ _ Hkdes c kde Hc) as [c' [Hc' Hinit]].
  assert (Hck : (c < k)%nat).
  { assert (Hn : nth_error (seq 0 k) c <> None) by congruence.
    apply nth_error_Some in Hn. now rewrite length_seq in Hn. }
  rewrite nth_error_seq in Hc'.
  destruct (c <? k)%nat eqn:E; [|discriminate Hc']. injection Hc' as <-.
  unfold ClusteredKDE.cluster_kde, np_mask_rows in Hinit.
  destruct (nrows (ClusteredKDE._data m) =? _)%nat eqn:El; [|discriminate Hinit].
  apply Nat.eqb_eq in El. simpl in Hinit.
  unfold ClusteredKDE.eq_mask in El. rewrite length_map in El.
  rewrite Hcols in Hinit.
  destruct (KDE_init_inv _ _ _ Hinit) as (HkN & Hkd & _ & _ & _ & Hpos & _).
  unfold nrows in HkN, Hpos. simpl in HkN, Hpos.
  assert (Hsel : length (select (rows (ClusteredKDE._data m)) mask) = count_true mask).
  { apply select_length. unfold mask, ClusteredKDE.eq_mask.
    rewrite length_map. exact El. }
  fold mask in HkN, Hpos, Hinit.
  repeat split; try assumption; try lia; congruence.
Qed.
End ClusteredInit.

(** ** [logsumexp] *)

Lemma rsum_exp_pos (a : vec) : a <> [] -> 0 < rsum (map exp a).
Proof.
  destruct a as [|x a]; [congruence|]. intros _. simpl.
  assert (H : 0 <= rsum (map exp a)).
  { induction a as [|y a IH]; simpl; [lra|]. pose proof (exp_pos y). lra. }
  pose proof (exp_pos x). lra.
Qed.

Lemma rsum_exp_shift (a : vec) (m : R) :
  rsum (map (fun y => exp (y - m)) a) = exp (- m) * rsum (map exp a).
Proof.
  induction a as [|x a IH]; simpl.
  - ring.
  - rewrite IH. unfold Rminus. rewrite exp_plus. ring.
Qed.

(** The maximum that [logsumexp] takes out does not change its value. *)
Lemma logsumexp_spec (a : vec) :
  a <> [] -> logsumexp a = Ok (ln (rsum (map exp a))).
Proof.
  intros Ha. pose proof (rsum_exp_pos a Ha) as Hpos.
  destruct a as [|x a]; [congruence|].
  unfold logsumexp. f_equal.
  rewrite rsum_exp_shift, ln_mult, ln_exp by (try apply exp_pos; assumption).
  ring.
Qed.

(** ** Cluster weights *)

Lemma rsum_map_div (f : nat -> R) (d : R) (l : list nat) :
  rsum (map (fun c => f c / d) l) = rsum (map f l) / d.
Proof.
  induction l as [|c l IH]; simpl.
  - unfold Rdiv. ring.
  - rewrite IH. unfold Rdiv. ring.
Qed.

Lemma count_true_cons (b : bool) (mask : list bool) :
  count_true (b :: mask) = ((if b then 1 else 0) + count_true mask)%nat.
Proof. unfold count_true. destruct b; reflexivity. Qed.

Lemma rsum_indicator (x k : nat) :
  forall start, (start <= x < start + k)%nat ->
  rsum (map (fun c => INR (if (x =? c)%nat then 1 else 0)) (seq start k)) = 1.
Proof.
  induction k as [|k IH]; intros start Hx; [lia|].
  simpl. destruct (x =? start)%nat eqn:E.
  - apply Nat.eqb_eq in E. subst.
    assert (Hz : rsum (map (fun c => INR (if (start =? c)%nat then 1 else 0))
                           (seq (S start) k)) = 0).
    { clear. assert (G : forall n s, (start < s)%nat ->
        rsum (map (fun c => INR (if (start =? c)%nat then 1 else 0)) (seq s n)) = 0).
      { induction n as [|n IHn]; intros s Hs; simpl; [reflexivity|].
        destruct (start =? s)%nat eqn:E; [apply Nat.eqb_eq in E; lia|].
        rewrite IHn by lia. simpl. ring. }
      apply G. lia. }
    rewrite Hz. simpl. ring.
  - apply Nat.eqb_neq in E. rewrite IH by lia. simpl. ring.
Qed.

(** Codes below [k] split the observations among the clusters [0 .. k-1]. *)
Lemma cluster_sizes_sum (assignments : list nat) (k : nat) :
  Forall (fun c => (c < k)%nat) assignments ->
  rsum (map (fun c => INR (count_true (ClusteredKDE.eq_mask assignments c))) (seq 0 k))
  = INR (length assignments).
Proof.
  induction assignments as [|x a IH]; intros H.
  - simpl. induction (seq 0 k) as [|c l IHl]; simpl; [reflexivity|].
    rewrite IHl. unfold count_true. simpl. ring.
  - inversion H as [|? ? Hx Ha]; subst.
    change (length (x :: a)) with (S (length a)). rewrite S_INR, <- (IH Ha).
    rewrite <- (rsum_indicator x k 0%nat) by lia.
    clear. induction (seq 0 k) as [|c l IHl]; simpl; [ring|].
    simpl in IHl. rewrite IHl.
    rewrite count_true_cons, plus_INR. ring.
Qed.

Section Weights.
Context {pool : Type} {CO : ClusterOps} {CL : ClusterLaws}.

Lemma assignments_in_range (data : matrix) (k : nat) (p : option pool)
      (m : ClusteredKDE.t pool) :
  ClusteredKDE.__init__ data k p = Ok m ->
  Forall (fun c => (c < k)%nat) (ClusteredKDE._assignments m).
Proof.
  intros H. destruct (ClusteredKDE_init_inv _ _ _ _ H)
    as (_ & _ & _ & _ & _ & _ & _ & _ & book & Hkm & Hvq).
  pose proof (kmeans_size _ _ _ Hkm) as Hsz.
  pose proof (vq_codes _ _ _ Hvq) as Hcodes.
  rewrite Forall_forall in *. intros c Hc. specialize (Hcodes c Hc). lia.
Qed.

(** C5.  In a constructed model with at least one cluster, the log-weight
    of every cluster is [log(Nc/N)] for the number [Nc] of points its
    estimator holds, and the weights sum to one: the exponentials of the
    log-weights add up to 1 and their log-sum-exp is 0. *)
Theorem logweights_normalised (data : matrix) (k : nat) (p : option pool)
        (m : ClusteredKDE.t pool) :
  (1 <= k)%nat ->
  ClusteredKDE.__init__ data k p = Ok m ->
  length (ClusteredKDE._logweights m) = length (ClusteredKDE._kdes m)
  /\ (forall c kde,
         nth_error (ClusteredKDE._kdes m) c = Some kde ->
         KDE._N kde = nrows (KDE._data kde)
         /\ nth_error (ClusteredKDE._logweights m) c
            = Some (ln (INR (KDE._N kde) / INR (ClusteredKDE._N m))))
  /\ rsum (map exp (ClusteredKDE._logweights m)) = 1
  /\ logsumexp (ClusteredKDE._logweights m) = Ok 0.
Proof.
  intros Hk H.
  destruct (ClusteredKDE_init_inv _ _ _ _ H)
    as (HN & Hd & Hk' & Hmean & Hstd & Hw & Hkdes & Hlw & _).
  destruct (ClusteredKDE_init_shape _ _ _ _ H) as (Hcols & Hrows & Hlen & Hlenw & _).
  assert (Hkde0 : exists kde0, nth_error (ClusteredKDE._kdes m) 0 = Some kde0).
  { destruct (ClusteredKDE._kdes m) as [|kde0 l]; simpl in Hlen; [lia|].
    exists kde0. reflexivity. }
  destruct Hkde0 as [kde0 Hkde0].
  destruct (ClusteredKDE_init_cluster _ _ _ _ _ _ H Hkde0)
    as (_ & Hla & _ & _ & _ & Hpos0).
  assert (HNpos : 0 < INR (nrows data)).
  { apply lt_0_INR. rewrite <- Hla.
    assert (G : forall mask, (count_true mask <= length mask)%nat).
    { intros mask. unfold count_true. apply filter_length_le. }
    specialize (G (ClusteredKDE.eq_mask (ClusteredKDE._assignments m) 0)).
    unfold ClusteredKDE.eq_mask in G at 2. rewrite length_map in G. lia. }
  assert (Hexp : map exp (ClusteredKDE._logweights m)
                 = map (fun c => INR (count_true
                                        (ClusteredKDE.eq_mask
                                           (ClusteredKDE._assignments m) c))
                                 / INR (nrows data)) (seq 0 k)).
  { rewrite Hlw, map_map. apply map_ext_in. intros c Hc.
    apply in_seq in Hc.
    destruct (nth_error (ClusteredKDE._kdes m) c) as [kde|] eqn:Ec.
    - destruct (ClusteredKDE_init_cluster _ _ _ _ _ _ H Ec)
        as (_ & _ & _ & _ & _ & Hpos).
      apply exp_ln. apply Rdiv_lt_0_compat; [|exact HNpos].
      apply lt_0_INR. exact Hpos.
    - apply nth_error_None in Ec. lia. }
  assert (Hsum : rsum (map exp (ClusteredKDE._logweights m)) = 1).
  { rewrite Hexp, rsum_map_div, cluster_sizes_sum.
    - rewrite Hla. field. lra.
    - eapply assignments_in_range; eauto. }
  split; [congruence|]. split; [|split].
  - intros c kde Hc.
    destruct (ClusteredKDE_init_cluster _ _ _ _ _ _ H Hc)
      as (Hck & _ & Hinit & HkN & _ & _).
    destruct (KDE_init_inv _ _ _ Hinit) as (HkN' & _ & Hkdata & _).
    split; [rewrite HkN', Hkdata; reflexivity|].
    rewrite Hlw, HN, HkN.
    rewrite nth_error_map, nth_error_seq.
    apply Nat.ltb_lt in Hck. rewrite Hck. reflexivity.
  - exact Hsum.
  - rewrite logsumexp_spec.
    + rewrite Hsum, ln_1. reflexivity.
    + intros E. rewrite E in Hlenw. simpl in Hlenw. lia.
Qed.
End Weights.

(** ** Matrices of order two *)

Lemma chol_2x2 (a b c d : R) :
  0 < a -> 0 < d - (b / sqrt a) * (b / sqrt a) ->
  cholesky_2d (mkMatrix 2 [[a; b]; [c; d]]) false
  = Ok (mkMatrix 2 [[sqrt a; b / sqrt a];
                    [0; sqrt (d - (b / sqrt a) * (b / sqrt a))]]).
Proof.
  intros Ha Hd.
  unfold cholesky_2d, nrows. simpl. unfold chol_row, entry. simpl.
  replace (a - 0) with a by ring.
  destruct (Rlt_dec 0 a) as [_|n]; [|contradiction]. simpl.
  unfold chol_row, entry. simpl.
  replace ((b - 0) / sqrt a) with (b / sqrt a) by (unfold Rdiv; ring).
  replace (d - (b / sqrt a * (b / sqrt a) + 0))
    with (d - b / sqrt a * (b / sqrt a)) by ring.
  destruct (Rlt_dec 0 (d - b / sqrt a * (b / sqrt a))) as [_|n]; [|contradiction].
  reflexivity.
Qed.

Lemma det_2x2 (a b c d : R) :
  det_rows 2 [[a; b]; [c; d]] = a * d - b * c.
Proof. simpl. ring. Qed.

(** ** The estimator of the correlated sample *)

Lemma Rpower_8_third : Rpower 8 (- 2 / (2 + 4)) = 1 / 2.
Proof.
  unfold Rpower.
  replace 8 with (2 * (2 * 2)) by lra.
  rewrite !ln_mult by lra.
  replace (- 2 / (2 + 4) * (ln 2 + (ln 2 + ln 2))) with (- ln 2) by field.
  rewrite exp_Ropp, exp_ln by lra. lra.
Qed.

Lemma cov_matrix_skewed : cov_matrix skewed = mkMatrix 2 [[2; 2]; [2; 4]].
Proof.
  unfold cov_matrix, np_mean, skewed, nrows, column. simpl.
  f_equal. repeat f_equal; field.
Qed.

Lemma np_cov_skewed : np_cov skewed = Array2 (mkMatrix 2 [[2; 2]; [2; 4]]).
Proof. unfold np_cov. simpl. now rewrite cov_matrix_skewed. Qed.

Lemma sqrt_1_div : 1 / sqrt 1 = 1.
Proof. rewrite sqrt_1. lra. Qed.

(** The factor that [scipy.linalg.cholesky] gives for the kernel covariance
    of [skewed]. *)
Lemma cholesky_2d_skewed :
  cholesky_2d (mkMatrix 2 [[1; 1]; [1; 2]]) false = Ok (mkMatrix 2 [[1; 1]; [0; 1]]).
Proof.
  rewrite chol_2x2.
  - rewrite sqrt_1_div, sqrt_1.
    replace (2 - 1 * 1) with 1 by lra. rewrite sqrt_1. reflexivity.
  - lra.
  - rewrite sqrt_1_div. lra.
Qed.

Lemma KDE_init_skewed : KDE.__init__ skewed None = Ok skewed_kde.
Proof.
  unfold KDE.__init__, KDE._set_bandwidth, KDE.scott_factor.
  rewrite np_cov_skewed.
  change (nrows skewed) with 8%nat. change (ncols skewed) with 2%nat.
  replace (INR 8) with 8 by (simpl; lra).
  replace (INR 2) with 2 by (simpl; lra).
  rewrite Rpower_8_third. cbn [Nat.eqb bind nd_scale].
  assert (HH : scale (mkMatrix 2 [[2; 2]; [2; 4]]) (1 / 2)
               = mkMatrix 2 [[1; 1]; [1; 2]]).
  { unfold scale. simpl. f_equal. repeat f_equal; lra. }
  rewrite HH. unfold la_cho_factor, la_cholesky. cbn [as_2d bind].
  rewrite cholesky_2d_skewed. simpl.
  unfold la_det, nrows. simpl.
  unfold skewed_kde.
  do 5 f_equal. field.
Qed.

(** ** The normalisation constant *)

Lemma kernel_cov_skewed :
  KDE.kernel_cov skewed_kde = mkMatrix 2 [[1; 1]; [1; 2]].
Proof.
  unfold KDE.kernel_cov, skewed_kde. simpl KDE._data. simpl KDE._N. simpl KDE._dim.
  rewrite cov_matrix_skewed.
  replace (INR 8) with 8 by (simpl; lra).
  replace (INR 2) with 2 by (simpl; lra).
  rewrite Rpower_8_third. unfold scale. simpl. f_equal. repeat f_equal; lra.
Qed.

(** What [_set_bandwidth] stores: [2 * pi^D] stands where the Gaussian
    normalisation has [(2 pi)^D]. *)
Lemma KDE_lognorm_stored {pool : Type} (data : matrix) (p : option pool)
      (self : KDE.t pool) :
  KDE.__init__ data p = Ok self ->
  KDE._lognorm self =
  ln (INR (KDE._N self)
      * sqrt ((2 * PI ^ KDE._dim self)
              * det_rows (KDE._dim self) (rows (KDE.kernel_cov self)))).
Proof.
  intros H. destruct (KDE_init_inv _ _ _ H) as (HN & Hd & _ & _ & _ & _ & _ & _ & Hl).
  rewrite HN, Hd. exact Hl.
Qed.

(** In one dimension the two would agree, but no estimator is constructed
    there: [numpy.cov] gives a 0-d array for a single variable, which
    [scipy.linalg] refuses. *)
Lemma KDE_init_one_column {pool : Type} (data : matrix) (p : option pool) :
  ncols data = 1%nat -> exists e, KDE.__init__ data p = Raise e.
Proof.
  intros H1. destruct (KDE.__init__ data p) as [self|e] eqn:E; [|now exists e].
  destruct (KDE_init_dims _ _ _ E) as [_ Hne]. contradiction.
Qed.

(** C1, at the sample [skewed] (eight points in two dimensions, kernel
    covariance of determinant 1): the constant the constructor stores is
    [log(8 * sqrt(2 * pi^2))], which is not the Gaussian normalisation
    [log(8 * sqrt((2 pi)^2))]. *)
Theorem lognorm_skewed_not_gaussian :
  KDE.__init__ skewed None = Ok skewed_kde
  /\ det_rows 2 (rows (KDE.kernel_cov skewed_kde)) = 1
  /\ KDE._lognorm skewed_kde = ln (8 * sqrt (2 * PI ^ 2))
  /\ gaussian_lognorm 8 2 (KDE.kernel_cov skewed_kde) = ln (8 * sqrt ((2 * PI) ^ 2))
  /\ KDE._lognorm skewed_kde
     <> gaussian_lognorm (KDE._N skewed_kde) (KDE._dim skewed_kde)
                         (KDE.kernel_cov skewed_kde).
Proof.
  assert (Hdet : det_rows 2 (rows (KDE.kernel_cov skewed_kde)) = 1).
  { rewrite kernel_cov_skewed. simpl rows. rewrite det_2x2. lra. }
  assert (Hg : gaussian_lognorm 8 2 (KDE.kernel_cov skewed_kde)
               = ln (8 * sqrt ((2 * PI) ^ 2))).
  { unfold gaussian_lognorm. rewrite Hdet.
    replace (INR 8) with 8 by (simpl; lra). do 3 f_equal. ring. }
  split; [exact KDE_init_skewed|]. split; [exact Hdet|].
  split; [reflexivity|]. split; [exact Hg|].
  change (KDE._N skewed_kde) with 8%nat. change (KDE._dim skewed_kde) with 2%nat.
  rewrite Hg. change (KDE._lognorm skewed_kde) with (ln (8 * sqrt (2 * PI ^ 2))).
  pose proof PI_RGT_0 as Hpi.
  assert (Hp2 : 0 < PI ^ 2) by (simpl; nra).
  assert (Ha : 0 < sqrt (2 * PI ^ 2)) by (apply sqrt_lt_R0; lra).
  assert (Hb : 0 < sqrt ((2 * PI) ^ 2)) by (apply sqrt_lt_R0; simpl; nra).
  intros E. apply ln_inv in E; try lra.
  assert (E' : sqrt (2 * PI ^ 2) = sqrt ((2 * PI) ^ 2)) by lra.
  apply sqrt_inj in E'; simpl in *; nra.
Qed.

(** ** Drawing from one estimator *)

Lemma combine_map_fst {A B C : Type} (f : A -> B) (l : list A) (l' : list C) :
  combine (map f l) l' = map (fun ac => (f (fst ac), snd ac)) (combine l l').
Proof.
  revert l'. induction l as [|a l IH]; intros [|c l']; simpl; try reflexivity.
  now rewrite IH.
Qed.

Section Drawing.
Context {rng : Type} {RO : RandomOps rng}.

Lemma draw_list_length {A : Type} (g : rng -> A * rng) (n : nat) (s : rng) :
  length (fst (draw_list g n s)) = n.
Proof.
  revert s. induction n as [|n IH]; intros s; simpl; [reflexivity|].
  destruct (g s) as [x s1]. specialize (IH s1).
  destruct (draw_list g n s1) as [xs s2]. simpl in *. now rewrite IH.
Qed.

Lemma draw_list_Forall {A : Type} (P : A -> Prop) (g : rng -> A * rng) :
  (forall s, P (fst (g s))) ->
  forall n s, Forall P (fst (draw_list g n s)).
Proof.
  intros Hg. induction n as [|n IH]; intros s; simpl; [constructor|].
  pose proof (Hg s) as Hs. destruct (g s) as [x s1]. specialize (IH s1).
  destruct (draw_list g n s1) as [xs s2]. simpl in *. now constructor.
Qed.

Lemma random_normal_shape (n d : nat) (s : rng) :
  nrows (fst (random_normal n d s)) = n
  /\ ncols (fst (random_normal n d s)) = d
  /\ wf_matrix (fst (random_normal n d s)).
Proof.
  unfold random_normal.
  pose proof (draw_list_length (draw_list normal1 d) n s) as Hl.
  pose proof (draw_list_Forall (fun r : list R => length r = d) (draw_list normal1 d)
                (draw_list_length normal1 d) n s) as Hf.
  destruct (draw_list (draw_list normal1 d) n s) as [rs s'].
  simpl in *. repeat split; assumption.
Qed.

Context {pool : Type}.

(** A sample that [KDE.draw] returns is a stored centre plus the stored
    factor applied to a vector of standard-normal values. *)
Lemma KDE_draw_rows (self : KDE.t pool) (N : nat) (s : rng)
      (out : matrix) (s' : rng) :
  KDE.draw self N s = Ok (out, s') ->
  exists kernels centres,
    let X := fst (random_normal N (KDE._dim self) s) in
    random_randint 0 (KDE._N self) N (snd (random_normal N (KDE._dim self) s))
    = Ok (kernels, s')
    /\ KDE.take_rows (KDE._data self) kernels = Ok centres
    /\ length centres = N
    /\ ncols out = KDE._dim self
    /\ rows out =
       map (fun zc => map2 Rplus (mat_vec (KDE._decomposed_kernel_cov self) (fst zc))
                           (snd zc))
           (combine (rows X) centres).
Proof.
  unfold KDE.draw. intros H.
  destruct (random_normal N (KDE._dim self) s) as [X s1] eqn:EX.
  inv_bind H. destruct a as [kernels s2]. inv_bind H. injection H as <- <-.
  exists kernels, a. simpl. repeat split; try assumption.
  - rewrite (mapM_length _ _ _ Ha0).
    unfold random_randint in Ha. destruct (0 <? KDE._N self)%nat; [|discriminate Ha].
    injection Ha as Ha.
    pose proof (draw_list_length (randint1 0 (KDE._N self)) N s1) as Hl.
    rewrite Ha in Hl. exact Hl.
  - rewrite combine_map_fst, map_map. reflexivity.
Qed.
End Drawing.

(** ** The sampling factor *)

(** C2, at the sample [skewed].  The factor the constructor stores for
    drawing is the upper-triangular [[1, 1], [0, 1]]: it is not lower
    triangular, its transpose times itself is the kernel covariance
    [[1, 1], [1, 2]], and itself times its transpose, the covariance of
    the noise [draw] adds, is [[2, 1], [1, 1]]. *)
Theorem sampling_factor_skewed_not_lower :
  KDE.__init__ skewed None = Ok skewed_kde
  /\ KDE._decomposed_kernel_cov skewed_kde = mkMatrix 2 [[1; 1]; [0; 1]]
  /\ KDE.kernel_cov skewed_kde = mkMatrix 2 [[1; 1]; [1; 2]]
  /\ upper_triangular (KDE._decomposed_kernel_cov skewed_kde)
  /\ ~ lower_triangular (KDE._decomposed_kernel_cov skewed_kde)
  /\ mat_mul (transpose (KDE._decomposed_kernel_cov skewed_kde))
             (KDE._decomposed_kernel_cov skewed_kde)
     = KDE.kernel_cov skewed_kde
  /\ mat_mul (KDE._decomposed_kernel_cov skewed_kde)
             (transpose (KDE._decomposed_kernel_cov skewed_kde))
     = mkMatrix 2 [[2; 1]; [1; 1]]
  /\ mat_mul (KDE._decomposed_kernel_cov skewed_kde)
             (transpose (KDE._decomposed_kernel_cov skewed_kde))
     <> KDE.kernel_cov skewed_kde.
Proof.
  assert (HLLt : mat_mul (KDE._decomposed_kernel_cov skewed_kde)
                         (transpose (KDE._decomposed_kernel_cov skewed_kde))
                 = mkMatrix 2 [[2; 1]; [1; 1]]).
  { unfold mat_mul, transpose, column, nrows. simpl. f_equal. repeat f_equal; ring. }
  split; [exact KDE_init_skewed|]. split; [reflexivity|].
  split; [exact kernel_cov_skewed|]. split; [|split; [|split; [|split]]].
  - intros i j Hij. unfold entry. simpl.
    destruct i as [|[|i]]; [lia| |].
    + destruct j as [|j]; [reflexivity|lia].
    + destruct i, j; reflexivity.
  - intros Hl. specialize (Hl 0%nat 1%nat (Nat.lt_0_succ 0)).
    unfold entry in Hl. simpl in Hl. lra.
  - rewrite kernel_cov_skewed.
    unfold mat_mul, transpose, column, nrows. simpl. f_equal. repeat f_equal; ring.
  - exact HLLt.
  - rewrite HLLt, kernel_cov_skewed. intros E.
    injection E as E _. lra.
Qed.

(** ** The model of the square sample *)

Lemma square_h_pos : 0 < square_h.
Proof.
  unfold square_h, Rpower. pose proof (exp_pos (- 2 / (2 + 4) * ln 4)). lra.
Qed.

Lemma np_mean_square : np_mean square = [0; 0].
Proof.
  unfold np_mean, square, nrows, column. simpl. repeat f_equal; field.
Qed.

Lemma np_std_square : np_std square = [1; 1].
Proof.
  assert (Hs : forall x, x = 1 -> sqrt x = 1) by (intros x ->; apply sqrt_1).
  unfold np_std, square, nrows, column. simpl.
  repeat f_equal; apply Hs; field.
Qed.

Lemma np_cov_square : np_cov square = Array2 (mkMatrix 2 [[4 / 3; 0]; [0; 4 / 3]]).
Proof.
  unfold np_cov. change (nrows square) with 4%nat. change (ncols square) with 2%nat.
  cbn [Nat.eqb]. f_equal.
  unfold cov_matrix. rewrite np_mean_square.
  unfold square, nrows, column. simpl. f_equal. repeat f_equal; field.
Qed.

Lemma whiten_square : ClusteredKDE.whiten_with [0; 0] [1; 1] square = Ok square.
Proof.
  unfold ClusteredKDE.whiten_with, broadcast, broadcast_row, square. simpl.
  do 2 f_equal. repeat f_equal; field.
Qed.

Lemma KDE_init_square : KDE.__init__ square None = Ok square_kde.
Proof.
  unfold KDE.__init__, KDE._set_bandwidth, KDE.scott_factor.
  rewrite np_cov_square, np_mean_square.
  change (nrows square) with 4%nat. change (ncols square) with 2%nat.
  replace (INR 4) with 4 by (simpl; lra).
  replace (INR 2) with 2 by (simpl; lra).
  cbn [Nat.eqb bind nd_scale].
  assert (HH : scale (mkMatrix 2 [[4 / 3; 0]; [0; 4 / 3]]) (Rpower 4 (- 2 / (2 + 4)))
               = mkMatrix 2 [[square_h; 0]; [0; square_h]]).
  { unfold scale, square_h. simpl. f_equal. repeat f_equal; ring. }
  rewrite HH.
  pose proof square_h_pos as Hh.
  assert (Hz : 0 / sqrt square_h = 0) by (unfold Rdiv; ring).
  assert (HU : cholesky_2d (mkMatrix 2 [[square_h; 0]; [0; square_h]]) false
               = Ok (mkMatrix 2 [[sqrt square_h; 0]; [0; sqrt square_h]])).
  { rewrite chol_2x2; rewrite ?Hz; try lra.
    replace (square_h - 0 * 0) with square_h by ring. reflexivity. }
  unfold la_cho_factor, la_cholesky. cbn [as_2d bind]. rewrite HU. cbn [bind].
  unfold la_det, nrows. cbn [as_2d rows ncols length Nat.eqb bind].
  rewrite det_2x2. unfold square_kde.
  do 5 f_equal. ring.
Qed.

Lemma ClusteredKDE_init_square :
  ClusteredKDE.__init__ square 1 None = Ok square_model.
Proof.
  unfold ClusteredKDE.__init__.
  rewrite np_mean_square, np_std_square, whiten_square. cbn [bind].
  change (kmeans square 1) with (Ok [[0; 0]] : result (list vec)).
  cbn [bind].
  change (vq square [[0; 0]]) with (Ok [0; 0; 0; 0]%nat : result (list nat)).
  cbn [bind seq mapM].
  change (ClusteredKDE.cluster_kde square [0; 0; 0; 0]%nat (@None unit) 0)
    with (KDE.__init__ square (@None unit)).
  rewrite KDE_init_square. cbn [bind map].
  unfold square_model. do 2 f_equal.
  change (nrows square) with 4%nat.
  change (count_true (ClusteredKDE.eq_mask [0; 0; 0; 0]%nat 0)) with 4%nat.
  replace (INR 4 / INR 4) with 1 by (simpl; field).
  rewrite ln_1. reflexivity.
Qed.

(** ** Evaluation point by point *)

#[local] Instance no_pool_laws : PoolLaws unit.
Proof. constructor. reflexivity. Qed.

Lemma point_logpdf_ok {pool : Type} (sub : matrix) (p : option pool)
      (kde : KDE.t pool) (x : vec) :
  KDE.__init__ sub p = Ok kde -> length x = ncols sub ->
  exists v, point_logpdf kde x = Ok v.
Proof.
  intros H Hx.
  destruct (KDE_init_inv _ _ _ H) as (_ & _ & Hdata & _ & _ & Hpos & _ & Hcf & _).
  destruct (KDE_init_shape _ _ _ H) as [Hc _].
  unfold point_logpdf, _evaluate_point_logpdf.
  rewrite Hdata. unfold broadcast. rewrite Hx, broadcast_shape_same.
  cbn [bind ncols rows]. rewrite Hc, Nat.eqb_refl.
  unfold nrows in Hpos. destruct (rows sub) as [|r rs]; [simpl in Hpos; lia|].
  cbn [map combine logsumexp bind]. eexists. reflexivity.
Qed.

Lemma mapM_seq_nth {A B : Type} (F : A -> result B) (d : A) (xs : list A) :
  mapM (fun i => F (nth i xs d)) (seq 0 (length xs)) = mapM F xs.
Proof.
  induction xs as [|x xs IH]; [reflexivity|].
  cbn [length seq mapM nth]. rewrite <- seq_shift, mapM_map.
  cbn [nth]. rewrite IH. reflexivity.
Qed.

(** Taking the log-sum-exp down the columns of a table of values is taking
    it point by point. *)
Lemma logsumexp_axis0_table {A B : Type} (g : A -> B -> R) (wks : list A) (xs : list B) :
  wks <> [] ->
  logsumexp_axis0 (map (fun wk => map (g wk) xs) wks)
  = mapM (fun x => logsumexp (map (fun wk => g wk x) wks)) xs.
Proof.
  intros Hne. destruct wks as [|wk0 wks]; [congruence|].
  unfold logsumexp_axis0. cbn [map]. rewrite length_map.
  destruct xs as [|x0 xs]; [reflexivity|].
  remember (x0 :: xs) as l eqn:El. clear El.
  rewrite <- (mapM_seq_nth _ x0 l).
  apply mapM_ext. intros i Hi. apply in_seq in Hi.
  f_equal. unfold column. cbn [map]. f_equal.
  - rewrite (nth_indep _ 0 (g wk0 x0)) by (rewrite length_map; lia).
    apply (map_nth (g wk0)).
  - rewrite map_map. apply map_ext. intros wk.
    rewrite (nth_indep _ 0 (g wk x0)) by (rewrite length_map; lia).
    apply (map_nth (g wk)).
Qed.

Lemma logsumexp_nonempty (a : vec) : a <> [] -> logsumexp a = Ok (value_of (logsumexp a)).
Proof. destruct a; [congruence|reflexivity]. Qed.

Lemma In_combine_nth_error {A B : Type} (l : list A) (l' : list B) (a : A) (b : B) :
  In (a, b) (combine l l') -> exists i, nth_error l i = Some a /\ nth_error l' i = Some b.
Proof.
  revert l'. induction l as [|x l IH]; intros [|y l'] H; simpl in H; try contradiction.
  destruct H as [H|H].
  - injection H as <- <-. exists 0%nat. split; reflexivity.
  - destruct (IH _ H) as [i [H1 H2]]. exists (S i). split; assumption.
Qed.

Section Mixture.
Context {pool : Type} {PO : PoolOps pool} {PL : PoolLaws pool}.
Context {CO : ClusterOps}.

(** On a constructed model with at least one cluster, and a query with
    as many columns as the training data, the array code of
    [_whitened_logpdf] does not raise and gives, for every row, the value
    [mixture_point_logpdf]. *)
Lemma whitened_logpdf_pointwise (data : matrix) (k : nat) (p : option pool)
      (m : ClusteredKDE.t pool) (X : matrix) :
  (1 <= k)%nat ->
  ClusteredKDE.__init__ data k p = Ok m ->
  wf_matrix X -> ncols X = ncols data ->
  exists ls,
    ClusteredKDE._whitened_logpdf m X = Ok ls
    /\ mapM (mixture_point_logpdf m) (rows X) = Ok ls.
Proof.
  intros Hk H Hwf Hn.
  destruct (ClusteredKDE_init_shape _ _ _ _ H) as (_ & _ & Hlk & Hlw & _).
  set (wks := combine (ClusteredKDE._logweights m) (ClusteredKDE._kdes m)).
  set (f := fun (wk : R * KDE.t pool) (x : vec) =>
              v <- point_logpdf (snd wk) x ;; Ok (fst wk + v)).
  set (g := fun wk x => value_of (f wk x)).
  assert (Hne : wks <> []).
  { unfold wks. destruct (ClusteredKDE._logweights m), (ClusteredKDE._kdes m);
      simpl in *; try lia. discriminate. }
  assert (Hf : forall wk x, In wk wks -> In x (rows X) -> f wk x = Ok (g wk x)).
  { intros [w kde] x Hwk Hx. unfold g, f. cbn [fst snd].
    apply In_combine_nth_error in Hwk. destruct Hwk as [c [_ Hc]].
    destruct (ClusteredKDE_init_cluster _ _ _ _ _ _ H Hc) as (_ & _ & Hinit & _).
    assert (Hlen : length x = ncols data).
    { unfold wf_matrix in Hwf. rewrite Forall_forall in Hwf.
      rewrite (Hwf x Hx). exact Hn. }
    destruct (point_logpdf_ok _ _ _ x Hinit Hlen) as [v Hv].
    rewrite Hv. reflexivity. }
  assert (Hdim : forall wk, In wk wks -> KDE._dim (snd wk) = ncols data).
  { intros [w kde] Hwk. cbn [snd].
    apply In_combine_nth_error in Hwk. destruct Hwk as [c [_ Hc]].
    destruct (ClusteredKDE_init_cluster _ _ _ _ _ _ H Hc) as (_ & _ & _ & _ & Hd & _).
    exact Hd. }
  exists (map (fun x => value_of (logsumexp (map (fun wk => g wk x) wks))) (rows X)).
  assert (Hpoint : mapM (fun x => logsumexp (map (fun wk => g wk x) wks)) (rows X)
                   = Ok (map (fun x => value_of (logsumexp (map (fun wk => g wk x) wks)))
                             (rows X))).
  { apply mapM_total. intros x _. apply logsumexp_nonempty.
    destruct wks; [congruence|discriminate]. }
  split.
  - unfold ClusteredKDE._whitened_logpdf. fold wks.
    rewrite (mapM_total _ (fun wk => map (g wk) (rows X))).
    + cbn [bind]. rewrite logsumexp_axis0_table by exact Hne. exact Hpoint.
    + intros wk Hwk. rewrite KDE_logpdf_any_pool, (Hdim wk Hwk), Hn, Nat.eqb_refl.
      cbv iota. transitivity (mapM (f wk) (rows X)).
      * exact (mapM_bind_map (point_logpdf (snd wk)) (fun v => fst wk + v) (rows X)).
      * apply mapM_total. intros x Hx. apply (Hf wk x Hwk Hx).
  - etransitivity; [|exact Hpoint]. apply mapM_ext. intros x Hx.
    unfold mixture_point_logpdf. fold wks.
    rewrite (mapM_total _ (fun wk => g wk x)); [reflexivity|].
    intros wk Hwk. apply (Hf wk x Hwk Hx).
Qed.
End Mixture.

(** ** The information criterion *)

Lemma wf_square : wf_matrix square.
Proof. unfold wf_matrix, square. simpl. repeat constructor. Qed.

Section Bic.
Context {pool : Type} {PO : PoolOps pool} {PL : PoolLaws pool}.
Context {CO : ClusterOps}.

(** The score, read off the attributes of the model. *)
Lemma bic_pointwise (data : matrix) (k : nat) (p : option pool)
      (m : ClusteredKDE.t pool) :
  (1 <= k)%nat -> wf_matrix data ->
  ClusteredKDE.__init__ data k p = Ok m ->
  exists ls,
    mapM (mixture_point_logpdf m) (rows (ClusteredKDE._data m)) = Ok ls
    /\ ClusteredKDE.bic m
       = Ok (rsum ls
             - (INR (ClusteredKDE._k m) * INR (ClusteredKDE._dim m)
                + (INR (ClusteredKDE._k m) - 1)
                + INR (ClusteredKDE._k m) * INR (ClusteredKDE._dim m)
                  * (INR (ClusteredKDE._dim m) + 1) / 2) / 2
               * ln (INR (ClusteredKDE._N m))).
Proof.
  intros Hk Hwf H.
  destruct (ClusteredKDE_init_shape _ _ _ _ H) as (Hcols & _ & _ & _ & Hwf').
  destruct (whitened_logpdf_pointwise data k p m (ClusteredKDE._data m) Hk H
              (Hwf' Hwf) Hcols) as [ls [Hcode Hpoint]].
  exists ls. split; [exact Hpoint|].
  unfold ClusteredKDE.bic. rewrite Hcode. cbn [bind]. do 2 f_equal.
  rewrite plus_IZR, minus_IZR, !mult_IZR, plus_IZR, <- !INR_IZR_INZ.
  field.
Qed.

(** C6.  For a model constructed with [k >= 1] clusters from [N] points
    in [D] dimensions, [bic()] returns [L - (p/2) log N], where [L] is the
    sum over the model's own whitened training points of the mixture's
    log-density and [p = k D + (k - 1) + k D (D + 1)/2]. *)
Theorem bic_formula (data : matrix) (k : nat) (p : option pool)
        (m : ClusteredKDE.t pool) :
  (1 <= k)%nat -> wf_matrix data ->
  ClusteredKDE.__init__ data k p = Ok m ->
  exists ls,
    mapM (mixture_point_logpdf m) (rows (ClusteredKDE._data m)) = Ok ls
    /\ length ls = nrows data
    /\ ClusteredKDE.bic m
       = Ok (rsum ls
             - (INR k * INR (ncols data) + (INR k - 1)
                + INR k * INR (ncols data) * (INR (ncols data) + 1) / 2) / 2
               * ln (INR (nrows data))).
Proof.
  intros Hk Hwf H.
  destruct (ClusteredKDE_init_inv _ _ _ _ H) as (HN & Hd & Hk' & _).
  destruct (ClusteredKDE_init_shape _ _ _ _ H) as (_ & Hrows & _).
  destruct (bic_pointwise data k p m Hk Hwf H) as (ls & Hpoint & Hbic).
  exists ls. split; [exact Hpoint|]. split.
  - rewrite (mapM_length _ _ _ Hpoint). exact Hrows.
  - rewrite Hbic, HN, Hd, Hk'. reflexivity.
Qed.
End Bic.

(** C6 at the model of [square] with one cluster. *)
Lemma bic_formula_witness :
  exists ls,
    mapM (mixture_point_logpdf square_model) (rows (ClusteredKDE._data square_model))
    = Ok ls
    /\ length ls = nrows square
    /\ ClusteredKDE.bic square_model
       = Ok (rsum ls
             - (INR 1 * INR (ncols square) + (INR 1 - 1)
                + INR 1 * INR (ncols square) * (INR (ncols square) + 1) / 2) / 2
               * ln (INR (nrows square))).
Proof.
  apply (bic_formula (PL := no_pool_laws) (CO := round_robin) square 1 None square_model).
  - lia.
  - exact wf_square.
  - exact ClusteredKDE_init_square.
Defined.

(** C5 at the same model. *)
#[local] Instance round_robin_laws : ClusterLaws (CO := round_robin).
Proof.
  constructor.
  - intros obs k book H. simpl in H. injection H as <-. rewrite repeat_length. lia.
  - intros obs book codes H. unfold vq, round_robin in H.
    assert (Hb : length book <> 0%nat) by (destruct book; [discriminate|simpl; lia]).
    assert (Hc : codes = map (fun i => i mod length book)%nat (seq 0 (nrows obs)))
      by (destruct book; [discriminate|now injection H]).
    subst codes. rewrite Forall_forall. intros c Hc. apply in_map_iff in Hc.
    destruct Hc as [i [<- _]]. apply Nat.mod_upper_bound. exact Hb.
Qed.

Lemma logweights_normalised_witness :
  rsum (map exp (ClusteredKDE._logweights square_model)) = 1
  /\ logsumexp (ClusteredKDE._logweights square_model) = Ok 0.
Proof.
  apply (logweights_normalised (CL := round_robin_laws) square 1 None square_model).
  - lia.
  - exact ClusteredKDE_init_square.
Defined.

(** ** Queries of the wrong shape *)

Section ShapeChecks.
Context {pool : Type} {PO : PoolOps pool}.
Context {CO : ClusterOps}.

(** [KDE.logpdf] refuses a query whose column count is not [_dim]. *)
Lemma KDE_logpdf_shape_mismatch (self : KDE.t pool) (X : matrix) :
  ncols X <> KDE._dim self -> KDE.logpdf self X = Raise AssertionError.
Proof.
  intros H. unfold KDE.logpdf. apply Nat.eqb_neq in H. now rewrite H.
Qed.

Lemma mapM_head_raises {A B : Type} (f : A -> result B) (a : A) (l : list A)
      (e : failure) :
  f a = Raise e -> mapM f (a :: l) = Raise e.
Proof. intros H. simpl. now rewrite H. Qed.

(** [ClusteredKDE.logpdf] refuses a query whose column count is neither
    the dimension of the model nor one. *)
Lemma ClusteredKDE_logpdf_shape_mismatch (data : matrix) (k : nat) (p : option pool)
      (m : ClusteredKDE.t pool) (X : matrix) :
  (1 <= k)%nat ->
  ClusteredKDE.__init__ data k p = Ok m ->
  ncols X <> ncols data -> ncols X <> 1%nat ->
  exists e, ClusteredKDE.logpdf m X = Raise e.
Proof.
  intros Hk H Hn H1.
  destruct (ClusteredKDE_init_inv _ _ _ _ H) as (_ & _ & _ & Hmean & Hstd & _).
  destruct (ClusteredKDE_init_shape _ _ _ _ H) as (_ & _ & Hlk & Hlw & _).
  unfold ClusteredKDE.logpdf, ClusteredKDE._whiten, ClusteredKDE.whiten_with, broadcast.
  rewrite Hmean, Hstd, np_mean_length, np_std_length.
  unfold broadcast_shape at 1.
  apply Nat.eqb_neq in Hn. apply Nat.eqb_neq in H1. rewrite Hn, H1.
  destruct (ncols data =? 1)%nat eqn:ED; [|eexists; reflexivity].
  cbn [bind ncols]. unfold broadcast_shape. rewrite Hn, H1, ED. cbn [bind].
  unfold ClusteredKDE._whitened_logpdf.
  destruct (ClusteredKDE._kdes m) as [|kde kdes] eqn:Ek; [simpl in Hlk; lia|].
  destruct (ClusteredKDE._logweights m) as [|w ws]; [simpl in Hlw; lia|].
  assert (Hc : nth_error (ClusteredKDE._kdes m) 0 = Some kde) by now rewrite Ek.
  destruct (ClusteredKDE_init_cluster _ _ _ _ _ _ H Hc) as (_ & _ & _ & _ & Hd & _).
  exists AssertionError. cbn [combine].
  rewrite (mapM_head_raises _ _ _ AssertionError); [reflexivity|].
  cbn [snd fst]. rewrite KDE_logpdf_shape_mismatch; [reflexivity|].
  cbn [ncols]. rewrite Hd. now apply Nat.eqb_neq.
Qed.
End ShapeChecks.

(** C8, at the model of [square] (two dimensions) and a query with one
    column: [_whiten] stretches the column over both dimensions, the
    estimator's check passes, and [logpdf] answers as it does for the
    two-column query whose columns both repeat the given one. *)
Theorem logpdf_one_column_query_answered :
  ClusteredKDE.__init__ square 1 None = Ok square_model
  /\ ClusteredKDE._dim square_model = 2%nat
  /\ ncols (mkMatrix 1 [[5]]) = 1%nat
  /\ exists v,
       ClusteredKDE.logpdf square_model (mkMatrix 1 [[5]]) = Ok [v]
       /\ ClusteredKDE.logpdf square_model (mkMatrix 2 [[5; 5]]) = Ok [v].
Proof.
  split; [exact ClusteredKDE_init_square|]. split; [reflexivity|]. split; [reflexivity|].
  set (W := mkMatrix 2 [[(5 - 0) / 1; (5 - 0) / 1]]).
  assert (H1 : ClusteredKDE._whiten square_model (mkMatrix 1 [[5]]) = Ok W) by reflexivity.
  assert (H2 : ClusteredKDE._whiten square_model (mkMatrix 2 [[5; 5]]) = Ok W)
    by reflexivity.
  assert (Hwf : wf_matrix W) by (unfold wf_matrix, W; simpl; repeat constructor).
  destruct (whitened_logpdf_pointwise (PL := no_pool_laws) (CO := round_robin)
              square 1 None square_model W (le_n 1) ClusteredKDE_init_square Hwf eq_refl)
    as [ls [Hcode Hpoint]].
  pose proof (mapM_length _ _ _ Hpoint) as Hlen.
  destruct ls as [|v [|v' ls]]; try discriminate Hlen.
  exists v. unfold ClusteredKDE.logpdf. rewrite H1, H2. cbn [bind].
  split; exact Hcode.
Qed.


(** ** Drawing from the mixture *)









Section MixtureDrawing.
Context {pool : Type} {CO : ClusterOps}.
Context {rng : Type} {RO : RandomOps rng} {RL : RandomLaws rng}.


(** An estimator that holds at least one centre draws as many samples as
    it is asked for. *)
Lemma KDE_draw_ok (self : KDE.t pool) (n : nat) (s : rng) :
  (0 < KDE._N self)%nat -> KDE._N self = nrows (KDE._data self) ->
  exists out s', KDE.draw self n s = Ok (out, s')
                 /\ nrows out = n /\ ncols out = KDE._dim self.
Proof.
  intros Hpos HN. unfold KDE.draw.
  destruct (random_normal_shape n (KDE._dim self) s) as (HXn & _ & _).
  destruct (random_normal n (KDE._dim self) s) as [X s1]. cbn [fst] in HXn.
  unfold random_randint. apply Nat.ltb_lt in Hpos. rewrite Hpos. apply Nat.ltb_lt in Hpos.
  cbn [bind].
  pose proof (draw_list_length (randint1 0 (KDE._N self)) n s1) as Hkl.
  pose proof (draw_list_Forall (fun i => (0 <= i < KDE._N self)%nat)
                (randint1 0 (KDE._N self))
                (fun s0 => randint1_range 0 (KDE._N self) s0 Hpos) n s1) as Hkr.
  destruct (draw_list (randint1 0 (KDE._N self)) n s1) as [kernels s2].
  cbn [fst] in Hkl, Hkr.
  unfold KDE.take_rows.
  rewrite (mapM_total _ (fun i => nth i (rows (KDE._data self)) [])).
  - cbn [bind]. eexists. eexists. split; [reflexivity|]. split; [|reflexivity].
    unfold nrows. cbn [rows].
    rewrite length_map, length_combine, !length_map. unfold nrows in HXn. lia.
  - intros i Hi. rewrite Forall_forall in Hkr. specialize (Hkr i Hi).
    cbv beta. destruct (nth_error (rows (KDE._data self)) i) as [r|] eqn:E.
    + f_equal. symmetry. apply nth_error_nth. exact E.
    + apply nth_error_None in E. unfold nrows in HN. lia.
Qed.

End MixtureDrawing.

Section MixtureDraw.
Context {pool : Type} {CO : ClusterOps}.
Context {rng : Type} {RO : RandomOps rng} {RL : RandomLaws rng}.

End MixtureDraw.

#[local] Instance counting_rng_laws : RandomLaws nat.
Proof.
  constructor.
  - intros s. simpl. lra.
  - intros low high s H. simpl. lia.
Qed.


(** ** The search over the number of clusters *)

Section Search.
Context {pool : Type} {PO : PoolOps pool}.
Context {CO : ClusterOps}.

Lemma rising_le (data : matrix) (p : option pool) (k n : nat) (bk bn : R) :
  (k <= n)%nat -> rising data p k n ->
  bic_at data p k = Ok bk -> bic_at data p n = Ok bn -> bk <= bn.
Proof.
  intros Hkn. revert bn. induction Hkn as [|n Hkn IH]; intros bn Hr Hk Hn.
  - rewrite Hk in Hn. injection Hn as <-. lra.
  - destruct (Hr n) as (bj & bj' & Hj & Hj' & Hlt); [lia|].
    rewrite Hn in Hj'. injection Hj' as <-.
    assert (bk <= bj); [|lra].
    apply IH; auto. intros j Hj0. apply Hr. lia.
Qed.

(** The loop, from any state: it stops at the first candidate [s] that
    does not improve on the best score so far, and returns what was the
    best model when [s] was built. *)
Lemma search_stops (data : matrix) (p : option pool) (fuel : nat) :
  forall k best_kde best_bic r,
    OptimizedKDE.search fuel data p k best_kde best_bic = Some (Ok r) ->
    exists s bs,
      (k <= s)%nat /\ bic_at data p s = Ok bs
      /\ ((s = k /\ r = best_kde /\ OptimizedKDE.improves bs best_bic = false)
          \/ (exists n best bn bk,
                 s = S n /\ (k <= n)%nat
                 /\ r = Some best
                 /\ ClusteredKDE.__init__ data n p = Ok best
                 /\ ClusteredKDE.bic best = Ok bn
                 /\ ~ bn < bs
                 /\ bic_at data p k = Ok bk
                 /\ OptimizedKDE.improves bk best_bic = true
                 /\ rising data p k n)).
Proof.
  induction fuel as [|fuel IH]; intros k best_kde best_bic r H; [discriminate H|].
  cbn [OptimizedKDE.search] in H.
  destruct (ClusteredKDE.__init__ data k p) as [kde|e] eqn:Einit; [|discriminate H].
  destruct (ClusteredKDE.bic kde) as [b|e] eqn:Ebic; [|discriminate H].
  assert (Hat : bic_at data p k = Ok b).
  { unfold bic_at. rewrite Einit. exact Ebic. }
  destruct (OptimizedKDE.improves b best_bic) eqn:Eimp.
  - apply IH in H. destruct H as (s & bs & Hks & Hs & Hcase).
    exists s, bs. split; [lia|]. split; [exact Hs|]. right.
    destruct Hcase as [(-> & -> & Hno)|
                       (n & best & bn & bk & -> & Hkn & -> & Hn & Hbn & Hstop & Hk1 & Hi1 & Hr)].
    + exists k, kde, b, b. repeat split; try assumption; try lia.
      * unfold OptimizedKDE.improves in Hno.
        destruct (Rlt_dec b bs); [discriminate Hno|assumption].
      * intros j Hj. lia.
    + exists n, best, bn, b. repeat split; try assumption; try lia.
      intros j Hj. destruct (Nat.eq_dec j k) as [->|Hne].
      * exists b, bk. repeat split; try assumption.
        unfold OptimizedKDE.improves in Hi1.
        destruct (Rlt_dec b bk); [assumption|discriminate Hi1].
      * apply Hr. lia.
  - injection H as <-. exists k, b. split; [lia|]. split; [exact Hat|].
    left. repeat split. exact Eimp.
Qed.

(** C4.  When the search completes, the model it keeps is the candidate
    with some [n >= 1] clusters; the scores rise strictly from candidate 1
    to candidate [n], so the kept score is not below that of candidate 1;
    and candidate [n + 1], the first that does not score strictly higher,
    ends the search and is not kept. *)
Theorem search_keeps_best_before_stop (fuel : nat) (data : matrix) (p : option pool)
        (self : OptimizedKDE.t pool) :
  OptimizedKDE.__init__ fuel data p = Some (Ok self) ->
  exists n best b1 bn bs,
    (1 <= n)%nat
    /\ OptimizedKDE.kde self = Some best
    /\ ClusteredKDE.__init__ data n p = Ok best
    /\ ClusteredKDE.bic best = Ok bn
    /\ bic_at data p 1 = Ok b1
    /\ b1 <= bn
    /\ rising data p 1 n
    /\ bic_at data p (S n) = Ok bs
    /\ ~ bn < bs.
Proof.
  unfold OptimizedKDE.__init__. intros H.
  destruct (OptimizedKDE.search fuel data p 1 None None) as [[r|e]|] eqn:Es;
    try discriminate H.
  injection H as <-.
  apply search_stops in Es. destruct Es as (s & bs & Hs1 & Hs & Hcase).
  destruct Hcase as [(_ & _ & Hno)|
                     (n & best & bn & bk & -> & Hn1 & -> & Hn & Hbn & Hstop & Hk1 & _ & Hr)].
  - discriminate Hno.
  - exists n, best, bk, bn, bs. repeat split; try assumption.
    apply (rising_le data p 1 n); try assumption.
    unfold bic_at. rewrite Hn. exact Hbn.
Qed.
End Search.

(** ** The search ends *)

Lemma indicator_sum_le (x : nat) (l : list nat) :
  NoDup l ->
  (list_sum (map (fun c => if (x =? c)%nat then 1 else 0) l) <= 1)%nat.
Proof.
  induction 1 as [|c l Hc Hnd IH]; simpl; [lia|].
  destruct (x =? c)%nat eqn:E; [|exact IH].
  apply Nat.eqb_eq in E. subst c.
  assert (Hz : list_sum (map (fun c => if (x =? c)%nat then 1 else 0)%nat l) = 0%nat).
  { clear -Hc. induction l as [|y l IHl]; simpl; [reflexivity|].
    destruct (x =? y)%nat eqn:E.
    - apply Nat.eqb_eq in E. subst. exfalso. apply Hc. now left.
    - apply IHl. intros Hin. apply Hc. now right. }
  lia.
Qed.

(** The clusters [0 .. k-1] hold no more observations than there are. *)
Lemma cluster_sizes_le (assignments : list nat) (k : nat) :
  (list_sum (map (fun c => count_true (ClusteredKDE.eq_mask assignments c)) (seq 0 k))
   <= length assignments)%nat.
Proof.
  induction assignments as [|x a IH].
  - simpl. induction (seq 0 k) as [|c l IHl]; simpl; [lia|].
    unfold count_true at 1. simpl. exact IHl.
  - pose proof (indicator_sum_le x (seq 0 k) (seq_NoDup k 0)) as Hind.
    assert (Hsplit : forall l,
      list_sum (map (fun c => count_true (ClusteredKDE.eq_mask (x :: a) c)) l)
      = (list_sum (map (fun c => if (x =? c)%nat then 1 else 0) l)
         + list_sum (map (fun c => count_true (ClusteredKDE.eq_mask a c)) l))%nat).
    { unfold list_sum. induction l as [|c l IHl]; [reflexivity|]. cbn [map fold_right].
      rewrite IHl.
      change (ClusteredKDE.eq_mask (x :: a) c)
        with ((x =? c)%nat :: ClusteredKDE.eq_mask a c).
      rewrite count_true_cons. lia. }
    rewrite Hsplit. simpl length. lia.
Qed.

Lemma list_sum_ge (f : nat -> nat) (l : list nat) :
  (forall c, In c l -> (1 <= f c)%nat) -> (length l <= list_sum (map f l))%nat.
Proof.
  induction l as [|c l IH]; intros H; simpl; [lia|].
  pose proof (H c (or_introl eq_refl)).
  assert (length l <= list_sum (map f l))%nat by (apply IH; intros; apply H; now right).
  lia.
Qed.

Section Termination.
Context {pool : Type} {PO : PoolOps pool}.
Context {CO : ClusterOps}.

(** A model cannot be constructed with more clusters than points: every
    cluster needs a point of its own. *)
Lemma ClusteredKDE_init_k_le_N (data : matrix) (k : nat) (p : option pool)
      (m : ClusteredKDE.t pool) :
  ClusteredKDE.__init__ data k p = Ok m -> (k <= nrows data)%nat.
Proof.
  intros H.
  destruct (ClusteredKDE_init_shape _ _ _ _ H) as (_ & _ & Hlk & _).
  destruct k as [|k]; [lia|].
  assert (Hsizes : forall c, In c (seq 0 (S k)) ->
            (1 <= count_true (ClusteredKDE.eq_mask (ClusteredKDE._assignments m) c))%nat
            /\ length (ClusteredKDE._assignments m) = nrows data).
  { intros c Hc. apply in_seq in Hc.
    destruct (nth_error (ClusteredKDE._kdes m) c) as [kde|] eqn:E;
      [|apply nth_error_None in E; lia].
    destruct (ClusteredKDE_init_cluster _ _ _ _ _ _ H E) as (_ & Hla & _ & _ & _ & Hpos).
    split; [lia|exact Hla]. }
  destruct (Hsizes 0%nat) as [_ Hla]; [apply in_seq; lia|].
  pose proof (list_sum_ge
                (fun c => count_true (ClusteredKDE.eq_mask (ClusteredKDE._assignments m) c))
                (seq 0 (S k)) (fun c Hc => proj1 (Hsizes c Hc))) as Hge.
  pose proof (cluster_sizes_le (ClusteredKDE._assignments m) (S k)) as Hle.
  rewrite length_seq in Hge. lia.
Qed.

(** With one unit of fuel per point and one more, the loop returns: a
    candidate with more clusters than points cannot be built. *)
Lemma search_returns (data : matrix) (p : option pool) (fuel : nat) :
  forall k best_kde best_bic,
    (nrows data + 1 <= k + fuel)%nat ->
    exists r, OptimizedKDE.search (S fuel) data p k best_kde best_bic = Some r.
Proof.
  induction fuel as [|fuel IH]; intros k best_kde best_bic Hk;
    cbn [OptimizedKDE.search];
    destruct (ClusteredKDE.__init__ data k p) as [kde|e] eqn:Einit;
    try (eexists; reflexivity).
  - apply ClusteredKDE_init_k_le_N in Einit. lia.
  - destruct (ClusteredKDE.bic kde) as [b|e]; [|eexists; reflexivity].
    destruct (OptimizedKDE.improves b best_bic); [|eexists; reflexivity].
    apply IH. lia.
Qed.

(** [OptimizedKDE(data, pool)] returns or raises: the loop runs at most
    [N + 1] times on [N] points. *)
Lemma OptimizedKDE_init_returns (data : matrix) (p : option pool) :
  exists r, OptimizedKDE.__init__ (S (nrows data)) data p = Some r.
Proof.
  unfold OptimizedKDE.__init__.
  destruct (search_returns data p (nrows data) 1 None None) as [r Hr]; [lia|].
  rewrite Hr. destruct r; eexists; reflexivity.
Qed.
End Termination.

(** ** A search that completes: the corners of a square, twice *)

Lemma np_mean_corners : np_mean corners = [0; 0].
Proof.
  unfold np_mean, corners, nrows, column. simpl. repeat f_equal; field.
Qed.

Lemma np_std_corners : np_std corners = [1; 1].
Proof.
  assert (Hs : forall x, x = 1 -> sqrt x = 1) by (intros x ->; apply sqrt_1).
  unfold np_std, corners, nrows, column. simpl.
  repeat f_equal; apply Hs; field.
Qed.

Lemma whiten_corners : ClusteredKDE.whiten_with [0; 0] [1; 1] corners = Ok corners.
Proof.
  unfold ClusteredKDE.whiten_with, broadcast, broadcast_row, corners. simpl.
  do 2 f_equal. repeat f_equal; field.
Qed.

Lemma np_cov_corners : np_cov corners = Array2 (mkMatrix 2 [[8 / 7; 0]; [0; 8 / 7]]).
Proof.
  unfold np_cov. change (nrows corners) with 8%nat. change (ncols corners) with 2%nat.
  cbn [Nat.eqb]. f_equal.
  unfold cov_matrix. rewrite np_mean_corners.
  unfold corners, nrows, column. simpl. f_equal. repeat f_equal; field.
Qed.

Lemma KDE_init_corners : KDE.__init__ corners None = Ok corners_kde.
Proof.
  unfold KDE.__init__, KDE._set_bandwidth, KDE.scott_factor.
  rewrite np_cov_corners, np_mean_corners.
  change (nrows corners) with 8%nat. change (ncols corners) with 2%nat.
  replace (INR 8) with 8 by (simpl; lra).
  replace (INR 2) with 2 by (simpl; lra).
  rewrite Rpower_8_third. cbn [Nat.eqb bind nd_scale].
  assert (HH : scale (mkMatrix 2 [[8 / 7; 0]; [0; 8 / 7]]) (1 / 2)
               = mkMatrix 2 [[4 / 7; 0]; [0; 4 / 7]]).
  { unfold scale. simpl.
    replace (8 / 7 * (1 / 2)) with (4 / 7) by field.
    replace (0 * (1 / 2)) with 0 by ring. reflexivity. }
  rewrite HH.
  assert (Hz : 0 / sqrt (4 / 7) = 0) by apply Rmult_0_l.
  assert (HU : cholesky_2d (mkMatrix 2 [[4 / 7; 0]; [0; 4 / 7]]) false
               = Ok (mkMatrix 2 [[sqrt (4 / 7); 0]; [0; sqrt (4 / 7)]])).
  { rewrite chol_2x2; rewrite ?Hz; try lra.
    replace (4 / 7 - 0 * 0) with (4 / 7) by ring. reflexivity. }
  unfold la_cho_factor, la_cholesky. cbn [as_2d bind]. rewrite HU. cbn [bind].
  unfold la_det, nrows. cbn [as_2d rows ncols length Nat.eqb bind].
  rewrite det_2x2. unfold corners_kde.
  do 5 f_equal. ring.
Qed.

Lemma ClusteredKDE_init_corners1 :
  ClusteredKDE.__init__ corners 1 None = Ok corners_model1.
Proof.
  unfold ClusteredKDE.__init__.
  rewrite np_mean_corners, np_std_corners, whiten_corners. cbn [bind].
  change (kmeans corners 1) with (Ok [[0; 0]] : result (list vec)).
  cbn [bind].
  change (vq corners [[0; 0]])
    with (Ok [0; 0; 0; 0; 0; 0; 0; 0]%nat : result (list nat)).
  cbn [bind seq mapM].
  change (ClusteredKDE.cluster_kde corners [0; 0; 0; 0; 0; 0; 0; 0]%nat (@None unit) 0)
    with (KDE.__init__ corners (@None unit)).
  rewrite KDE_init_corners. cbn [bind map].
  unfold corners_model1. do 2 f_equal.
  change (nrows corners) with 8%nat.
  change (count_true (ClusteredKDE.eq_mask [0; 0; 0; 0; 0; 0; 0; 0]%nat 0)) with 8%nat.
  replace (INR 8 / INR 8) with 1 by (simpl; field).
  rewrite ln_1. reflexivity.
Qed.

Lemma ClusteredKDE_init_corners2 :
  ClusteredKDE.__init__ corners 2 None = Ok corners_model2.
Proof.
  unfold ClusteredKDE.__init__.
  rewrite np_mean_corners, np_std_corners, whiten_corners. cbn [bind].
  change (kmeans corners 2) with (Ok [[0; 0]; [0; 0]] : result (list vec)).
  cbn [bind].
  change (vq corners [[0; 0]; [0; 0]])
    with (Ok [0; 1; 0; 1; 0; 1; 0; 1]%nat : result (list nat)).
  cbn [bind seq mapM].
  change (ClusteredKDE.cluster_kde corners [0; 1; 0; 1; 0; 1; 0; 1]%nat (@None unit) 0)
    with (KDE.__init__ square (@None unit)).
  change (ClusteredKDE.cluster_kde corners [0; 1; 0; 1; 0; 1; 0; 1]%nat (@None unit) 1)
    with (KDE.__init__ square (@None unit)).
  rewrite KDE_init_square. cbn [bind map].
  unfold corners_model2. do 2 f_equal.
  change (nrows corners) with 8%nat.
  change (count_true (ClusteredKDE.eq_mask [0; 1; 0; 1; 0; 1; 0; 1]%nat 0)) with 4%nat.
  change (count_true (ClusteredKDE.eq_mask [0; 1; 0; 1; 0; 1; 0; 1]%nat 1)) with 4%nat.
  replace (INR 4 / INR 8) with (4 / 8) by (simpl; field).
  reflexivity.
Qed.

Lemma combine_map_both {A B C : Type} (f : A -> B) (g : A -> C) (l : list A) :
  combine (map f l) (map g l) = map (fun a => (f a, g a)) l.
Proof. induction l as [|a l IH]; simpl; [reflexivity|]. now rewrite IH. Qed.

(** The log-density of an estimator in the plane whose stored factor is
    [sqrt h] times the identity. *)
Lemma point_logpdf_iso (self : KDE.t unit) (cs : list (R * R)) (h x y : R) :
  KDE._data self = mkMatrix 2 (map (fun c => [fst c; snd c]) cs) ->
  KDE._cho_factor self = (mkMatrix 2 [[sqrt h; 0]; [0; sqrt h]], false) ->
  KDE._lognorm self = ln (INR (length cs) * sqrt (2 * PI ^ 2 * (h * h))) ->
  cs <> [] -> 0 < h ->
  point_logpdf self [x; y] = Ok (iso_value cs (length cs) h x y).
Proof.
  intros Hdata Hcf Hln Hne Hh.
  assert (Hu : sqrt h <> 0) by (apply Rgt_not_eq, sqrt_lt_R0, Hh).
  unfold point_logpdf, _evaluate_point_logpdf. rewrite Hdata, Hcf, Hln.
  unfold broadcast. cbn [ncols length rows]. rewrite broadcast_shape_same.
  cbn [bind ncols rows fst Nat.eqb].
  rewrite !map_map, combine_map_both, !map_map.
  rewrite (map_ext _ (fun c => - (((fst c - x) * (fst c - x)
                                   + (snd c - y) * (snd c - y)) / h) / 2)).
  - rewrite logsumexp_spec.
    + cbn [bind]. unfold iso_value. rewrite !map_map. reflexivity.
    + destruct cs; [congruence|discriminate].
  - intros c. unfold la_cho_solve, broadcast_row. simpl.
    unfold entry. simpl.
    set (s := sqrt h) in *.
    replace h with (s * s) by (apply sqrt_sqrt; lra). field. exact Hu.
Qed.

Lemma mixture_corners1 (x y : R) :
  mixture_point_logpdf corners_model1 [x; y]
  = Ok (iso_value corners_points 8 (4 / 7) x y).
Proof.
  unfold mixture_point_logpdf, corners_model1.
  cbn [ClusteredKDE._logweights ClusteredKDE._kdes combine mapM fst snd].
  rewrite (point_logpdf_iso corners_kde corners_points (4 / 7) x y);
    [ | reflexivity | reflexivity
      | cbn [KDE._lognorm corners_kde corners_points length];
        replace (INR 8) with 8 by (simpl; lra); reflexivity
      | discriminate | lra ].
  change (length corners_points) with 8%nat. cbn [bind]. rewrite logsumexp_spec by discriminate.
  f_equal. cbn [map rsum fold_right].
  replace (exp (0 + iso_value corners_points 8 (4 / 7) x y) + 0)
    with (exp (iso_value corners_points 8 (4 / 7) x y))
    by (rewrite Rplus_0_l; ring).
  apply ln_exp.
Qed.

Lemma mixture_corners2 (x y : R) :
  mixture_point_logpdf corners_model2 [x; y]
  = Ok (iso_value square_points 4 square_h x y).
Proof.
  unfold mixture_point_logpdf, corners_model2.
  cbn [ClusteredKDE._logweights ClusteredKDE._kdes combine mapM fst snd].
  rewrite (point_logpdf_iso square_kde square_points square_h x y);
    [ | reflexivity | reflexivity
      | cbn [KDE._lognorm square_kde square_points length];
        replace (INR 4) with 4 by (simpl; lra); reflexivity
      | discriminate | apply square_h_pos ].
  change (length square_points) with 4%nat. cbn [bind]. rewrite logsumexp_spec by discriminate.
  f_equal. cbn [map rsum fold_right].
  rewrite exp_plus, exp_ln by lra.
  replace (4 / 8 * exp (iso_value square_points 4 square_h x y)
           + (4 / 8 * exp (iso_value square_points 4 square_h x y) + 0))
    with (exp (iso_value square_points 4 square_h x y)) by field.
  apply ln_exp.
Qed.

Lemma wf_corners : wf_matrix corners.
Proof. unfold wf_matrix, corners. simpl. repeat constructor. Qed.

Lemma bic_corners1 :
  ClusteredKDE.bic corners_model1
  = Ok (2 * iso_value corners_points 8 (4 / 7) 1 1
        + 2 * iso_value corners_points 8 (4 / 7) 1 (-1)
        + 2 * iso_value corners_points 8 (4 / 7) (-1) 1
        + 2 * iso_value corners_points 8 (4 / 7) (-1) (-1)
        - 5 / 2 * ln 8).
Proof.
  destruct (bic_pointwise (PL := no_pool_laws) (CO := round_robin)
              corners 1 None corners_model1 (le_n 1) wf_corners
              ClusteredKDE_init_corners1) as (ls & Hls & Hbic).
  rewrite Hbic. clear Hbic.
  change (rows (ClusteredKDE._data corners_model1)) with (rows corners) in Hls.
  unfold corners in Hls.
  cbn [mapM rows] in Hls. rewrite !mixture_corners1 in Hls. cbn [bind] in Hls.
  injection Hls as <-. f_equal.
  cbn [ClusteredKDE._k ClusteredKDE._dim ClusteredKDE._N corners_model1].
  replace (INR 8) with 8 by (simpl; lra). replace (INR 1) with 1 by (simpl; lra).
  replace (INR 2) with 2 by (simpl; lra).
  cbn [rsum fold_right]. field.
Qed.

Lemma bic_corners2 :
  ClusteredKDE.bic corners_model2
  = Ok (2 * iso_value square_points 4 square_h 1 1
        + 2 * iso_value square_points 4 square_h 1 (-1)
        + 2 * iso_value square_points 4 square_h (-1) 1
        + 2 * iso_value square_points 4 square_h (-1) (-1)
        - 11 / 2 * ln 8).
Proof.
  assert (H12 : (1 <= 2)%nat) by lia.
  destruct (bic_pointwise (PL := no_pool_laws) (CO := round_robin)
              corners 2 None corners_model2 H12 wf_corners
              ClusteredKDE_init_corners2) as (ls & Hls & Hbic).
  rewrite Hbic. clear Hbic.
  change (rows (ClusteredKDE._data corners_model2)) with (rows corners) in Hls.
  unfold corners in Hls.
  cbn [mapM rows] in Hls. rewrite !mixture_corners2 in Hls. cbn [bind] in Hls.
  injection Hls as <-. f_equal.
  cbn [ClusteredKDE._k ClusteredKDE._dim ClusteredKDE._N corners_model2].
  replace (INR 8) with 8 by (simpl; lra). replace (INR 2) with 2 by (simpl; lra).
  cbn [rsum fold_right]. field.
Qed.

Lemma ln_monotone (x y : R) : 0 < x -> x <= y -> ln x <= ln y.
Proof.
  intros Hx [Hlt|Heq].
  - left. now apply ln_increasing.
  - rewrite Heq. lra.
Qed.

Lemma ln_of_sqrt (x : R) : 0 < x -> ln (sqrt x) = ln x / 2.
Proof.
  intros Hx. pose proof (sqrt_lt_R0 x Hx) as Hs.
  rewrite <- (sqrt_sqrt x) at 2 by lra.
  rewrite ln_mult by assumption. field.
Qed.

Lemma gauss_term_at_centre (h a b : R) :
  0 < h -> exp (- (((a - a) * (a - a) + (b - b) * (b - b)) / h) / 2) = 1.
Proof.
  intros Hh.
  replace (- (((a - a) * (a - a) + (b - b) * (b - b)) / h) / 2) with 0 by (field; lra).
  apply exp_0.
Qed.

(** A kernel of variance at most 2 is at most [1/2] at distance 2. *)
Lemma gauss_term_half (h q : R) :
  0 < h -> h <= 2 -> 4 <= q -> exp (- (q / h) / 2) <= 1 / 2.
Proof.
  intros Hh Hh2 Hq.
  assert (Hqh : 2 <= q / h).
  { apply Rmult_le_reg_r with h; [exact Hh|].
    replace (q / h * h) with q by (field; lra). lra. }
  assert (He : exp (- (q / h) / 2) <= exp (Ropp 1)).
  { destruct (Req_dec (- (q / h) / 2) (Ropp 1)) as [->|Hne]; [lra|].
    left. apply exp_increasing. lra. }
  pose proof (exp_ineq1 1 ltac:(lra)) as H1.
  rewrite exp_Ropp in He.
  assert (H2 : / exp 1 < / 2) by (apply Rinv_lt_contravar; lra).
  lra.
Qed.

Ltac name_exp_terms :=
  repeat match goal with
         | |- context [exp ?a] =>
             let e := fresh "e" in
             pose proof (exp_pos a); set (e := exp a) in *; clearbody e
         end.

(** On [corners] every point has two centres at distance 0. *)
Lemma corners_value_lower (x y : R) :
  x = 1 \/ x = -1 -> y = 1 \/ y = -1 ->
  ln 2 - ln (8 * sqrt (2 * PI ^ 2 * (4 / 7 * (4 / 7))))
  <= iso_value corners_points 8 (4 / 7) x y.
Proof.
  intros Hx Hy. assert (Hh : 0 < 4 / 7) by lra.
  unfold iso_value. replace (INR 8) with 8 by (simpl; lra).
  apply Rplus_le_compat_r. apply ln_monotone; [lra|].
  cbn [corners_points map rsum fold_right fst snd].
  destruct Hx as [-> | ->], Hy as [-> | ->].
  - rewrite !(gauss_term_at_centre (4 / 7) 1 1 Hh). name_exp_terms. lra.
  - rewrite !(gauss_term_at_centre (4 / 7) 1 (-1) Hh). name_exp_terms. lra.
  - rewrite !(gauss_term_at_centre (4 / 7) (-1) 1 Hh). name_exp_terms. lra.
  - rewrite !(gauss_term_at_centre (4 / 7) (-1) (-1) Hh). name_exp_terms. lra.
Qed.

Lemma square_h_le : square_h <= 2.
Proof.
  unfold square_h, Rpower.
  assert (H4 : 0 < ln 4) by (rewrite <- ln_1; apply ln_increasing; lra).
  assert (He : exp (- 2 / (2 + 4) * ln 4) < exp 0) by (apply exp_increasing; lra).
  rewrite exp_0 in He. lra.
Qed.

Ltac bound_far_terms h Hh Hh2 :=
  repeat match goal with
         | |- context [exp (- (?q / h) / 2)] =>
             let e := fresh "e" in
             pose proof (exp_pos (- (q / h) / 2));
             pose proof (gauss_term_half h q Hh Hh2 ltac:(lra));
             set (e := exp (- (q / h) / 2)) in *; clearbody e
         end.

(** On [square] the kernels away from a corner add up to at most 3/2. *)
Lemma square_value_upper (x y : R) :
  x = 1 \/ x = -1 -> y = 1 \/ y = -1 ->
  iso_value square_points 4 square_h x y
  <= ln 3 - ln (4 * sqrt (2 * PI ^ 2 * (square_h * square_h))).
Proof.
  intros Hx Hy. pose proof square_h_pos as Hh. pose proof square_h_le as Hh2.
  unfold iso_value. replace (INR 4) with 4 by (simpl; lra).
  apply Rplus_le_compat_r.
  cbn [square_points map rsum fold_right fst snd].
  destruct Hx as [-> | ->], Hy as [-> | ->].
  - rewrite !(gauss_term_at_centre square_h 1 1 Hh).
    bound_far_terms square_h Hh Hh2. apply ln_monotone; lra.
  - rewrite !(gauss_term_at_centre square_h 1 (-1) Hh).
    bound_far_terms square_h Hh Hh2. apply ln_monotone; lra.
  - rewrite !(gauss_term_at_centre square_h (-1) 1 Hh).
    bound_far_terms square_h Hh Hh2. apply ln_monotone; lra.
  - rewrite !(gauss_term_at_centre square_h (-1) (-1) Hh).
    bound_far_terms square_h Hh Hh2. apply ln_monotone; lra.
Qed.

Lemma ln_norm_2d (n h : R) :
  0 < n -> 0 < h ->
  ln (n * sqrt (2 * PI ^ 2 * (h * h))) = ln n + (ln (2 * PI ^ 2) + 2 * ln h) / 2.
Proof.
  intros Hn Hh. pose proof PI_RGT_0 as Hpi.
  assert (Hp : 0 < 2 * PI ^ 2) by (simpl; nra).
  assert (Hhh : 0 < h * h) by nra.
  assert (Hph : 0 < 2 * PI ^ 2 * (h * h)) by (apply Rmult_lt_0_compat; assumption).
  rewrite ln_mult by (try apply sqrt_lt_R0; assumption).
  rewrite ln_of_sqrt by assumption.
  rewrite (ln_mult (2 * PI ^ 2)), (ln_mult h) by assumption. field.
Qed.

(** The second candidate on [corners] does not score higher than the
    first. *)
Lemma corners_second_not_better (b1 b2 : R) :
  ClusteredKDE.bic corners_model1 = Ok b1 ->
  ClusteredKDE.bic corners_model2 = Ok b2 ->
  ~ b1 < b2.
Proof.
  rewrite bic_corners1, bic_corners2. intros E1 E2.
  injection E1 as <-. injection E2 as <-.
  assert (P1 : 1 = 1 \/ 1 = -1) by (left; reflexivity).
  assert (M1 : -1 = 1 \/ -1 = -1) by (right; reflexivity).
  pose proof (corners_value_lower 1 1 P1 P1) as Ha.
  pose proof (corners_value_lower 1 (-1) P1 M1) as Hb.
  pose proof (corners_value_lower (-1) 1 M1 P1) as Hc.
  pose proof (corners_value_lower (-1) (-1) M1 M1) as Hd.
  pose proof (square_value_upper 1 1 P1 P1) as Ha'.
  pose proof (square_value_upper 1 (-1) P1 M1) as Hb'.
  pose proof (square_value_upper (-1) 1 M1 P1) as Hc'.
  pose proof (square_value_upper (-1) (-1) M1 M1) as Hd'.
  rewrite ln_norm_2d in Ha, Hb, Hc, Hd by lra.
  rewrite ln_norm_2d in Ha', Hb', Hc', Hd' by (try apply square_h_pos; lra).
  assert (H2 : 0 < ln 2) by (rewrite <- ln_1; apply ln_increasing; lra).
  assert (H4 : ln 4 = 2 * ln 2).
  { replace 4 with (2 * 2) by lra. rewrite ln_mult by lra. ring. }
  assert (H8 : ln 8 = 3 * ln 2).
  { replace 8 with (2 * (2 * 2)) by lra. rewrite !ln_mult by lra. ring. }
  assert (Hl1 : ln (4 / 7) = ln 4 - ln 7).
  { unfold Rdiv. rewrite ln_mult, ln_Rinv; lra. }
  assert (Hl2 : ln square_h = ln 4 - ln 3 + - 2 / (2 + 4) * ln 4).
  { unfold square_h, Rpower. rewrite ln_mult, ln_exp; try apply exp_pos; try lra.
    unfold Rdiv at 1. rewrite ln_mult, ln_Rinv; lra. }
  assert (H97 : 10 * ln 3 <= 2 * ln 2 + 5 * ln 7).
  { replace (10 * ln 3) with (ln (3 ^ 10)) by (rewrite ln_pow by lra; simpl; ring).
    replace (2 * ln 2 + 5 * ln 7) with (ln (2 ^ 2 * 7 ^ 5)).
    - apply ln_monotone; simpl; lra.
    - rewrite ln_mult, !ln_pow; try lra; simpl; lra. }
  rewrite Hl1 in Ha, Hb, Hc, Hd. rewrite Hl2 in Ha', Hb', Hc', Hd'.
  rewrite H4, H8 in *.
  lra.
Qed.

Lemma OptimizedKDE_init_corners :
  OptimizedKDE.__init__ 2 corners None
  = Some (Ok (OptimizedKDE.mk (Some corners_model1))).
Proof.
  unfold OptimizedKDE.__init__, OptimizedKDE.search.
  rewrite ClusteredKDE_init_corners1.
  destruct (ClusteredKDE.bic corners_model1) as [b1|e] eqn:E1;
    [|rewrite bic_corners1 in E1; discriminate E1].
  cbn [OptimizedKDE.improves].
  rewrite ClusteredKDE_init_corners2.
  destruct (ClusteredKDE.bic corners_model2) as [b2|e] eqn:E2;
    [|rewrite bic_corners2 in E2; discriminate E2].
  destruct (Rlt_dec b1 b2) as [Hlt|_]; [|reflexivity].
  exfalso. exact (corners_second_not_better b1 b2 E1 E2 Hlt).
Qed.

(** C4 at the sample [corners]: the search builds the candidates with one
    and with two clusters and keeps the first. *)
Lemma search_keeps_best_before_stop_witness :
  exists n best b1 bn bs,
    (1 <= n)%nat
    /\ OptimizedKDE.kde (OptimizedKDE.mk (Some corners_model1)) = Some best
    /\ ClusteredKDE.__init__ corners n None = Ok best
    /\ ClusteredKDE.bic best = Ok bn
    /\ bic_at (pool := unit) corners None 1 = Ok b1
    /\ b1 <= bn
    /\ rising (pool := unit) corners None 1 n
    /\ bic_at (pool := unit) corners None (S n) = Ok bs
    /\ ~ bn < bs.
Proof.
  apply (search_keeps_best_before_stop (PO := no_pool) (CO := round_robin)
           2 corners None (OptimizedKDE.mk (Some corners_model1))).
  exact OptimizedKDE_init_corners.
Defined.

(** ** A sample with a constant column *)

Lemma dot_self_nonneg (v : vec) : 0 <= dot v v.
Proof. induction v as [|x v IH]; simpl; [lra|nra]. Qed.

(** A matrix that [cholesky] factors has a positive diagonal. *)
Lemma chol_rows_diag_pos (A : matrix) (n : nat) :
  forall prev U, chol_rows A n prev = Ok U ->
                 forall j, (length prev <= j < length prev + n)%nat -> 0 < entry A j j.
Proof.
  induction n as [|n IH]; intros prev U H j Hj; [lia|].
  cbn [chol_rows] in H. inv_bind H.
  destruct (Nat.eq_dec j (length prev)) as [->|Hne].
  - unfold chol_row in Ha.
    destruct (Rlt_dec 0 _) as [Hp|_] in Ha; [|discriminate Ha].
    pose proof (dot_self_nonneg (column (length prev) prev)). lra.
  - apply (IH _ _ H). rewrite length_app. simpl. lia.
Qed.

Lemma cholesky_2d_diag_pos (A U : matrix) (lower : bool) :
  cholesky_2d A lower = Ok U -> forall j, (j < ncols A)%nat -> 0 < entry A j j.
Proof.
  unfold cholesky_2d. destruct (nrows A =? ncols A)%nat; [|discriminate].
  intros H j Hj. inv_bind H.
  apply (chol_rows_diag_pos A (ncols A) [] a Ha). simpl. lia.
Qed.

Lemma entry_scale (A : matrix) (s : R) (i j : nat) :
  entry (scale A s) i j = entry A i j * s.
Proof.
  unfold entry, scale. cbn [rows].
  change (@nil R) with (map (fun x => x * s) []) at 1.
  rewrite map_nth.
  replace 0 with (0 * s) at 1 by ring.
  apply (map_nth (fun x => x * s)).
Qed.

Lemma nth_map2 (f : R -> R -> R) (u v : vec) (j : nat) :
  (j < length u)%nat -> (j < length v)%nat ->
  nth j (map2 f u v) 0 = f (nth j u 0) (nth j v 0).
Proof.
  revert v j. induction u as [|x u IH]; intros [|y v] j Hu Hv; simpl in *; try lia.
  destruct j as [|j]; [reflexivity|]. apply IH; lia.
Qed.

Lemma rsum_constant (w : R) (l : list vec) (g : vec -> R) :
  (forall r, In r l -> g r = w) -> rsum (map g l) = INR (length l) * w.
Proof.
  induction l as [|r l IH]; intros H.
  - simpl. ring.
  - change (length (r :: l)) with (S (length l)). rewrite S_INR. cbn [map rsum fold_right].
    rewrite (H r (or_introl eq_refl)).
    change (fold_right Rplus 0 (map g l)) with (rsum (map g l)).
    rewrite IH by (intros; apply H; now right). ring.
Qed.

Lemma nth_map_seq {A : Type} (F : nat -> A) (d : A) (n j : nat) :
  (j < n)%nat -> nth j (map F (seq 0 n)) d = F j.
Proof.
  intros Hj. rewrite (nth_indep _ d (F 0%nat)) by (rewrite length_map, length_seq; lia).
  rewrite map_nth, seq_nth by lia. reflexivity.
Qed.

(** The sample variance of a constant column is zero. *)
Lemma cov_constant_column (A : matrix) (j : nat) (w : R) :
  wf_matrix A -> (j < ncols A)%nat -> (0 < nrows A)%nat ->
  (forall r, In r (rows A) -> nth j r 0 = w) ->
  entry (cov_matrix A) j j = 0.
Proof.
  intros Hwf Hj HN Hconst.
  assert (Hmu : nth j (np_mean A) 0 = w).
  { unfold np_mean. rewrite nth_map_seq by exact Hj. unfold column.
    rewrite (rsum_constant w) by exact Hconst.
    unfold nrows. field. apply not_0_INR. unfold nrows in HN. lia. }
  unfold entry, cov_matrix. cbn [rows].
  rewrite (@nth_map_seq vec _ (@nil R) (ncols A) j Hj).
  rewrite (@nth_map_seq R _ 0 (ncols A) j Hj).
  assert (Hcol : column j (map (fun r => map2 Rminus r (np_mean A)) (rows A))
                 = map (fun _ => 0) (rows A)).
  { unfold column. rewrite map_map. apply map_ext_in. intros r Hr.
    unfold wf_matrix in Hwf. rewrite Forall_forall in Hwf.
    rewrite nth_map2 by (rewrite ?np_mean_length, ?(Hwf r Hr); exact Hj).
    rewrite Hmu, (Hconst r Hr). ring. }
  rewrite Hcol.
  assert (Hz : forall l : list vec, dot (map (fun _ => 0) l) (map (fun _ => 0) l) = 0).
  { induction l as [|r l IH]; simpl; [reflexivity|]. rewrite IH. ring. }
  rewrite Hz. unfold Rdiv. ring.
Qed.

Section ConstantColumn.
Context {pool : Type} {CO : ClusterOps}.

(** [KDE] cannot be constructed from a sample with a constant column. *)
Lemma KDE_init_constant_column (data : matrix) (p : option pool) (j : nat) (w : R) :
  wf_matrix data -> (j < ncols data)%nat ->
  (forall r, In r (rows data) -> nth j r 0 = w) ->
  exists e, KDE.__init__ data p = Raise e.
Proof.
  intros Hwf Hj Hconst.
  destruct (KDE.__init__ data p) as [kde|e] eqn:E; [|exists e; reflexivity].
  exfalso.
  destruct (KDE_init_inv _ _ _ E) as (HN & Hd & Hdata & _ & _ & Hpos & Hchol & _).
  assert (Hjk : (j < ncols (KDE.kernel_cov kde))%nat).
  { unfold KDE.kernel_cov. rewrite Hdata. exact Hj. }
  pose proof (cholesky_2d_diag_pos _ _ _ Hchol j Hjk) as Hdiag.
  unfold KDE.kernel_cov in Hdiag.
  rewrite entry_scale, Hdata, (cov_constant_column data j w) in Hdiag; try assumption.
  lra.
Qed.

End ConstantColumn.


(** ** The stored factor and constant, in general *)

Lemma chol_row_upper (A : matrix) (prev : list vec) (r : vec) (j : nat) :
  chol_row A prev = Ok r -> (j < length prev)%nat -> nth j r 0 = 0.
Proof.
  unfold chol_row. destruct (Rlt_dec 0 _) as [_|_]; [|discriminate].
  intros H Hj. injection H as <-.
  destruct (Nat.lt_ge_cases j (ncols A)) as [Hlt|Hge].
  - rewrite nth_map_seq by exact Hlt.
    apply Nat.ltb_lt in Hj. now rewrite Hj.
  - apply nth_overflow. now rewrite length_map, length_seq.
Qed.

Lemma chol_rows_upper (A : matrix) (n : nat) :
  forall prev U,
    chol_rows A n prev = Ok U ->
    (forall i j, (j < i)%nat -> nth j (nth i prev []) 0 = 0) ->
    forall i j, (j < i)%nat -> nth j (nth i U []) 0 = 0.
Proof.
  induction n as [|n IH]; intros prev U H Hprev i j Hij.
  - injection H as <-. now apply Hprev.
  - cbn [chol_rows] in H. inv_bind H.
    apply (IH _ _ H); [|exact Hij].
    intros i' j' Hij'.
    destruct (Nat.lt_ge_cases i' (length prev)) as [Hlt|Hge].
    + rewrite app_nth1 by exact Hlt. now apply Hprev.
    + rewrite app_nth2 by exact Hge.
      destruct (i' - length prev)%nat as [|d] eqn:Ed.
      * cbn [nth]. apply (chol_row_upper A prev a j' Ha). lia.
      * cbn [nth]. destruct d; now destruct j'.
Qed.

(** Whatever the sample, the factor that the constructor stores for
    drawing is upper triangular. *)
Lemma KDE_factor_upper_triangular {pool : Type} (data : matrix) (p : option pool)
      (self : KDE.t pool) :
  KDE.__init__ data p = Ok self ->
  upper_triangular (KDE._decomposed_kernel_cov self).
Proof.
  intros H. destruct (KDE_init_inv _ _ _ H) as (_ & _ & _ & _ & _ & _ & Hchol & _).
  unfold cholesky_2d in Hchol.
  destruct (nrows _ =? ncols _)%nat; [|discriminate Hchol].
  inv_bind Hchol. injection Hchol as <-.
  intros i j Hij. unfold entry. cbn [rows].
  apply (chol_rows_upper _ _ [] a Ha); [|exact Hij].
  intros i' j' _. now destruct i', j'.
Qed.

(** Whatever the sample, if the kernel covariance has a positive
    determinant the stored constant is not the Gaussian normalisation:
    the two agree in one dimension only, and no estimator is constructed
    there. *)
Lemma KDE_lognorm_not_gaussian {pool : Type} (data : matrix) (p : option pool)
      (self : KDE.t pool) :
  KDE.__init__ data p = Ok self ->
  0 < det_rows (KDE._dim self) (rows (KDE.kernel_cov self)) ->
  KDE._lognorm self
  <> gaussian_lognorm (KDE._N self) (KDE._dim self) (KDE.kernel_cov self).
Proof.
  intros H Hdet. rewrite (KDE_lognorm_stored _ _ _ H).
  destruct (KDE_init_inv _ _ _ H) as (HN & Hd & _ & _ & _ & Hpos & _).
  assert (H2D : 2 ^ KDE._dim self <> 2).
  { rewrite Hd. destruct (KDE_init_dims _ _ _ H) as [_ Hne].
    destruct (ncols data) as [|[|n]]; [simpl; lra|congruence|].
    assert (G : forall m, 2 < 2 ^ (2 + m)).
    { induction m as [|m IHm]; [simpl; lra|].
      replace (2 + S m)%nat with (S (2 + m)) by lia. simpl in *. lra. }
    specialize (G n). simpl in *. lra. }
  unfold gaussian_lognorm.
  set (d := det_rows (KDE._dim self) (rows (KDE.kernel_cov self))) in *.
  set (D := KDE._dim self) in *.
  pose proof PI_RGT_0 as Hpi.
  assert (HpiD : 0 < PI ^ D) by (apply pow_lt; exact Hpi).
  assert (HN0 : 0 < INR (KDE._N self)) by (apply lt_0_INR; lia).
  assert (Ha : 0 < 2 * PI ^ D * d) by (apply Rmult_lt_0_compat; lra).
  assert (Hb : 0 < (2 * PI) ^ D * d).
  { apply Rmult_lt_0_compat; [apply pow_lt; lra|exact Hdet]. }
  intros E. apply ln_inv in E;
    try (apply Rmult_lt_0_compat; [exact HN0|apply sqrt_lt_R0; assumption]).
  apply Rmult_eq_reg_l in E; [|lra].
  apply sqrt_inj in E; try lra.
  rewrite Rpow_mult_distr in E.
  apply Rmult_eq_reg_r in E; [|lra].
  apply Rmult_eq_reg_r in E; [|lra].
  apply H2D. symmetry. exact E.
Qed.

(** For a symmetric matrix of order two, the factor of [chol_2x2] times
    itself, transposed first, gives the matrix back. *)
Lemma chol_2x2_factorises (a b d : R) :
  0 < a -> 0 < d - (b / sqrt a) * (b / sqrt a) ->
  let U := mkMatrix 2 [[sqrt a; b / sqrt a];
                       [0; sqrt (d - (b / sqrt a) * (b / sqrt a))]] in
  cholesky_2d (mkMatrix 2 [[a; b]; [b; d]]) false = Ok U
  /\ mat_mul (transpose U) U = mkMatrix 2 [[a; b]; [b; d]].
Proof.
  intros Ha Hd U. split; [apply chol_2x2; assumption|].
  assert (Hs : sqrt a <> 0) by (apply Rgt_not_eq, sqrt_lt_R0, Ha).
  unfold mat_mul, transpose, column, nrows, U. simpl. f_equal.
  pose proof (sqrt_sqrt a (Rlt_le _ _ Ha)) as Hsa.
  pose proof (sqrt_sqrt _ (Rlt_le _ _ Hd)) as Hsd.
  repeat f_equal.
  - rewrite <- Hsa at 3. ring.
  - field. exact Hs.
  - field. exact Hs.
  - replace (b / sqrt a * (b / sqrt a)
             + (sqrt (d - b / sqrt a * (b / sqrt a))
                * sqrt (d - b / sqrt a * (b / sqrt a)) + 0))
      with (b / sqrt a * (b / sqrt a)
            + sqrt (d - b / sqrt a * (b / sqrt a))
              * sqrt (d - b / sqrt a * (b / sqrt a))) by ring.
    rewrite Hsd. ring.
Qed.

(** * Further properties of the code *)

(** ** Samples no estimator can be built from *)

(** X1.  [KDE(data)] raises [ZeroDivisionError] on a sample without
    points (Scott's factor is a negative power of [0]), and [ValueError]
    on a sample of one point or of one column ([numpy.cov] gives a 0-d
    array there, which [scipy.linalg.cho_factor] refuses). *)
Theorem KDE_init_degenerate {pool : Type} (data : matrix) (p : option pool) :
  (nrows data = 0%nat -> KDE.__init__ data p = Raise ZeroDivisionError)
  /\ (nrows data = 1%nat -> KDE.__init__ data p = Raise ValueError)
  /\ (nrows data <> 0%nat -> ncols data = 1%nat ->
      KDE.__init__ data p = Raise ValueError).
Proof.
  unfold KDE.__init__, KDE._set_bandwidth, KDE.scott_factor, np_cov.
  repeat split.
  - intros ->. reflexivity.
  - intros ->. reflexivity.
  - intros HN ->. apply Nat.eqb_neq in HN. rewrite HN.
    destruct (nrows data =? 1)%nat; reflexivity.
Qed.

Lemma list_sum_ge_times (f : nat -> nat) (b : nat) (l : list nat) :
  (forall c, In c l -> (b <= f c)%nat) -> (b * length l <= list_sum (map f l))%nat.
Proof.
  induction l as [|c l IH]; intros H; simpl; [lia|].
  pose proof (H c (or_introl eq_refl)).
  assert (b * length l <= list_sum (map f l))%nat by (apply IH; intros; apply H; now right).
  lia.
Qed.

Section SmallClusters.
Context {pool : Type} {CO : ClusterOps}.

(** Every cluster of a constructed model holds two points or more. *)
Lemma ClusteredKDE_init_cluster_size (data : matrix) (k : nat) (p : option pool)
      (m : ClusteredKDE.t pool) (c : nat) :
  ClusteredKDE.__init__ data k p = Ok m -> (c < k)%nat ->
  (2 <= count_true (ClusteredKDE.eq_mask (ClusteredKDE._assignments m) c))%nat
  /\ length (ClusteredKDE._assignments m) = nrows data.
Proof.
  intros H Hc.
  destruct (ClusteredKDE_init_shape _ _ _ _ H) as (_ & _ & Hlk & _).
  destruct (nth_error (ClusteredKDE._kdes m) c) as [kde|] eqn:E;
    [|apply nth_error_None in E; lia].
  destruct (ClusteredKDE_init_cluster _ _ _ _ _ _ H E) as (_ & Hla & Hinit & HN & _).
  destruct (KDE_init_dims _ _ _ Hinit) as [H2 _].
  destruct (KDE_init_inv _ _ _ Hinit) as (HN' & _).
  split; [|exact Hla]. rewrite <- HN, HN'. exact H2.
Qed.

Lemma ClusteredKDE_init_2k_le_N (data : matrix) (k : nat) (p : option pool)
      (m : ClusteredKDE.t pool) :
  ClusteredKDE.__init__ data k p = Ok m -> (2 * k <= nrows data)%nat.
Proof.
  intros H. destruct k as [|k]; [lia|].
  destruct (ClusteredKDE_init_cluster_size data (S k) p m 0 H) as [_ Hla]; [lia|].
  pose proof (list_sum_ge_times
                (fun c => count_true (ClusteredKDE.eq_mask (ClusteredKDE._assignments m) c))
                2 (seq 0 (S k))) as Hge.
  rewrite length_seq in Hge.
  pose proof (cluster_sizes_le (ClusteredKDE._assignments m) (S k)) as Hle.
  assert (2 * S k <= length (ClusteredKDE._assignments m))%nat; [|lia].
  etransitivity; [apply Hge|exact Hle].
  intros c Hc. apply in_seq in Hc.
  apply (ClusteredKDE_init_cluster_size data (S k) p m c H). lia.
Qed.

(** X2.  In a constructed [ClusteredKDE] every one of the [k] clusters
    holds at least two of the points (an estimator on fewer raises), so a
    model with [k] clusters needs [2 k <= N]. *)
Theorem clusters_hold_two_points (data : matrix) (k : nat) (p : option pool)
        (m : ClusteredKDE.t pool) :
  ClusteredKDE.__init__ data k p = Ok m ->
  (forall c, (c < k)%nat ->
             (2 <= count_true (ClusteredKDE.eq_mask (ClusteredKDE._assignments m) c))%nat)
  /\ (2 * k <= nrows data)%nat.
Proof.
  intros H. split.
  - intros c Hc. apply (ClusteredKDE_init_cluster_size data k p m c H Hc).
  - apply (ClusteredKDE_init_2k_le_N data k p m H).
Qed.

(** A sample of one column cannot be made into a [ClusteredKDE]: the
    estimator of the first cluster cannot be built. *)
Lemma ClusteredKDE_init_one_column (data : matrix) (k : nat) (p : option pool) :
  ncols data = 1%nat -> (1 <= k)%nat ->
  exists e, ClusteredKDE.__init__ data k p = Raise e.
Proof.
  intros H1 Hk.
  destruct (ClusteredKDE.__init__ data k p) as [m|e] eqn:E; [|now exists e].
  exfalso.
  destruct (ClusteredKDE_init_shape _ _ _ _ E) as (_ & _ & Hlk & _).
  destruct (nth_error (ClusteredKDE._kdes m) 0) as [kde|] eqn:E0;
    [|apply nth_error_None in E0; lia].
  destruct (ClusteredKDE_init_cluster _ _ _ _ _ _ E E0) as (_ & _ & Hinit & _).
  destruct (KDE_init_dims _ _ _ Hinit) as [_ Hne].
  apply Hne. exact H1.
Qed.
End SmallClusters.

Lemma clusters_hold_two_points_witness :
  (forall c, (c < 2)%nat ->
     (2 <= count_true (ClusteredKDE.eq_mask
                         (ClusteredKDE._assignments corners_model2) c))%nat)
  /\ (2 * 2 <= nrows corners)%nat.
Proof.
  exact (clusters_hold_two_points (CO := round_robin)
           corners 2 None corners_model2 ClusteredKDE_init_corners2).
Defined.


(** ** The search: failures and termination *)

Section SearchFailure.
Context {pool : Type} {PO : PoolOps pool}.
Context {CO : ClusterOps}.

Lemma search_raises_from (data : matrix) (p : option pool) (n : nat) (e : failure) :
  bic_at data p (S n) = Raise e ->
  forall d fuel k best_kde best_bic,
    S n = (k + d)%nat -> (d < fuel)%nat ->
    rising data p k n ->
    ((k <= n)%nat ->
     exists bk, bic_at data p k = Ok bk /\ OptimizedKDE.improves bk best_bic = true) ->
    OptimizedKDE.search fuel data p k best_kde best_bic = Some (Raise e).
Proof.
  intros Hfail. induction d as [|d IH]; intros fuel k best_kde best_bic Hk Hf Hr Hfirst;
    (destruct fuel as [|fuel]; [lia|]); cbn [OptimizedKDE.search].
  - replace k with (S n) by lia. unfold bic_at in Hfail.
    destruct (ClusteredKDE.__init__ data (S n) p) as [kde|e0]; cbn [bind] in Hfail.
    + rewrite Hfail. reflexivity.
    + injection Hfail as ->. reflexivity.
  - destruct Hfirst as (bk & Hbk & Himp); [lia|].
    pose proof Hbk as Hbk'. unfold bic_at in Hbk'.
    destruct (ClusteredKDE.__init__ data k p) as [kde|e0]; cbn [bind] in Hbk';
      [|discriminate Hbk'].
    rewrite Hbk', Himp.
    apply IH; try lia.
    + intros j Hj. apply Hr. lia.
    + intros Hle. destruct (Hr k) as (bj & bj' & Hj & Hj' & Hlt); [lia|].
      exists bj'. split; [exact Hj'|].
      rewrite Hbk in Hj. injection Hj as <-.
      cbn [OptimizedKDE.improves].
      destruct (Rlt_dec bk bj') as [_|Hn]; [reflexivity|contradiction].
Qed.

(** X4.  When the scores rise strictly over the candidates [1 .. n] and
    building or scoring candidate [n + 1] raises, the constructor of
    [OptimizedKDE] raises that exception: the best model found so far is
    not kept. *)
Theorem search_raises_at_first_failure (fuel n : nat) (data : matrix) (p : option pool)
        (e : failure) :
  ((1 <= n)%nat -> exists b1, bic_at data p 1 = Ok b1) ->
  rising data p 1 n ->
  bic_at data p (S n) = Raise e ->
  (n < fuel)%nat ->
  OptimizedKDE.__init__ fuel data p = Some (Raise e).
Proof.
  intros H1 Hr Hfail Hf. unfold OptimizedKDE.__init__.
  rewrite (search_raises_from data p n e Hfail n fuel 1 None None); try lia; auto.
  intros Hle. destruct (H1 Hle) as [b1 Hb1]. exists b1. split; [exact Hb1|reflexivity].
Qed.

(** X3.  A sample of one column cannot be made into a model: for every
    [k >= 1] the constructor of [ClusteredKDE] raises, and the constructor
    of [OptimizedKDE] raises at its first candidate. *)
Theorem one_column_sample_raises (data : matrix) (p : option pool) :
  ncols data = 1%nat ->
  (forall k, (1 <= k)%nat -> exists e, ClusteredKDE.__init__ data k p = Raise e)
  /\ (forall fuel, (1 <= fuel)%nat ->
                   exists e, OptimizedKDE.__init__ fuel data p = Some (Raise e)).
Proof.
  intros H1. split.
  - intros k Hk. exact (ClusteredKDE_init_one_column data k p H1 Hk).
  - intros fuel Hf.
    destruct (ClusteredKDE_init_one_column data 1 p H1 (le_n 1)) as [e He].
    assert (Hb : bic_at data p 1 = Raise e) by (unfold bic_at; now rewrite He).
    exists e. unfold OptimizedKDE.__init__.
    rewrite (search_raises_from data p 0 e Hb 0 fuel 1 None None);
      [reflexivity|lia|lia|intros j Hj; lia|intros Hle; lia].
Qed.

(** The answer of the loop does not depend on the fuel left over. *)
Lemma search_fuel_mono (data : matrix) (p : option pool) (fuel : nat) :
  forall k best_kde best_bic r,
    OptimizedKDE.search fuel data p k best_kde best_bic = Some r ->
    forall d, OptimizedKDE.search (fuel + d) data p k best_kde best_bic = Some r.
Proof.
  induction fuel as [|fuel IH]; intros k best_kde best_bic r H d; [discriminate H|].
  cbn [OptimizedKDE.search Nat.add] in *.
  destruct (ClusteredKDE.__init__ data k p) as [kde|e]; [|exact H].
  destruct (ClusteredKDE.bic kde) as [b|e]; [|exact H].
  destruct (OptimizedKDE.improves b best_bic); [|exact H].
  apply IH. exact H.
Qed.

Lemma search_returns_half (data : matrix) (p : option pool) (fuel : nat) :
  forall k best_kde best_bic,
    (nrows data / 2 + 1 <= k + fuel)%nat ->
    exists r, OptimizedKDE.search (S fuel) data p k best_kde best_bic = Some r.
Proof.
  induction fuel as [|fuel IH]; intros k best_kde best_bic Hk;
    cbn [OptimizedKDE.search];
    destruct (ClusteredKDE.__init__ data k p) as [kde|e] eqn:Einit;
    try (eexists; reflexivity).
  - apply ClusteredKDE_init_2k_le_N in Einit.
    pose proof (Nat.div_mod_eq (nrows data) 2) as Hdm.
    pose proof (Nat.mod_upper_bound (nrows data) 2) as Hmod. lia.
  - destruct (ClusteredKDE.bic kde) as [b|e]; [|eexists; reflexivity].
    destruct (OptimizedKDE.improves b best_bic); [|eexists; reflexivity].
    apply IH. lia.
Qed.

(** X5.  The loop of [OptimizedKDE.__init__] ends: on [N] points it
    builds at most [N/2 + 1] candidates and then returns a model or raises
    (a candidate with more than [N/2] clusters cannot be built), and the
    outcome is the same however many iterations are allowed beyond that. *)
Theorem search_ends (data : matrix) (p : option pool) :
  exists r, forall fuel, (nrows data / 2 < fuel)%nat ->
                         OptimizedKDE.__init__ fuel data p = Some r.
Proof.
  destruct (search_returns_half data p (nrows data / 2) 1 None None) as [r Hr]; [lia|].
  exists (match r with
          | Raise e => Raise e
          | Ok best_kde => Ok (OptimizedKDE.mk best_kde)
          end).
  intros fuel Hf. unfold OptimizedKDE.__init__.
  replace fuel with (S (nrows data / 2) + (fuel - S (nrows data / 2)))%nat by lia.
  rewrite (search_fuel_mono _ _ _ _ _ _ _ Hr). destruct r; reflexivity.
Qed.

(** X6.  After a search that completes, [logpdf] of the [OptimizedKDE]
    is [logpdf] of the candidate it kept; [self.kde] is never [None]
    there. *)
Theorem OptimizedKDE_logpdf_delegates (fuel : nat) (data : matrix) (p : option pool)
        (self : OptimizedKDE.t pool) :
  OptimizedKDE.__init__ fuel data p = Some (Ok self) ->
  exists n best,
    (1 <= n)%nat
    /\ ClusteredKDE.__init__ data n p = Ok best
    /\ OptimizedKDE.kde self = Some best
    /\ forall X, OptimizedKDE.logpdf self X = ClusteredKDE.logpdf best X.
Proof.
  unfold OptimizedKDE.__init__. intros H.
  destruct (OptimizedKDE.search fuel data p 1 None None) as [[r|e]|] eqn:Es;
    try discriminate H.
  injection H as <-.
  apply search_stops in Es. destruct Es as (s & bs & Hs1 & Hs & Hcase).
  destruct Hcase as [(_ & _ & Hno)|
                     (n & best & bn & bk & -> & Hn1 & -> & Hn & _)].
  - discriminate Hno.
  - exists n, best. repeat split; try assumption.
Qed.
End SearchFailure.

(** On [square] under [round_robin], the candidate with two clusters
    cannot be built: its first cluster has a constant column. *)
Lemma bic_at_square_1 :
  exists b, bic_at (pool := unit) (CO := round_robin) square None 1 = Ok b.
Proof.
  destruct (bic_pointwise (PL := no_pool_laws) (CO := round_robin)
              square 1 None square_model (le_n 1) wf_square
              ClusteredKDE_init_square) as (ls & _ & Hbic).
  unfold bic_at. rewrite ClusteredKDE_init_square. cbn [bind].
  rewrite Hbic. eexists. reflexivity.
Qed.

Lemma bic_at_square_2 :
  exists e, bic_at (pool := unit) (CO := round_robin) square None 2 = Raise e.
Proof.
  destruct (KDE_init_constant_column (pool := unit)
              (mkMatrix 2 [[1; 1]; [-1; 1]]) None 1 1) as [e He].
  - unfold wf_matrix. simpl. repeat constructor.
  - simpl. lia.
  - simpl. intros r [<-|[<-|[]]]; reflexivity.
  - exists e. unfold bic_at, ClusteredKDE.__init__.
    rewrite np_mean_square, np_std_square, whiten_square. cbn [bind].
    change (kmeans square 2) with (Ok [[0; 0]; [0; 0]] : result (list vec)).
    cbn [bind].
    change (vq square [[0; 0]; [0; 0]]) with (Ok [0; 1; 0; 1]%nat : result (list nat)).
    cbn [bind seq mapM].
    change (ClusteredKDE.cluster_kde square [0; 1; 0; 1]%nat (@None unit) 0)
      with (KDE.__init__ (mkMatrix 2 [[1; 1]; [-1; 1]]) (@None unit)).
    rewrite He. reflexivity.
Qed.

Lemma search_raises_at_first_failure_witness :
  exists e, OptimizedKDE.__init__ (PO := no_pool) (CO := round_robin) 2 square None
            = Some (Raise e).
Proof.
  destruct bic_at_square_2 as [e He]. exists e.
  apply (search_raises_at_first_failure (PO := no_pool) (CO := round_robin)
           2 1 square None e).
  - intros _. exact bic_at_square_1.
  - intros j Hj. lia.
  - exact He.
  - lia.
Defined.

Lemma one_column_sample_raises_witness :
  let data := mkMatrix 1 [[1]; [2]; [4]; [8]] in
  (forall k, (1 <= k)%nat ->
             exists e, ClusteredKDE.__init__ (CO := round_robin) data k (@None unit)
                       = Raise e)
  /\ (forall fuel, (1 <= fuel)%nat ->
                   exists e, OptimizedKDE.__init__ (PO := no_pool) (CO := round_robin)
                               fuel data None = Some (Raise e)).
Proof.
  intros data.
  apply (one_column_sample_raises (PO := no_pool) (CO := round_robin) data None).
  reflexivity.
Defined.

Lemma OptimizedKDE_logpdf_delegates_witness :
  exists n best,
    (1 <= n)%nat
    /\ ClusteredKDE.__init__ (CO := round_robin) corners n None = Ok best
    /\ OptimizedKDE.kde (OptimizedKDE.mk (Some corners_model1)) = Some best
    /\ forall X, OptimizedKDE.logpdf (PO := no_pool)
                   (OptimizedKDE.mk (Some corners_model1)) X
                 = ClusteredKDE.logpdf best X.
Proof.
  exact (OptimizedKDE_logpdf_delegates (PO := no_pool) (CO := round_robin)
           2 corners None (OptimizedKDE.mk (Some corners_model1))
           OptimizedKDE_init_corners).
Defined.

(** ** [ClusteredKDE.logpdf] on queries of the right shape *)

Section MixtureLogpdf.
Context {pool : Type} {PO : PoolOps pool} {PL : PoolLaws pool}.
Context {CO : ClusterOps}.

(** X7.  A constructed model with [k >= 1] clusters answers every query
    matrix that has [D] entries in each row: [logpdf] does not raise, it
    returns one value per query point, in the order of the points, and
    the value of a point is the log-sum-exp over the clusters of
    log-weight plus the cluster's log-density at the whitened point. *)
Theorem logpdf_answers_queries (data : matrix) (k : nat) (p : option pool)
        (m : ClusteredKDE.t pool) (X : matrix) :
  (1 <= k)%nat ->
  ClusteredKDE.__init__ data k p = Ok m ->
  wf_matrix X -> ncols X = ncols data ->
  let whiten := fun r => map2 Rdiv (map2 Rminus r (ClusteredKDE._mean m))
                              (ClusteredKDE._std m) in
  exists ls,
    ClusteredKDE.logpdf m X = Ok ls
    /\ length ls = nrows X
    /\ forall i x, nth_error (rows X) i = Some x ->
         exists v, mixture_point_logpdf m (whiten x) = Ok v
                   /\ nth_error ls i = Some v.
Proof.
  intros Hk H HX Hc whiten.
  destruct (ClusteredKDE_init_inv _ _ _ _ H) as (_ & _ & _ & Hmean & Hstd & _).
  assert (Hlm : length (ClusteredKDE._mean m) = ncols data)
    by (rewrite Hmean; apply np_mean_length).
  assert (Hls : length (ClusteredKDE._std m) = ncols data)
    by (rewrite Hstd; apply np_std_length).
  assert (HW : ClusteredKDE._whiten m X
               = Ok (mkMatrix (ncols X) (map whiten (rows X)))).
  { unfold ClusteredKDE._whiten. apply whiten_with_same; congruence. }
  destruct (whitened_logpdf_pointwise data k p m
              (mkMatrix (ncols X) (map whiten (rows X))) Hk H) as (ls & Hcode & Hpoint).
  - apply (whiten_with_wf (ClusteredKDE._mean m) (ClusteredKDE._std m) X);
      try congruence. exact HW.
  - exact Hc.
  - exists ls. unfold ClusteredKDE.logpdf. rewrite HW. cbn [bind].
    split; [exact Hcode|]. cbn [rows] in Hpoint.
    split.
    + rewrite (mapM_length _ _ _ Hpoint), length_map. reflexivity.
    + intros i x Hx.
      apply (mapM_nth_error _ _ _ Hpoint i (whiten x)).
      rewrite nth_error_map, Hx. reflexivity.
Qed.
End MixtureLogpdf.

Lemma logpdf_answers_queries_witness :
  let X := mkMatrix 2 [[0; 0]; [3; 1]] in
  let whiten := fun r => map2 Rdiv (map2 Rminus r (ClusteredKDE._mean square_model))
                              (ClusteredKDE._std square_model) in
  exists ls,
    ClusteredKDE.logpdf (PO := no_pool) square_model X = Ok ls
    /\ length ls = nrows X
    /\ forall i x, nth_error (rows X) i = Some x ->
         exists v, mixture_point_logpdf square_model (whiten x) = Ok v
                   /\ nth_error ls i = Some v.
Proof.
  intros X whiten.
  apply (logpdf_answers_queries (PL := no_pool_laws) (CO := round_robin)
           square 1 None square_model X).
  - lia.
  - exact ClusteredKDE_init_square.
  - unfold wf_matrix. simpl. repeat constructor.
  - reflexivity.
Defined.

(** ** The pool changes no value *)


Section PoolIndependence.
Context {pool : Type} {PO : PoolOps pool} {PL : PoolLaws pool}.
Context {CO : ClusterOps}.



End PoolIndependence.


(** ** One cluster *)

Lemma logsumexp_axis0_single (l : vec) :
  logsumexp_axis0 [map (fun v => 0 + v) l] = Ok l.
Proof.
  change [map (fun v => 0 + v) l]
    with (map (fun w : R => map (fun v => w + v) l) [0]).
  rewrite logsumexp_axis0_table by discriminate.
  rewrite (mapM_total _ (fun x => x)).
  - now rewrite map_id.
  - intros x _. rewrite logsumexp_spec by discriminate.
    cbn [map rsum fold_right]. rewrite Rplus_0_l, Rplus_0_r, ln_exp. reflexivity.
Qed.

Lemma select_all (rs : list vec) (mask : list bool) :
  length rs = length mask -> Forall (fun b => b = true) mask -> select rs mask = rs.
Proof.
  revert mask. induction rs as [|r rs IH]; intros [|b mask] Hl HF; simpl in *;
    try reflexivity; try discriminate.
  inversion HF as [|? ? Hb HF']; subst. f_equal. apply IH; [lia|exact HF'].
Qed.

Lemma count_true_all (mask : list bool) :
  Forall (fun b => b = true) mask -> count_true mask = length mask.
Proof.
  induction 1 as [|b mask Hb HF IH]; [reflexivity|].
  rewrite count_true_cons, Hb, IH. reflexivity.
Qed.

Section OneCluster.
Context {pool : Type} {PO : PoolOps pool}.
Context {CO : ClusterOps} {CL : ClusterLaws}.

(** X9.  With [k = 1] the mixture is the plain estimator of the whitened
    sample: its only cluster holds every point, its only log-weight is
    [0], and [logpdf] of the model is [logpdf] of that estimator at the
    whitened query. *)
Theorem single_cluster_is_plain_KDE (data : matrix) (p : option pool)
        (m : ClusteredKDE.t pool) :
  ClusteredKDE.__init__ data 1 p = Ok m ->
  exists kde,
    KDE.__init__ (ClusteredKDE._data m) p = Ok kde
    /\ ClusteredKDE._kdes m = [kde]
    /\ ClusteredKDE._logweights m = [0]
    /\ forall X, ClusteredKDE.logpdf m X
                 = (W <- ClusteredKDE._whiten m X ;; KDE.logpdf kde W).
Proof.
  intros H.
  destruct (ClusteredKDE_init_shape _ _ _ _ H) as (Hcols & Hrows & Hlk & _).
  destruct (ClusteredKDE._kdes m) as [|kde [|kde' kdes]] eqn:Ek; try discriminate Hlk.
  assert (E0 : nth_error (ClusteredKDE._kdes m) 0 = Some kde) by now rewrite Ek.
  destruct (ClusteredKDE_init_cluster _ _ _ _ _ _ H E0) as (_ & Hla & Hinit & HN & _ & _).
  pose proof (assignments_in_range _ _ _ _ H) as Hrange.
  assert (Hall : Forall (fun b => b = true)
                   (ClusteredKDE.eq_mask (ClusteredKDE._assignments m) 0)).
  { unfold ClusteredKDE.eq_mask. rewrite Forall_map.
    eapply Forall_impl; [|exact Hrange]. intros a Ha. cbv beta in Ha.
    apply Nat.eqb_eq. lia. }
  assert (Hlen : length (ClusteredKDE.eq_mask (ClusteredKDE._assignments m) 0)
                 = nrows data).
  { unfold ClusteredKDE.eq_mask. rewrite length_map. exact Hla. }
  rewrite select_all in Hinit by (fold (nrows (ClusteredKDE._data m)); congruence || assumption).
  assert (Hsame : mkMatrix (ncols data) (rows (ClusteredKDE._data m))
                  = ClusteredKDE._data m).
  { rewrite <- Hcols. now destruct (ClusteredKDE._data m). }
  rewrite Hsame in Hinit.
  destruct (KDE_init_dims _ _ _ Hinit) as [H2 _].
  destruct (ClusteredKDE_init_inv _ _ _ _ H) as (_ & _ & _ & _ & _ & _ & _ & Hw & _).
  assert (Hw0 : ClusteredKDE._logweights m = [0]).
  { rewrite Hw. cbn [seq map]. rewrite count_true_all, Hlen by exact Hall.
    unfold Rdiv. rewrite Rinv_r, ln_1; [reflexivity|].
    apply not_0_INR. lia. }
  exists kde. repeat split; try assumption.
  intros X. unfold ClusteredKDE.logpdf, ClusteredKDE._whitened_logpdf.
  rewrite Hw0, Ek.
  destruct (ClusteredKDE._whiten m X) as [W|e]; [|reflexivity].
  cbn [bind combine mapM fst snd].
  destruct (KDE.logpdf kde W) as [l|e]; [|reflexivity].
  cbn [bind]. apply logsumexp_axis0_single.
Qed.
End OneCluster.

Lemma single_cluster_is_plain_KDE_witness :
  exists kde,
    KDE.__init__ (ClusteredKDE._data square_model) None = Ok kde
    /\ ClusteredKDE._kdes square_model = [kde]
    /\ ClusteredKDE._logweights square_model = [0]
    /\ forall X, ClusteredKDE.logpdf (PO := no_pool) square_model X
                 = (W <- ClusteredKDE._whiten square_model X ;; KDE.logpdf kde W).
Proof.
  exact (single_cluster_is_plain_KDE (PO := no_pool) (CL := round_robin_laws)
           square None square_model ClusteredKDE_init_square).
Defined.

(** ** Drawing from one estimator *)

Lemma nth_error_map_combine {A B C : Type} (f : A * B -> C) (l : list A) (l' : list B)
      (i : nat) (c : C) :
  nth_error (map f (combine l l')) i = Some c ->
  exists a b, nth_error l i = Some a /\ nth_error l' i = Some b /\ c = f (a, b).
Proof.
  revert l' i. induction l as [|a l IH]; intros [|b l'] [|i] H; simpl in *;
    try discriminate.
  - injection H as <-. now exists a, b.
  - apply IH. exact H.
Qed.

Section KDEDraw.
Context {pool : Type}.
Context {rng : Type} {RO : RandomOps rng} {RL : RandomLaws rng}.

(** X10.  [draw(N)] of a constructed estimator does not raise (every
    kernel index that [randint(0, Nc)] gives is a row of the data) and
    returns [N] rows; row [i] is a stored centre plus the stored factor
    applied to row [i] of the standard-normal draws. *)
Theorem KDE_draw_centred (data : matrix) (p : option pool) (self : KDE.t pool)
        (N : nat) (s : rng) :
  KDE.__init__ data p = Ok self ->
  exists out s',
    KDE.draw self N s = Ok (out, s')
    /\ nrows out = N
    /\ ncols out = ncols data
    /\ forall i row, nth_error (rows out) i = Some row ->
         exists z c,
           nth_error (rows (fst (random_normal N (ncols data) s))) i = Some z
           /\ In c (rows data)
           /\ row = map2 Rplus (mat_vec (KDE._decomposed_kernel_cov self) z) c.
Proof.
  intros H.
  destruct (KDE_init_inv _ _ _ H) as (HN & Hd & Hdata & _ & _ & Hpos & _).
  destruct (KDE_draw_ok self N s) as (out & s' & Hdraw & Hn & Hc).
  - rewrite HN. exact Hpos.
  - rewrite HN, Hdata. reflexivity.
  - exists out, s'. split; [exact Hdraw|]. split; [exact Hn|].
    split; [congruence|].
    destruct (KDE_draw_rows self N s out s' Hdraw)
      as (kernels & centres & _ & Htake & _ & _ & Hrows).
    cbv zeta in Hrows. rewrite Hd in Hrows.
    intros i row Hi. rewrite Hrows in Hi.
    apply nth_error_map_combine in Hi. destruct Hi as (z & c & Hz & Hci & ->).
    exists z, c. split; [exact Hz|]. split; [|reflexivity].
    unfold KDE.take_rows in Htake.
    destruct (mapM_nth_error_inv _ _ _ Htake i c Hci) as (a & _ & Ha).
    rewrite Hdata in Ha.
    destruct (nth_error (rows data) a) as [r|] eqn:Er; [|discriminate Ha].
    injection Ha as <-. apply (nth_error_In _ _ Er).
Qed.
End KDEDraw.

Lemma KDE_draw_centred_witness :
  exists out s',
    KDE.draw (RO := counting_rng) square_kde 3 0%nat = Ok (out, s')
    /\ nrows out = 3%nat
    /\ ncols out = ncols square
    /\ forall i row, nth_error (rows out) i = Some row ->
         exists z c,
           nth_error (rows (fst (random_normal (RO := counting_rng) 3 (ncols square)
                                               0%nat))) i = Some z
           /\ In c (rows square)
           /\ row = map2 Rplus (mat_vec (KDE._decomposed_kernel_cov square_kde) z) c.
Proof.
  exact (KDE_draw_centred (RL := counting_rng_laws) square None square_kde 3 0%nat
           KDE_init_square).
Defined.

(** ** The cluster a uniform value selects *)

Lemma rsum_firstn_nonneg (w : vec) (c : nat) :
  Forall (fun x => 0 < x) w -> 0 <= rsum (firstn c w).
Proof.
  intros HF. revert c.
  induction HF as [|x w Hx HF IH]; intros [|c]; unfold rsum in *;
    cbn [firstn fold_right]; try lra.
  specialize (IH c). lra.
Qed.

Lemma searchsorted1_cumsum_interval (w : vec) :
  Forall (fun x => 0 < x) w ->
  forall (acc u : R) (c : nat),
    (c < length w)%nat ->
    searchsorted1 (cumsum_from acc w) u = c
    <-> ((c = 0%nat \/ acc + rsum (firstn c w) < u)
         /\ u <= acc + rsum (firstn (S c) w)).
Proof.
  induction 1 as [|x w Hx HF IH]; intros acc u c Hc; [simpl in Hc; lia|].
  cbn [cumsum_from searchsorted1].
  pose proof (rsum_firstn_nonneg w) as Hnn.
  destruct (Rle_dec u (acc + x)) as [Hle|Hgt].
  - destruct c as [|c].
    + cbn [firstn rsum fold_right]. split; [intros _|reflexivity].
      split; [now left|lra].
    + split; [discriminate|]. intros [[E|Hlt] _]; [discriminate|].
      cbn [firstn rsum fold_right] in Hlt.
      specialize (Hnn c HF). unfold rsum in Hnn. lra.
  - destruct c as [|c].
    + split; [discriminate|]. intros [_ Hu].
      cbn [firstn rsum fold_right] in Hu. lra.
    + simpl in Hc. specialize (IH (acc + x) u c ltac:(lia)).
      change (rsum (firstn (S (S c)) (x :: w)))
        with (x + rsum (firstn (S c) w)).
      change (rsum (firstn (S c) (x :: w))) with (x + rsum (firstn c w)).
      split.
      * intros E. injection E as E. apply IH in E. destruct E as [[->|Hlt] Hu].
        -- cbn [firstn rsum fold_right] in *. split; [right|]; lra.
        -- split; [right|]; lra.
      * intros [[E|Hlt] Hu]; [discriminate|]. f_equal. apply IH.
        split; [right|]; lra.
Qed.

(** X11.  In [ClusteredKDE.draw], a uniform value [u] selects cluster
    [c] exactly when it lies above the sum of the weights of the clusters
    before [c] (for [c = 0], whatever its lower end) and not above that
    sum plus the weight of [c]: an interval whose length is the weight of
    cluster [c]. *)
Theorem draw_selects_by_weight (logweights : vec) (u : R) (c : nat) :
  (c < length logweights)%nat ->
  let weights := map exp logweights in
  searchsorted1 (np_cumsum weights) u = c
  <-> ((c = 0%nat \/ rsum (firstn c weights) < u)
       /\ u <= rsum (firstn c weights) + nth c weights 0).
Proof.
  intros Hc weights.
  assert (Hpos : Forall (fun x => 0 < x) weights).
  { unfold weights. rewrite Forall_map. apply Forall_forall. intros x _. apply exp_pos. }
  assert (Hlen : (c < length weights)%nat) by (unfold weights; now rewrite length_map).
  assert (Hsplit : forall (w : vec) n, (n < length w)%nat ->
            rsum (firstn (S n) w) = rsum (firstn n w) + nth n w 0).
  { induction w as [|x w IHw]; intros n Hn; [simpl in Hn; lia|].
    destruct n as [|n]; [simpl; ring|].
    change (rsum (firstn (S (S n)) (x :: w))) with (x + rsum (firstn (S n) w)).
    change (rsum (firstn (S n) (x :: w))) with (x + rsum (firstn n w)).
    simpl in Hn. rewrite IHw by lia. simpl. ring. }
  unfold np_cumsum.
  rewrite (searchsorted1_cumsum_interval weights Hpos 0 u c Hlen).
  rewrite (Hsplit weights c Hlen), !Rplus_0_l. reflexivity.
Qed.

Lemma draw_selects_by_weight_witness :
  searchsorted1 (np_cumsum (map exp [ln (1 / 4); ln (3 / 4)])) (1 / 2) = 1%nat
  <-> ((1%nat = 0%nat \/ rsum (firstn 1 (map exp [ln (1 / 4); ln (3 / 4)])) < 1 / 2)
       /\ 1 / 2 <= rsum (firstn 1 (map exp [ln (1 / 4); ln (3 / 4)]))
                   + nth 1 (map exp [ln (1 / 4); ln (3 / 4)]) 0).
Proof.
  apply (draw_selects_by_weight [ln (1 / 4); ln (3 / 4)] (1 / 2) 1).
  simpl. lia.
Defined.

(** ** The whitened training sample *)







Section Standardised.
Context {pool : Type} {CO : ClusterOps}.



End Standardised.


(** ** The factor of the kernel covariance *)

Lemma dot_app (u v u' v' : vec) :
  length u = length v -> dot (u ++ u') (v ++ v') = dot u v + dot u' v'.
Proof.
  revert v. induction u as [|x u IH]; intros [|y v] Hl; simpl in *; try discriminate.
  - ring.
  - rewrite IH by lia. ring.
Qed.

Lemma dot_comm (u v : vec) : dot u v = dot v u.
Proof.
  revert v. induction u as [|x u IH]; intros [|y v]; simpl; try reflexivity.
  rewrite IH. ring.
Qed.

Lemma column_snoc (j : nat) (prev : list vec) (r : vec) :
  column j (prev ++ [r]) = column j prev ++ [nth j r 0].
Proof. unfold column. now rewrite map_app. Qed.

(** The entries of the row that [chol_row] adds. *)
Lemma chol_row_entries (A : matrix) (prev : list vec) (r : vec) :
  chol_row A prev = Ok r ->
  let i := length prev in
  let piv := entry A i i - dot (column i prev) (column i prev) in
  0 < piv
  /\ length r = ncols A
  /\ forall j, (j < ncols A)%nat ->
       nth j r 0 = if (j <? i)%nat then 0
                   else if (j =? i)%nat then sqrt piv
                   else (entry A i j - dot (column i prev) (column j prev)) / sqrt piv.
Proof.
  intros H i piv. unfold chol_row in H. fold i in H. fold piv in H.
  destruct (Rlt_dec 0 piv) as [Hp|_]; [|discriminate H].
  injection H as <-. split; [exact Hp|]. split.
  - now rewrite length_map, length_seq.
  - intros j Hj. now rewrite nth_map_seq.
Qed.

(** The rows [chol_rows] has computed so far multiply to the rows of [A]
    they belong to. *)
Lemma chol_rows_products (A : matrix) (todo : nat) :
  forall prev U,
    chol_rows A todo prev = Ok U ->
    (length prev + todo <= ncols A)%nat ->
    (forall i j, (i < length prev)%nat -> (i <= j < ncols A)%nat ->
                 dot (column i prev) (column j prev) = entry A i j) ->
    length U = (length prev + todo)%nat
    /\ forall i j, (i < length U)%nat -> (i <= j < ncols A)%nat ->
                   dot (column i U) (column j U) = entry A i j.
Proof.
  induction todo as [|todo IH]; intros prev U H Hlen Hprev; cbn [chol_rows] in H.
  - injection H as <-. split; [lia|exact Hprev].
  - inv_bind H. rename a into r.
    destruct (chol_row_entries A prev r Ha) as (Hpiv & Hlr & Hr).
    cbv zeta in Hpiv, Hr.
    set (i0 := length prev) in *.
    set (piv := entry A i0 i0 - dot (column i0 prev) (column i0 prev)) in *.
    assert (Hs : sqrt piv <> 0) by (apply Rgt_not_eq, sqrt_lt_R0, Hpiv).
    destruct (IH (prev ++ [r]) U H) as [HlU HU].
    + rewrite length_app. simpl. lia.
    + intros i j Hi Hj. rewrite length_app in Hi. simpl in Hi.
      rewrite !column_snoc, dot_app by (unfold column; now rewrite !length_map).
      cbn [dot]. rewrite (Hr i), (Hr j) by lia.
      destruct (Nat.lt_ge_cases i i0) as [Hlt|Hge].
      * apply Nat.ltb_lt in Hlt. rewrite Hlt.
        rewrite Hprev by (apply Nat.ltb_lt in Hlt; fold i0; lia). ring.
      * assert (i = i0) by (fold i0 in Hi; lia). subst i.
        rewrite Nat.ltb_irrefl, Nat.eqb_refl.
        destruct (Nat.eq_dec j i0) as [->|Hne].
        -- rewrite Nat.ltb_irrefl, Nat.eqb_refl.
           replace (sqrt piv * sqrt piv + 0) with piv
             by (rewrite Rplus_0_r, sqrt_sqrt; lra).
           unfold piv. ring.
        -- assert (Hnlt : (j <? i0)%nat = false) by (apply Nat.ltb_ge; lia).
           assert (Hneq : (j =? i0)%nat = false) by (apply Nat.eqb_neq; lia).
           rewrite Hnlt, Hneq. field. exact Hs.
    + split; [rewrite HlU, length_app; simpl; lia|exact HU].
Qed.

Lemma entry_cov_matrix (A : matrix) (i j : nat) :
  (i < ncols A)%nat -> (j < ncols A)%nat ->
  entry (cov_matrix A) i j
  = dot (column i (map (fun r => map2 Rminus r (np_mean A)) (rows A)))
        (column j (map (fun r => map2 Rminus r (np_mean A)) (rows A)))
    / INR (nrows A - 1).
Proof.
  intros Hi Hj. unfold entry, cov_matrix. cbn [rows].
  rewrite (@nth_map_seq vec _ (@nil R) (ncols A) i Hi).
  now rewrite (@nth_map_seq R _ 0 (ncols A) j Hj).
Qed.

Lemma rows_as_table (A : matrix) (g : nat -> nat -> R) :
  rows A = map (fun i => map (fun j => g i j) (seq 0 (ncols A))) (seq 0 (ncols A)) ->
  forall i j, (i < ncols A)%nat -> (j < ncols A)%nat -> entry A i j = g i j.
Proof.
  intros H i j Hi Hj. unfold entry. rewrite H.
  rewrite (@nth_map_seq vec _ (@nil R) (ncols A) i Hi).
  now rewrite (@nth_map_seq R _ 0 (ncols A) j Hj).
Qed.

Section Factor.
Context {pool : Type}.

Lemma KDE_factor_product (data : matrix) (p : option pool) (self : KDE.t pool) :
  KDE.__init__ data p = Ok self ->
  let U := KDE._decomposed_kernel_cov self in
  mat_mul (transpose U) U = KDE.kernel_cov self.
Proof.
  intros H U.
  destruct (KDE_init_inv _ _ _ H) as (HN & Hd & Hdata & _ & _ & _ & Hchol & _).
  fold U in Hchol.
  set (K := KDE.kernel_cov self) in *.
  assert (HnK : ncols K = ncols data).
  { unfold K, KDE.kernel_cov. rewrite Hdata. reflexivity. }
  set (s := Rpower (INR (KDE._N self)) (-2 / (INR (KDE._dim self) + 4))).
  assert (HK : forall i j, (i < ncols data)%nat -> (j < ncols data)%nat ->
                 entry K i j = entry (cov_matrix data) i j * s).
  { intros i j Hi Hj. unfold K, KDE.kernel_cov. rewrite entry_scale, Hdata. reflexivity. }
  assert (Hsym : forall i j, (i < ncols data)%nat -> (j < ncols data)%nat ->
                   entry K i j = entry K j i).
  { intros i j Hi Hj. rewrite !HK, !entry_cov_matrix by assumption.
    now rewrite dot_comm. }
  assert (HrK : rows K = map (fun i => map (fun j => entry K i j) (seq 0 (ncols data)))
                             (seq 0 (ncols data))).
  { unfold K at 1. unfold KDE.kernel_cov, scale, cov_matrix. cbn [rows ncols].
    rewrite Hdata, map_map. apply map_ext_in. intros i Hi. apply in_seq in Hi.
    rewrite map_map. apply map_ext_in. intros j Hj. apply in_seq in Hj.
    rewrite HK, entry_cov_matrix by lia. reflexivity. }
  unfold cholesky_2d in Hchol.
  destruct (nrows K =? ncols K)%nat; [|discriminate Hchol].
  inv_bind Hchol. injection Hchol as HU.
  destruct (chol_rows_products K (ncols K) [] a Ha) as [Hla Hprod].
  - simpl. lia.
  - intros i j Hi. simpl in Hi. lia.
  - simpl in Hla. rewrite HnK in *. rewrite ?Hdata in HU, Hla.
    assert (HU' : U = mkMatrix (ncols data) a) by (symmetry; exact HU).
    rewrite HU'. unfold mat_mul, transpose. cbn [rows ncols].
    transitivity (mkMatrix (ncols data) (rows K));
      [|unfold K in *; rewrite <- HnK; now destruct (KDE.kernel_cov self)].
    f_equal. rewrite HrK, map_map.
    apply map_ext_in. intros i Hi. apply in_seq in Hi.
    apply map_ext_in. intros j Hj. apply in_seq in Hj.
    destruct (Nat.le_gt_cases i j) as [Hle|Hgt].
    + apply Hprod; lia.
    + rewrite dot_comm, Hsym by lia. apply Hprod; lia.
Qed.

(** X13.  The factor a constructed estimator stores for drawing is the
    upper-triangular Cholesky factor of the kernel covariance [H]: its
    transpose times the factor itself is [H]. *)
Theorem KDE_factor_factorises (data : matrix) (p : option pool) (self : KDE.t pool) :
  KDE.__init__ data p = Ok self ->
  let U := KDE._decomposed_kernel_cov self in
  upper_triangular U
  /\ mat_mul (transpose U) U = KDE.kernel_cov self.
Proof.
  intros H U. split.
  - exact (KDE_factor_upper_triangular data p self H).
  - exact (KDE_factor_product data p self H).
Qed.
End Factor.

Lemma KDE_factor_factorises_witness :
  let U := KDE._decomposed_kernel_cov skewed_kde in
  upper_triangular U
  /\ mat_mul (transpose U) U = KDE.kernel_cov skewed_kde.
Proof.
  exact (KDE_factor_factorises skewed None skewed_kde KDE_init_skewed).
Defined.

(** ** Solving with the factor *)

Lemma nth_column (j k : nat) (rs : list vec) :
  nth k (column j rs) 0 = nth j (nth k rs []) 0.
Proof.
  revert k. induction rs as [|r rs IH]; intros [|k]; simpl; try apply IH;
    try reflexivity; now destruct j.
Qed.

Lemma dot_short_app (u v w : vec) :
  (length u <= length v)%nat -> dot u (v ++ w) = dot u v.
Proof.
  revert v. induction u as [|x u IH]; intros [|y v] Hl; simpl in *; try reflexivity;
    try lia.
  rewrite IH by lia. reflexivity.
Qed.

Lemma dot_firstn_zeros (u v : vec) (m : nat) :
  (forall j, (m <= j)%nat -> nth j u 0 = 0) -> dot u v = dot (firstn m u) v.
Proof.
  revert v m. induction u as [|x u IH]; intros v m Hz.
  - now rewrite firstn_nil.
  - destruct v as [|y v]; [now destruct m|].
    destruct m as [|m].
    + pose proof (Hz 0%nat ltac:(lia)) as H0. cbn [nth] in H0. subst x.
      cbn [firstn dot].
      rewrite (IH v 0%nat) by (intros j Hj; apply (Hz (S j)); lia).
      cbn [firstn dot]. ring.
    + cbn [firstn dot]. f_equal. apply IH. intros j Hj. apply (Hz (S j)). lia.
Qed.

Lemma dot_skipn_zeros (u v : vec) (m : nat) :
  (forall j, (j < m)%nat -> nth j u 0 = 0) -> dot u v = dot (skipn m u) (skipn m v).
Proof.
  revert u v. induction m as [|m IH]; intros u v Hz; [reflexivity|].
  destruct u as [|x u]; [now rewrite skipn_nil|].
  destruct v as [|y v]; [rewrite skipn_nil; cbn [dot]; now destruct (skipn (S m) (x :: u))|].
  pose proof (Hz 0%nat ltac:(lia)) as H0. cbn [nth] in H0. subst x.
  cbn [skipn dot].
  rewrite <- IH by (intros j Hj; apply (Hz (S j)); lia). ring.
Qed.

Lemma firstn_S_snoc (u : vec) (m : nat) :
  (m < length u)%nat -> firstn (S m) u = firstn m u ++ [nth m u 0].
Proof.
  revert m. induction u as [|x u IH]; intros m Hm; [simpl in Hm; lia|].
  destruct m as [|m]; [reflexivity|].
  simpl in Hm. cbn [firstn nth app]. f_equal.
  apply IH. lia.
Qed.

Lemma skipn_cons_nth (u : vec) (m : nat) :
  (m < length u)%nat -> skipn m u = nth m u 0 :: skipn (S m) u.
Proof.
  revert m. induction u as [|x u IH]; intros m Hm; [simpl in Hm; lia|].
  destruct m as [|m]; [reflexivity|].
  simpl in Hm. cbn [skipn nth]. apply IH. lia.
Qed.

(** Forward substitution solves the first equations of [U^T y = b]. *)
Lemma forward_subst_spec (U : matrix) (b : vec) (todo : nat) :
  forall ys,
    (length ys + todo <= nrows U)%nat ->
    (forall i, (i < length ys + todo)%nat -> entry U i i <> 0) ->
    (forall i, (i < length ys)%nat ->
               dot (firstn (S i) (column i (rows U))) ys = nth i b 0) ->
    length (forward_subst U b todo ys) = (length ys + todo)%nat
    /\ forall i, (i < length ys + todo)%nat ->
         dot (firstn (S i) (column i (rows U))) (forward_subst U b todo ys) = nth i b 0.
Proof.
  induction todo as [|todo IH]; intros ys Hlen Hdiag Hys; cbn [forward_subst].
  - split; [lia|]. intros i Hi. apply Hys. lia.
  - cbv zeta. set (i0 := length ys) in *.
    set (y0 := (nth i0 b 0 - dot (firstn i0 (column i0 (rows U))) ys) / entry U i0 i0).
    destruct (IH (ys ++ [y0])) as [Hl Hsol].
    + rewrite length_app. simpl. fold i0. lia.
    + intros i Hi. rewrite length_app in Hi. simpl in Hi. fold i0 in Hi.
      apply Hdiag. lia.
    + intros i Hi. rewrite length_app in Hi. simpl in Hi. fold i0 in Hi.
      destruct (Nat.lt_ge_cases i i0) as [Hlt|Hge].
      * rewrite dot_short_app by (rewrite length_firstn; fold i0; lia).
        apply Hys. exact Hlt.
      * assert (i = i0) by lia. subst i.
        assert (Hcl : length (column i0 (rows U)) = nrows U)
          by (unfold column; now rewrite length_map).
        rewrite firstn_S_snoc by lia.
        rewrite dot_app by (rewrite length_firstn; fold i0; lia).
        cbn [dot]. rewrite nth_column.
        change (nth i0 (nth i0 (rows U) []) 0) with (entry U i0 i0).
        unfold y0. field. apply Hdiag. lia.
    + rewrite length_app in Hl. simpl in Hl. fold i0 in Hl.
      split; [lia|].
      intros i Hi. apply Hsol. rewrite length_app. simpl. fold i0. lia.
Qed.

(** Back substitution solves the last equations of [U x = y]. *)
Lemma back_subst_spec (U : matrix) (y : vec) (n : nat) :
  nrows U = n -> wf_matrix U -> ncols U = n ->
  (forall i, (i < n)%nat -> entry U i i <> 0) ->
  forall i xs,
    (i <= n)%nat -> length xs = (n - i)%nat ->
    (forall k, (i <= k < n)%nat ->
               dot (skipn k (nth k (rows U) [])) (skipn (k - i) xs) = nth k y 0) ->
    length (back_subst U y i xs) = n
    /\ forall k, (k < n)%nat ->
         dot (skipn k (nth k (rows U) [])) (skipn k (back_subst U y i xs)) = nth k y 0.
Proof.
  intros Hn Hwf Hc Hdiag.
  induction i as [|i IH]; intros xs Hi Hl Hxs; cbn [back_subst].
  - split; [lia|]. intros k Hk. specialize (Hxs k ltac:(lia)).
    rewrite Nat.sub_0_r in Hxs. exact Hxs.
  - cbv zeta.
    set (x0 := (nth i y 0 - dot (skipn (S i) (nth i (rows U) [])) xs) / entry U i i).
    apply IH.
    + lia.
    + simpl. lia.
    + intros k Hk. destruct (Nat.eq_dec k i) as [->|Hne].
      * rewrite Nat.sub_diag. cbn [skipn].
        assert (Hrow : length (nth i (rows U) []) = n).
        { unfold wf_matrix in Hwf. rewrite Forall_forall in Hwf. rewrite <- Hc.
          apply Hwf. apply nth_In. unfold nrows in Hn. lia. }
        rewrite skipn_cons_nth by lia. cbn [dot].
        change (nth i (nth i (rows U) []) 0) with (entry U i i).
        unfold x0. field. apply Hdiag. lia.
      * replace (k - i)%nat with (S (k - S i)) by lia. cbn [skipn].
        apply Hxs. lia.
Qed.

Lemma chol_rows_shape (A : matrix) (todo : nat) :
  forall prev U,
    chol_rows A todo prev = Ok U ->
    (length prev + todo <= ncols A)%nat ->
    Forall (fun r => length r = ncols A) prev ->
    (forall i, (i < length prev)%nat -> 0 < nth i (nth i prev []) 0) ->
    length U = (length prev + todo)%nat
    /\ Forall (fun r => length r = ncols A) U
    /\ forall i, (i < length U)%nat -> 0 < nth i (nth i U []) 0.
Proof.
  induction todo as [|todo IH]; intros prev U H Hlen Hwf Hdiag; cbn [chol_rows] in H.
  - injection H as <-. repeat split; [lia|exact Hwf|exact Hdiag].
  - inv_bind H. rename a into r.
    destruct (chol_row_entries A prev r Ha) as (Hpiv & Hlr & Hr). cbv zeta in Hpiv, Hr.
    destruct (IH (prev ++ [r]) U H) as (HlU & HwfU & HdU).
    + rewrite length_app. simpl. lia.
    + apply Forall_app. split; [exact Hwf|]. constructor; [exact Hlr|constructor].
    + intros i Hi. rewrite length_app in Hi. simpl in Hi.
      destruct (Nat.lt_ge_cases i (length prev)) as [Hlt|Hge].
      * rewrite app_nth1 by exact Hlt. apply Hdiag. exact Hlt.
      * assert (i = length prev) by lia. subst i.
        rewrite app_nth2, Nat.sub_diag by lia. cbn [nth].
        rewrite Hr by lia. rewrite Nat.ltb_irrefl, Nat.eqb_refl.
        apply sqrt_lt_R0. exact Hpiv.
    + rewrite length_app in HlU. simpl in HlU. repeat split; [lia|exact HwfU|exact HdU].
Qed.

(** The factor [cholesky] returns: square, upper triangular, with a
    positive diagonal. *)
Lemma cholesky_2d_factor (A U : matrix) :
  cholesky_2d A false = Ok U ->
  nrows U = ncols A /\ ncols U = ncols A /\ wf_matrix U
  /\ upper_triangular U
  /\ forall i, (i < ncols A)%nat -> 0 < entry U i i.
Proof.
  unfold cholesky_2d. destruct (nrows A =? ncols A)%nat; [|discriminate].
  intros H. inv_bind H. injection H as <-.
  destruct (chol_rows_shape A (ncols A) [] a Ha) as (Hl & Hwf & Hd).
  - simpl. lia.
  - constructor.
  - intros i Hi. simpl in Hi. lia.
  - simpl in Hl. unfold nrows, wf_matrix, upper_triangular, entry. cbn [rows ncols].
    repeat split; try assumption.
    + intros i j Hij. apply (chol_rows_upper _ _ [] a Ha); [|exact Hij].
      intros i' j' _. now destruct i', j'.
    + intros i Hi. apply Hd. lia.
Qed.

Lemma map_nth_seq (v : vec) (n : nat) :
  length v = n -> map (fun j => nth j v 0) (seq 0 n) = v.
Proof.
  intros <-. induction v as [|x v IH]; [reflexivity|].
  cbn [length seq map nth]. f_equal. rewrite <- seq_shift, map_map. exact IH.
Qed.

(** [la_cho_solve] with an upper factor [U] solves [U^T (U z) = b]. *)
Lemma cho_solve_solves (U : matrix) (b : vec) (n : nat) :
  nrows U = n -> ncols U = n -> wf_matrix U -> upper_triangular U ->
  (forall i, (i < n)%nat -> entry U i i <> 0) ->
  length b = n ->
  let z := la_cho_solve (U, false) b in
  length z = n
  /\ mat_vec (transpose U) (mat_vec U z) = b.
Proof.
  intros Hn Hc Hwf Hup Hdiag Hb z.
  assert (Ez : z = back_subst U (forward_subst U b n []) n []).
  { unfold z, la_cho_solve. cbn [fst snd]. cbv zeta. rewrite Hc. reflexivity. }
  clearbody z. subst z.
  set (y := forward_subst U b n []) in *.
  set (z := back_subst U y n []).
  destruct (forward_subst_spec U b n []) as [Hly Hy].
  { simpl. lia. }
  { intros i Hi. apply Hdiag. simpl in Hi. exact Hi. }
  { intros i Hi. simpl in Hi. lia. }
  fold y in Hly, Hy. cbn [length Nat.add] in Hly, Hy.
  destruct (back_subst_spec U y n Hn Hwf Hc Hdiag n []) as [Hlz Hz].
  { lia. }
  { simpl. lia. }
  { intros k Hk. lia. }
  fold z in Hlz, Hz.
  split; [exact Hlz|].
  assert (HUz : mat_vec U z = y).
  { unfold mat_vec. apply nth_ext with (d := 0) (d' := 0).
    - rewrite length_map. fold (nrows U). lia.
    - intros k Hk. rewrite length_map in Hk. fold (nrows U) in Hk.
      transitivity (dot (nth k (rows U) []) z);
        [exact (map_nth (fun r => dot r z) (rows U) [] k)|].
      rewrite <- (Hz k) by lia.
      apply dot_skipn_zeros. intros j Hj. apply (Hup k j Hj). }
  rewrite HUz. unfold mat_vec, transpose. cbn [rows]. rewrite map_map, Hc.
  transitivity (map (fun j => nth j b 0) (seq 0 n)); [|exact (map_nth_seq b n Hb)].
  apply map_ext_in. intros i Hi. apply in_seq in Hi.
  rewrite <- (Hy i) by lia.
  apply dot_firstn_zeros. intros j Hj. rewrite nth_column.
  apply (Hup j i). lia.
Qed.

Lemma dot_map_linear (a : R) (f g : nat -> R) (l : list nat) (z : vec) :
  dot (map (fun j => a * f j + g j) l) z
  = a * dot (map f l) z + dot (map g l) z.
Proof.
  revert z. induction l as [|j l IH]; intros [|x z]; cbn [map dot]; try ring.
  rewrite IH. ring.
Qed.

Lemma dot_map_zero (l : list nat) (z : vec) : dot (map (fun _ => 0) l) z = 0.
Proof.
  revert z. induction l as [|j l IH]; intros [|x z]; cbn [map dot]; try reflexivity.
  rewrite IH. ring.
Qed.

(** Summing over rows first or over columns first. *)
Lemma dot_exchange (B : list vec) (m : nat) (r z : vec) :
  Forall (fun rb => length rb = m) B -> length r = length B ->
  dot (map (fun j => dot r (column j B)) (seq 0 m)) z
  = dot r (map (fun rb => dot rb z) B).
Proof.
  intros HB. revert r. induction HB as [|rb B Hrb HB IH]; intros r Hr.
  - destruct r; [|discriminate Hr]. cbn [dot map column].
    apply dot_map_zero.
  - destruct r as [|x r]; [discriminate Hr|]. simpl in Hr.
    cbn [map dot column].
    rewrite (dot_map_linear x (fun j => nth j rb 0) (fun j => dot r (column j B))).
    rewrite map_nth_seq by exact Hrb.
    rewrite IH by lia. reflexivity.
Qed.

Lemma mat_vec_mat_mul (A B : matrix) (z : vec) :
  wf_matrix B -> Forall (fun r => length r = nrows B) (rows A) ->
  mat_vec (mat_mul A B) z = mat_vec A (mat_vec B z).
Proof.
  intros HB HA. unfold mat_vec, mat_mul. cbn [rows]. rewrite map_map.
  apply map_ext_in. intros r Hr. rewrite Forall_forall in HA.
  apply dot_exchange; [exact HB|]. apply HA. exact Hr.
Qed.

Lemma rsum_map2_mult (u v : vec) : rsum (map2 Rmult u v) = dot u v.
Proof.
  revert v. induction u as [|x u IH]; intros [|y v]; try reflexivity.
  unfold rsum in *. cbn [map2 fold_right dot]. now rewrite IH.
Qed.

Section Mahalanobis.
Context {pool : Type}.

(** With the factor stored by the constructor, [cho_solve] solves
    [H z = d] for the kernel covariance [H], and [d . z] is not
    negative. *)
Lemma KDE_cho_solve (data : matrix) (p : option pool) (self : KDE.t pool) (d : vec) :
  KDE.__init__ data p = Ok self -> length d = ncols data ->
  let z := la_cho_solve (KDE._cho_factor self) d in
  length z = ncols data
  /\ mat_vec (KDE.kernel_cov self) z = d
  /\ 0 <= dot d z.
Proof.
  intros H Hd z.
  destruct (KDE_init_inv _ _ _ H) as (_ & _ & Hdata & _ & _ & _ & Hchol & Hcf & _).
  pose proof (KDE_factor_product data p self H) as Hprod. cbv zeta in Hprod.
  set (U := KDE._decomposed_kernel_cov self) in *.
  destruct (cholesky_2d_factor _ _ Hchol) as (HnU & HcU & HwfU & HupU & HdU).
  assert (HnK : ncols (KDE.kernel_cov self) = ncols data).
  { unfold KDE.kernel_cov. rewrite Hdata. reflexivity. }
  rewrite HnK in *.
  destruct (cho_solve_solves U d (ncols data) HnU HcU HwfU HupU) as [Hlz Hsol].
  { intros i Hi. apply Rgt_not_eq. apply HdU. exact Hi. }
  { exact Hd. }
  cbv zeta in Hlz, Hsol.
  assert (Ez : z = la_cho_solve (U, false) d) by (unfold z; now rewrite Hcf).
  rewrite <- Ez in Hlz, Hsol.
  assert (HT : Forall (fun r => length r = nrows U) (rows (transpose U))).
  { unfold transpose. cbn [rows]. rewrite Forall_map. apply Forall_forall.
    intros j _. unfold column. now rewrite length_map. }
  split; [exact Hlz|]. split.
  - rewrite <- Hprod, mat_vec_mat_mul by assumption. exact Hsol.
  - rewrite <- Hsol at 1.
    unfold mat_vec at 1. unfold transpose. cbn [rows]. rewrite map_map, HcU.
    rewrite (map_ext (fun j => dot (column j (rows U)) (mat_vec U z))
                     (fun j => dot (mat_vec U z) (column j (rows U))))
      by (intros j; apply dot_comm).
    rewrite dot_exchange.
    + fold (mat_vec U z). apply dot_self_nonneg.
    + unfold wf_matrix in HwfU. now rewrite HcU in HwfU.
    + unfold mat_vec. now rewrite length_map.
Qed.

(** What [_evaluate_point_logpdf] returns on the attributes of a
    constructed estimator. *)
Lemma evaluate_point_value (data : matrix) (p : option pool)
      (self : KDE.t pool) (x : vec) :
  KDE.__init__ data p = Ok self ->
  wf_matrix data -> length x = ncols data ->
  _evaluate_point_logpdf (x, KDE._data self, KDE._cho_factor self)
  = Ok (ln (rsum (map (fun c => exp (- dot (map2 Rminus c x)
                                         (la_cho_solve (KDE._cho_factor self)
                                                       (map2 Rminus c x)) / 2))
                      (rows data)))).
Proof.
  intros H Hwf Hx.
  destruct (KDE_init_inv _ _ _ H) as (_ & _ & Hdata & _ & _ & Hpos & _).
  destruct (KDE_init_shape _ _ _ H) as [HcU _].
  unfold _evaluate_point_logpdf. rewrite Hdata.
  rewrite broadcast_same by (auto; congruence). cbn [bind ncols rows].
  rewrite HcU, Nat.eqb_refl.
  rewrite !map_map, combine_map_both, !map_map.
  rewrite (map_ext _ (fun c => - dot (map2 Rminus c x)
                                   (la_cho_solve (KDE._cho_factor self)
                                                 (map2 Rminus c x)) / 2))
    by (intros c; cbn [fst snd]; now rewrite rsum_map2_mult).
  rewrite logsumexp_spec.
  - now rewrite map_map.
  - unfold nrows in Hpos. destruct (rows data); [simpl in Hpos; lia|discriminate].
Qed.

Lemma diff_length (data : matrix) (x c : vec) :
  wf_matrix data -> length x = ncols data -> In c (rows data) ->
  length (map2 Rminus c x) = ncols data.
Proof.
  intros Hwf Hx Hc. rewrite map2_length.
  unfold wf_matrix in Hwf. rewrite Forall_forall in Hwf. rewrite (Hwf c Hc). lia.
Qed.

(** X14.  For a constructed estimator with kernel covariance [H], and a
    point [x] of [D] entries, [_evaluate_point_logpdf] returns
    [log (sum over the centres c of exp(-(c - x) . z_c / 2))], where
    [z_c] is the solution of [H z_c = c - x] that [cho_solve] computes
    from the stored factor, and every [(c - x) . z_c] is non-negative:
    the sum of Gaussian kernels of covariance [H] at the stored centres,
    without its normalisation. *)
Theorem evaluate_point_is_kernel_sum (data : matrix) (p : option pool)
        (self : KDE.t pool) (x : vec) :
  KDE.__init__ data p = Ok self ->
  wf_matrix data -> length x = ncols data ->
  let solve := la_cho_solve (KDE._cho_factor self) in
  let diff := fun c => map2 Rminus c x in
  (forall c, In c (rows data) ->
             mat_vec (KDE.kernel_cov self) (solve (diff c)) = diff c
             /\ 0 <= dot (diff c) (solve (diff c)))
  /\ _evaluate_point_logpdf (x, KDE._data self, KDE._cho_factor self)
     = Ok (ln (rsum (map (fun c => exp (- dot (diff c) (solve (diff c)) / 2))
                         (rows data)))).
Proof.
  intros H Hwf Hx solve diff. split.
  - intros c Hc.
    destruct (KDE_cho_solve data p self (diff c) H (diff_length data x c Hwf Hx Hc))
      as (_ & Hs & Hn).
    split; [exact Hs|exact Hn].
  - exact (evaluate_point_value data p self x H Hwf Hx).
Qed.
End Mahalanobis.

Lemma evaluate_point_is_kernel_sum_witness :
  let solve := la_cho_solve (KDE._cho_factor skewed_kde) in
  let diff := fun c => map2 Rminus c [1; 2] in
  (forall c, In c (rows skewed) ->
             mat_vec (KDE.kernel_cov skewed_kde) (solve (diff c)) = diff c
             /\ 0 <= dot (diff c) (solve (diff c)))
  /\ _evaluate_point_logpdf ([1; 2], KDE._data skewed_kde, KDE._cho_factor skewed_kde)
     = Ok (ln (rsum (map (fun c => exp (- dot (diff c) (solve (diff c)) / 2))
                         (rows skewed)))).
Proof.
  apply (evaluate_point_is_kernel_sum skewed None skewed_kde [1; 2] KDE_init_skewed).
  - unfold wf_matrix, skewed. simpl. repeat constructor.
  - reflexivity.
Defined.

(** ** Bounds of the estimator's log-density *)

Lemma rsum_exp_le_length (a : vec) :
  Forall (fun t => t <= 0) a -> rsum (map exp a) <= INR (length a).
Proof.
  induction 1 as [|t a Ht HF IH].
  - simpl. lra.
  - change (length (t :: a)) with (S (length a)). rewrite S_INR.
    unfold rsum in *. cbn [map fold_right].
    assert (exp t <= 1).
    { destruct (Req_dec t 0) as [->|Hne]; [rewrite exp_0; lra|].
      left. rewrite <- exp_0. apply exp_increasing. lra. }
    lra.
Qed.

Lemma rsum_exp_ge_term (a : vec) (t : R) : In t a -> exp t <= rsum (map exp a).
Proof.
  induction a as [|y a IH]; intros Hin; [destruct Hin|].
  unfold rsum in *. cbn [map fold_right].
  destruct Hin as [->|Hin].
  - assert (0 <= fold_right Rplus 0 (map exp a)).
    { clear. induction a as [|z a IHa]; cbn [map fold_right]; [lra|].
      pose proof (exp_pos z). lra. }
    lra.
  - specialize (IH Hin). pose proof (exp_pos y). lra.
Qed.

Lemma dot_zeros_l (u v : vec) : Forall (fun x => x = 0) u -> dot u v = 0.
Proof.
  intros HF. revert v. induction HF as [|x u Hx HF IH]; intros [|y v]; cbn [dot];
    try reflexivity.
  rewrite Hx, IH. ring.
Qed.

Section Bounds.
Context {pool : Type} {PO : PoolOps pool} {PL : PoolLaws pool}.

(** X15.  A constructed estimator answers every query whose rows have
    [D] entries; each value it returns is at most
    [log(Nc) - lognorm], and at a query point that is one of the stored
    centres it is at least [- lognorm]. *)
Theorem KDE_logpdf_bounds (data : matrix) (p : option pool) (self : KDE.t pool)
        (X : matrix) :
  KDE.__init__ data p = Ok self ->
  wf_matrix data -> wf_matrix X -> ncols X = ncols data ->
  exists out,
    KDE.logpdf self X = Ok out
    /\ length out = nrows X
    /\ Forall (fun v => v <= ln (INR (nrows data)) - KDE._lognorm self) out
    /\ forall i x v, nth_error (rows X) i = Some x -> nth_error out i = Some v ->
                     In x (rows data) -> - KDE._lognorm self <= v.
Proof.
  intros H Hwf HX Hc.
  destruct (KDE_init_inv _ _ _ H) as (_ & Hd & Hdata & _ & _ & Hpos & _).
  set (value := fun x =>
         ln (rsum (map (fun c => exp (- dot (map2 Rminus c x)
                                          (la_cho_solve (KDE._cho_factor self)
                                                        (map2 Rminus c x)) / 2))
                       (rows data))) - KDE._lognorm self).
  assert (Hrow : forall x, In x (rows X) -> length x = ncols data).
  { intros x Hx. unfold wf_matrix in HX. rewrite Forall_forall in HX.
    rewrite (HX x Hx). exact Hc. }
  assert (Hpt : forall x, In x (rows X) -> point_logpdf self x = Ok (value x)).
  { intros x Hx. unfold point_logpdf.
    rewrite (evaluate_point_value data p self x H Hwf (Hrow x Hx)).
    reflexivity. }
  assert (Hexp : forall x c, In x (rows X) -> In c (rows data) ->
            - dot (map2 Rminus c x)
                  (la_cho_solve (KDE._cho_factor self) (map2 Rminus c x)) / 2 <= 0).
  { intros x c Hx Hcin.
    destruct (KDE_cho_solve data p self (map2 Rminus c x) H
                (diff_length data x c Hwf (Hrow x Hx) Hcin)) as (_ & _ & Hnn).
    cbv zeta in Hnn. lra. }
  exists (map value (rows X)).
  assert (Hout : KDE.logpdf self X = Ok (map value (rows X))).
  { rewrite KDE_logpdf_any_pool, Hc, Hd, Nat.eqb_refl. apply mapM_total. exact Hpt. }
  split; [exact Hout|]. split; [apply length_map|].
  assert (HNpos : 0 < INR (nrows data)) by (apply lt_0_INR; exact Hpos).
  split.
  - rewrite Forall_map. apply Forall_forall. intros x Hx. unfold value.
    apply Rplus_le_compat_r.
    assert (Hne : rows data <> []).
    { unfold nrows in Hpos. destruct (rows data); [simpl in Hpos; lia|discriminate]. }
    rewrite <- map_map with (g := exp).
    apply ln_monotone.
    + apply rsum_exp_pos. destruct (rows data); [congruence|discriminate].
    + etransitivity; [apply rsum_exp_le_length|].
      * rewrite Forall_map. apply Forall_forall. intros c Hcin. apply Hexp; assumption.
      * rewrite length_map. unfold nrows. lra.
  - intros i x v Hx Hv Hin. rewrite nth_error_map, Hx in Hv. injection Hv as <-.
    unfold value.
    assert (Hxin : In x (rows X)) by (apply (nth_error_In _ _ Hx)).
    rewrite <- map_map with (g := exp).
    set (a := map _ (rows data)).
    assert (H1 : 1 <= rsum (map exp a)).
    { rewrite <- exp_0. apply rsum_exp_ge_term. unfold a.
      apply in_map_iff. exists x. split; [|exact Hin].
      rewrite dot_zeros_l; [unfold Rdiv; ring|].
      clear. induction x as [|t x IH]; cbn [map2]; constructor; [ring|exact IH]. }
    assert (0 <= ln (rsum (map exp a))).
    { rewrite <- ln_1. apply ln_monotone; lra. }
    lra.
Qed.
End Bounds.

Lemma KDE_logpdf_bounds_witness :
  let X := mkMatrix 2 [[1; 1]; [0; 5]] in
  exists out,
    KDE.logpdf (PO := no_pool) square_kde X = Ok out
    /\ length out = nrows X
    /\ Forall (fun v => v <= ln (INR (nrows square)) - KDE._lognorm square_kde) out
    /\ forall i x v, nth_error (rows X) i = Some x -> nth_error out i = Some v ->
                     In x (rows square) -> - KDE._lognorm square_kde <= v.
Proof.
  intros X.
  apply (KDE_logpdf_bounds (PL := no_pool_laws) square None square_kde X KDE_init_square).
  - exact wf_square.
  - unfold wf_matrix. simpl. repeat constructor.
  - reflexivity.
Defined.

(** ** Units of the sample *)







Section Units.
Context {pool : Type} {PO : PoolOps pool}.
Context {CO : ClusterOps}.

End Units.


(** ** What the mixture draws *)

Section MixtureValues.
Context {pool : Type} {CO : ClusterOps}.
Context {rng : Type} {RO : RandomOps rng} {RL : RandomLaws rng}.




End MixtureValues.


(** ** The attributes of a constructed model *)

Section Attributes.
Context {pool : Type} {CO : ClusterOps}.

End Attributes.


(** ** Queries of another shape *)

Lemma map2_repeat_l (f : R -> R -> R) (x : R) (v : vec) :
  map2 f (repeat x (length v)) v = map (f x) v.
Proof. induction v as [|y v IH]; simpl; [reflexivity|]. now rewrite IH. Qed.

Section OtherShapes.
Context {pool : Type} {PO : PoolOps pool}.
Context {CO : ClusterOps}.

(** X19.  What [ClusteredKDE.logpdf] does with a query that has not [D]
    columns, in a constructed model with [k >= 1]: if the query has neither
    [D] columns nor one, whitening raises [ValueError]; if it has one
    column, the column is broadcast, and the answer is that for the query
    whose rows repeat that value [D] times. *)
Theorem logpdf_other_shapes (data : matrix) (k : nat) (p : option pool)
        (m : ClusteredKDE.t pool) (X : matrix) :
  (1 <= k)%nat ->
  ClusteredKDE.__init__ data k p = Ok m ->
  (ncols X <> ncols data -> ncols X <> 1%nat ->
   ClusteredKDE.logpdf m X = Raise ValueError)
  /\ (ncols X = 1%nat -> wf_matrix X ->
      ClusteredKDE.logpdf m X
      = ClusteredKDE.logpdf m
          (mkMatrix (ncols data)
                    (map (fun r => repeat (hd 0 r) (ncols data)) (rows X)))).
Proof.
  intros Hk H.
  destruct (ClusteredKDE_init_inv _ _ _ _ H) as (_ & _ & _ & Hmean & Hstd & _).
  destruct (ClusteredKDE_init_shape _ _ _ _ H) as (_ & _ & Hlk & _).
  assert (HD : ncols data <> 1%nat).
  { destruct (nth_error (ClusteredKDE._kdes m) 0) as [kde|] eqn:E;
      [|apply nth_error_None in E; lia].
    destruct (ClusteredKDE_init_cluster _ _ _ _ _ _ H E) as (_ & _ & Hinit & _).
    now destruct (KDE_init_dims _ _ _ Hinit) as [_ Hne]. }
  split.
  - intros Hn H1.
    unfold ClusteredKDE.logpdf, ClusteredKDE._whiten, ClusteredKDE.whiten_with, broadcast.
    rewrite Hmean, np_mean_length.
    unfold broadcast_shape.
    apply Nat.eqb_neq in Hn. apply Nat.eqb_neq in H1. apply Nat.eqb_neq in HD.
    rewrite Hn, H1, HD. reflexivity.
  - intros H1 HX.
    unfold ClusteredKDE.logpdf, ClusteredKDE._whiten. f_equal.
    rewrite Hmean, Hstd.
    rewrite (whiten_with_same _ _ (mkMatrix (ncols data) _)).
    + unfold ClusteredKDE.whiten_with, broadcast.
      rewrite np_mean_length, H1. unfold broadcast_shape at 1.
      assert (E1 : (1 =? ncols data)%nat = false) by (apply Nat.eqb_neq; lia).
      rewrite E1. cbn [Nat.eqb bind ncols rows].
      rewrite np_std_length, broadcast_shape_same. cbn [bind].
      do 2 f_equal. rewrite !map_map. apply map_ext_in. intros r Hr.
      unfold wf_matrix in HX. rewrite Forall_forall in HX. pose proof (HX r Hr) as Hlr.
      rewrite H1 in Hlr.
      assert (Hb : broadcast_row Rminus r (np_mean data) = map (Rminus (hd 0 r)) (np_mean data)).
      { unfold broadcast_row. rewrite Hlr, np_mean_length, E1. reflexivity. }
      rewrite Hb.
      rewrite broadcast_row_same by (now rewrite length_map, np_mean_length, np_std_length).
      f_equal. rewrite <- (np_mean_length data) at 1. symmetry.
      apply (map2_repeat_l Rminus).
    + now rewrite np_std_length, np_mean_length.
    + unfold wf_matrix. cbn [rows ncols]. rewrite Forall_map. apply Forall_forall.
      intros r _. apply repeat_length.
    + cbn [ncols]. now rewrite np_mean_length.
Qed.
End OtherShapes.

Lemma logpdf_other_shapes_witness :
  let X := mkMatrix 1 [[5]; [0]] in
  (ncols X <> ncols square -> ncols X <> 1%nat ->
   ClusteredKDE.logpdf (PO := no_pool) square_model X = Raise ValueError)
  /\ (ncols X = 1%nat -> wf_matrix X ->
      ClusteredKDE.logpdf (PO := no_pool) square_model X
      = ClusteredKDE.logpdf square_model
          (mkMatrix (ncols square)
                    (map (fun r => repeat (hd 0 r) (ncols square)) (rows X)))).
Proof.
  intros X.
  apply (logpdf_other_shapes (PO := no_pool) (CO := round_robin)
           square 1 None square_model X).
  - lia.
  - exact ClusteredKDE_init_square.
Defined.

(** ** The code book and the partition *)

Lemma map_eq_by_index {A B C : Type} (g : B -> C) (h : A -> C)
      (bs : list B) (l : list A) :
  length bs = length l ->
  (forall i b a, nth_error bs i = Some b -> nth_error l i = Some a -> g b = h a) ->
  map g bs = map h l.
Proof.
  revert l. induction bs as [|b bs IH]; intros [|a l] Hl Hgh; simpl in Hl;
    try discriminate; [reflexivity|].
  cbn [map]. f_equal.
  - apply (Hgh 0%nat b a); reflexivity.
  - apply IH; [lia|]. intros i b' a' Hb Ha. apply (Hgh (S i) b' a'); assumption.
Qed.

Lemma count_true_none (l : list nat) (c : nat) :
  Forall (fun a => (a < c)%nat) l -> count_true (ClusteredKDE.eq_mask l c) = 0%nat.
Proof.
  induction 1 as [|a l Ha HF IH]; [reflexivity|].
  change (ClusteredKDE.eq_mask (a :: l) c) with ((a =? c)%nat :: ClusteredKDE.eq_mask l c).
  rewrite count_true_cons, IH.
  assert (E : (a =? c)%nat = false) by (apply Nat.eqb_neq; lia).
  now rewrite E.
Qed.

Section Partition.
Context {pool : Type} {CO : ClusterOps} {CL : ClusterLaws}.

(** X20.  A model with [k >= 1] clusters is constructed only when the
    clustering used all [k] centroids: the stored code book has exactly
    [k] rows (with fewer, the cluster of a missing centroid would be empty
    and its estimator could not be built), every assignment is the index
    of a cluster, and the sample sizes of the [k] estimators add up to
    [N]: each training point is a centre of exactly one estimator. *)
Theorem clusters_partition_sample (data : matrix) (k : nat) (p : option pool)
        (m : ClusteredKDE.t pool) :
  (1 <= k)%nat ->
  ClusteredKDE.__init__ data k p = Ok m ->
  length (ClusteredKDE._centroids m) = k
  /\ Forall (fun c => (c < k)%nat) (ClusteredKDE._assignments m)
  /\ rsum (map (fun kde => INR (KDE._N kde)) (ClusteredKDE._kdes m)) = INR (nrows data).
Proof.
  intros Hk H.
  pose proof (assignments_in_range _ _ _ _ H) as Hrange.
  destruct (ClusteredKDE_init_shape _ _ _ _ H) as (_ & _ & Hlk & _).
  assert (Hbook : kmeans (ClusteredKDE._data m) k = Ok (ClusteredKDE._centroids m)
                  /\ vq (ClusteredKDE._data m) (ClusteredKDE._centroids m)
                     = Ok (ClusteredKDE._assignments m)).
  { unfold ClusteredKDE.__init__ in H. cbv zeta in H.
    inv_bind H. inv_bind H. inv_bind H. inv_bind H. injection H as <-.
    cbn [ClusteredKDE._data ClusteredKDE._centroids ClusteredKDE._assignments].
    split; assumption. }
  destruct Hbook as [Hkm Hvq].
  pose proof (kmeans_size _ _ _ Hkm) as Hle.
  pose proof (vq_codes _ _ _ Hvq) as Hcodes.
  split; [|split; [exact Hrange|]].
  - destruct (Nat.eq_dec (length (ClusteredKDE._centroids m)) k) as [E|Hne]; [exact E|].
    exfalso.
    destruct (ClusteredKDE_init_cluster_size data k p m
                (length (ClusteredKDE._centroids m)) H) as [H2 _]; [lia|].
    rewrite (count_true_none _ _ Hcodes) in H2. lia.
  - rewrite (map_eq_by_index (fun kde => INR (KDE._N kde))
               (fun c => INR (count_true
                                (ClusteredKDE.eq_mask (ClusteredKDE._assignments m) c)))
               (ClusteredKDE._kdes m) (seq 0 k)).
    + rewrite (cluster_sizes_sum _ k Hrange).
      destruct (ClusteredKDE_init_cluster_size data k p m 0 H) as [_ Hla]; [lia|].
      now rewrite Hla.
    + now rewrite length_seq.
    + intros i kde c Hkde Hc.
      assert (Hi : (i < k)%nat).
      { rewrite <- Hlk. apply nth_error_Some. congruence. }
      apply nth_error_nth with (d := 0%nat) in Hc. rewrite seq_nth in Hc by exact Hi.
      simpl in Hc. subst c.
      destruct (ClusteredKDE_init_cluster _ _ _ _ _ _ H Hkde) as (_ & _ & _ & HN & _).
      now rewrite HN.
Qed.
End Partition.

Lemma clusters_partition_sample_witness :
  length (ClusteredKDE._centroids corners_model2) = 2%nat
  /\ Forall (fun c => (c < 2)%nat) (ClusteredKDE._assignments corners_model2)
  /\ rsum (map (fun kde => INR (KDE._N kde)) (ClusteredKDE._kdes corners_model2))
     = INR (nrows corners).
Proof.
  apply (clusters_partition_sample (CL := round_robin_laws) corners 2 None corners_model2).
  - lia.
  - exact ClusteredKDE_init_corners2.
Defined.
